(** * DefaultPieceStorage: the piece-storage core of aria2

  A shallow embedding of [src/DefaultPieceStorage.cc].  The storage is a
  record; every method is a function from the storage (and its arguments)
  to the new storage and the returned value.  [SharedHandle<Piece>] is a
  reference into an explicit store of [Piece] objects, so that two handles
  to the same object are equal and a block completed through one handle is
  seen through the other.

  Fixed-width arithmetic follows an LP64 target: [size_t] and [uint64_t]
  are 64 bits wide, [int] is 32 bits wide.  Piece indexes and container
  positions are natural numbers: they index containers held in memory. *)

From stdpp Require Import base numbers list sorting.
From Stdlib Require Import ZArith Lia.

Local Open Scope Z_scope.

(** ** Fixed-width integers *)

Module Cxx.

(** Conversion of a mathematical integer to [size_t] / [uint64_t]. *)
Definition to_u64 (z : Z) : Z := z mod 2 ^ 64.

(** Conversion to [int] (two's complement, 32 bits). *)
Definition to_int (z : Z) : Z := (z + 2 ^ 31) mod 2 ^ 32 - 2 ^ 31.

End Cxx.

(** ** Bitmaps

  A bitmap over [N] pieces is a [list bool] of length [N]; a bit outside
  the list reads as clear, and writing outside the list changes nothing. *)

Definition bit (bm : list bool) (i : nat) : bool :=
  match bm !! i with Some b => b | None => false end.

Definition popcount (bm : list bool) : nat :=
  length (List.filter (λ b : bool, b) bm).

Definition sumZ (l : list Z) : Z := foldr Z.add 0 l.

(** ** Piece *)

Module Piece.

(** Modelled from the spec: [Piece::BLOCK_LENGTH] is declared in Piece.h,
    which is not part of the sources at hand; the spec fixes the block
    size as a constant of 16 KiB. *)
Definition BLOCK_LENGTH : Z := 16384.

(** Modelled from the spec: class [Piece] (Piece.h, Piece.cc), of which only
    the uses are at hand: [{ index, blockLen, blocks }]; the hash-algorithm
    tag is not modelled. *)
Record t := mk {
  index : nat;
  length : Z;
  blocks : list bool
}.

(** Modelled from the spec: [new(index, blockLen)] "constructs with empty
    block bitmap sized ceil(blockLen / BLOCK_LENGTH)". *)
Definition new (idx : nat) (len : Z) : t :=
  mk idx len (replicate (Z.to_nat ((len + BLOCK_LENGTH - 1) / BLOCK_LENGTH)) false).

Definition getIndex (p : t) : nat := index p.

(** Modelled from the spec: [setAllBlock()] "marks all blocks complete". *)
Definition setAllBlock (p : t) : t :=
  mk (index p) (length p) (replicate (List.length (blocks p)) true).

(** Modelled from the spec: [completeBlock(b)] "sets block bit b". *)
Definition completeBlock (b : nat) (p : t) : t :=
  mk (index p) (length p) (<[b:=true]> (blocks p)).

Definition countBlock (p : t) : nat := List.length (blocks p).
Definition countCompleteBlock (p : t) : nat := popcount (blocks p).

(** Modelled from the spec: "[getCompletedLength()] = popcount(blocks) x
    block-size, capped at piece length". *)
Definition getCompletedLength (p : t) : Z :=
  Z.min (Z.of_nat (countCompleteBlock p) * BLOCK_LENGTH) (length p).

(** Modelled from the spec: "Total ordering: compare by index. Equality:
    equal index."  [SharedHandle] forwards both comparisons to the
    objects. *)
Definition lt (p q : t) : bool := bool_decide (index p < index q)%nat.
Definition eq (p q : t) : bool := bool_decide (index p = index q).

End Piece.

(** ** BitfieldMan *)

Module BitfieldMan.

(** Modelled from the spec: class [BitfieldMan] (BitfieldMan.h,
    BitfieldMan.cc), of which only the uses are at hand.  "Three parallel
    bitmaps over pieces: have, in-use, filter; block-length arithmetic at
    piece granularity."  [blocks] is the number of pieces [N]. *)
Record t := mk {
  blockLength : Z;
  totalLength : Z;
  blocks : nat;
  bitfield : list bool;
  useBitfield : list bool;
  filterBitfield : list bool;
  filterEnabled : bool
}.

(** Modelled from the spec: the constructor [BitfieldMan(blockLength,
    totalLength)]; [N] is the number of pieces of length [blockLength]
    that cover [totalLength], "the last piece ... may be short". *)
Definition new (blockLen totalLen : Z) : t :=
  let n := if bool_decide (0 < blockLen ∧ 0 < totalLen)
           then Z.to_nat ((totalLen + blockLen - 1) / blockLen) else 0%nat in
  mk blockLen totalLen n (replicate n false) (replicate n false)
     (replicate n false) false.

Definition set_bitfield (bf : list bool) (b : t) : t :=
  mk (blockLength b) (totalLength b) (blocks b) bf (useBitfield b)
     (filterBitfield b) (filterEnabled b).
Definition set_useBitfield (ub : list bool) (b : t) : t :=
  mk (blockLength b) (totalLength b) (blocks b) (bitfield b) ub
     (filterBitfield b) (filterEnabled b).
Definition set_filter (fb : list bool) (en : bool) (b : t) : t :=
  mk (blockLength b) (totalLength b) (blocks b) (bitfield b) (useBitfield b)
     fb en.

(** Modelled from the spec: "[setBit(i)] / [unsetBit(i)] / [isBitSet(i)] on
    each of {have, in-use}; [i < N] required". *)
Definition setBit (i : nat) (b : t) : t := set_bitfield (<[i:=true]> (bitfield b)) b.
Definition unsetBit (i : nat) (b : t) : t := set_bitfield (<[i:=false]> (bitfield b)) b.
Definition isBitSet (i : nat) (b : t) : bool := bit (bitfield b) i.
Definition setUseBit (i : nat) (b : t) : t := set_useBitfield (<[i:=true]> (useBitfield b)) b.
Definition unsetUseBit (i : nat) (b : t) : t := set_useBitfield (<[i:=false]> (useBitfield b)) b.
Definition isUseBitSet (i : nat) (b : t) : bool := bit (useBitfield b) i.

(** Modelled from the spec: "[setBitRange(lo, hi)]: inclusive range". *)
Definition setBitRange (lo hi : nat) (b : t) : t :=
  set_bitfield (foldr (λ i bf, <[i:=true]> bf) (bitfield b) (seq lo (S hi - lo))) b.

(** Modelled from the spec: "[setAllBit()] / [clearAllBit()]: set all [N]
    bits"; both act on the have bitmap. *)
Definition setAllBit (b : t) : t := set_bitfield (replicate (blocks b) true) b.
Definition clearAllBit (b : t) : t := set_bitfield (replicate (blocks b) false) b.

(** Modelled from the spec: "[setBitfield(bytes, len)]: replaces the have
    bitmap"; a bitmap of another length is not taken. *)
Definition setBitfield (bf : list bool) (b : t) : t :=
  if bool_decide (length bf = blocks b) then set_bitfield bf b else b.

Definition getBitfield (b : t) : list bool := bitfield b.
Definition countBlock (b : t) : nat := blocks b.
Definition getTotalLength (b : t) : Z := totalLength b.
Definition getBlockLength (b : t) : Z := blockLength b.
Definition isFilterEnabled (b : t) : bool := filterEnabled b.

(** [getMaxIndex()] is [blocks - 1] in [size_t]. *)
Definition getMaxIndex (b : t) : Z := Cxx.to_u64 (Z.of_nat (blocks b) - 1).

(** Modelled from the spec: the length of piece [i]; "Last piece has short
    length: [getPieceLength(N-1)] equals [totalLength - (N-1) * pieceLength]".
    The spec gives no length to an index outside [[0, N)]; it is 0 here. *)
Definition getBlockLengthAt (i : nat) (b : t) : Z :=
  if bool_decide (S i = blocks b) then totalLength b - Z.of_nat i * blockLength b
  else if bool_decide (S i < blocks b)%nat then blockLength b
  else 0.

(** Modelled from the spec: a piece is interesting when the filter is
    disabled or its filter bit is set. *)
Definition interesting (b : t) (i : nat) : bool :=
  negb (filterEnabled b) || bit (filterBitfield b) i.

Definition indexes (b : t) : list nat := seq 0 (blocks b).

(** Modelled from the spec: "[countMissingBlock()]: number of pieces with
    [have[i] == 0] (respects filter if enabled: only counts filtered
    pieces)". *)
Definition countMissingBlock (b : t) : nat :=
  length (List.filter (λ i, negb (isBitSet i b) && interesting b i) (indexes b)).

(** Modelled from the spec: "[allDownloadFinished()]: all pieces regardless
    of filter" and "[downloadFinished()]: all filtered pieces have
    [have == 1]". *)
Definition isAllBitSet (b : t) : bool :=
  forallb (λ i, isBitSet i b) (indexes b).
Definition isFilteredAllBitSet (b : t) : bool :=
  forallb (λ i, isBitSet i b || negb (interesting b i)) (indexes b).

(** Modelled from the spec: "[getAllMissingIndexes(outBitmap, peerBitmap)]:
    [outBitmap[i] = 1] iff peer has [i] AND [have[i] == 0] AND (filter
    disabled or [filter[i] == 1])".  The result is the out-bitmap together
    with the returned flag, which tells whether any bit is set. *)
Definition missingIndexes (b : t) (peer : list bool) : list bool :=
  (λ i, bit peer i && negb (isBitSet i b) && interesting b i) <$> indexes b.
Definition getAllMissingIndexes (b : t) (peer : list bool) : bool * list bool :=
  let out := missingIndexes b peer in (existsb (λ x : bool, x) out, out).

(** Modelled from the spec: "[getAllMissingUnusedIndexes(...)]: additionally
    requires [in-use[i] == 0]". *)
Definition missingUnusedIndexes (b : t) (peer : list bool) : list bool :=
  (λ i, bit peer i && negb (isBitSet i b) && interesting b i
        && negb (isUseBitSet i b)) <$> indexes b.
Definition getAllMissingUnusedIndexes (b : t) (peer : list bool) : bool * list bool :=
  let out := missingUnusedIndexes b peer in (existsb (λ x : bool, x) out, out).

(** Modelled from the spec: "[hasMissingPiece(peerBitmap)]: exists [i] with
    [peerBitmap[i]] and not [have[i]] and (filter disabled or
    [filter[i]])". *)
Definition hasMissingPiece (b : t) (peer : list bool) : bool :=
  existsb (λ x : bool, x) (missingIndexes b peer).

(** Modelled from the spec: "[getFirstMissingUnusedIndex(out)]: returns
    smallest [i] with [have[i] == 0] and [in-use[i] == 0] and (filter
    disabled or [filter[i] == 1])". *)
Definition getFirstMissingUnusedIndex (b : t) : option nat :=
  List.find (λ i, negb (isBitSet i b) && negb (isUseBitSet i b) && interesting b i)
            (indexes b).

(** Completed and total lengths.  Modelled from the spec: a have piece
    counts with its length (scenario 2: have pieces 0 and 2 of length 4
    give 8); the filtered variants count interesting pieces only. *)
Definition sumLengths (b : t) (sel : nat → bool) : Z :=
  sumZ ((λ i, if sel i then getBlockLengthAt i b else 0) <$> indexes b).
Definition getCompletedLength (b : t) : Z :=
  sumLengths b (λ i, isBitSet i b).
Definition getFilteredCompletedLength (b : t) : Z :=
  sumLengths b (λ i, isBitSet i b && interesting b i).
Definition getFilteredTotalLength (b : t) : Z :=
  sumLengths b (interesting b).

(** Modelled from the spec: "[getSparseMissingUnusedIndex(out,
    ignoreBitmap)]: picks a missing, unused, filtered, non-ignored piece
    ...: partition [[0, N)] into maximal runs of candidates and pick the
    midpoint of the longest run. Tie-break: lowest index." *)
Definition sparseCandidates (b : t) (ignore : list bool) : list bool :=
  (λ i, negb (isBitSet i b) && negb (isUseBitSet i b) && interesting b i
        && negb (bit ignore i)) <$> indexes b.

Fixpoint runLength (cand : list bool) : nat :=
  match cand with
  | true :: rest => S (runLength rest)
  | _ => 0%nat
  end.

Definition runStarts (cand : list bool) : list nat :=
  List.filter (λ i, bit cand i && match i with O => true | S j => negb (bit cand j) end)
              (seq 0 (length cand)).

Definition longestRun (cand : list bool) : option (nat * nat) :=
  foldl (λ best i,
           let len := runLength (drop i cand) in
           match best with
           | Some (_, blen) => if bool_decide (blen < len)%nat then Some (i, len) else best
           | None => Some (i, len)
           end)
        None (runStarts cand).

Definition getSparseMissingUnusedIndex (b : t) (ignore : list bool) : option nat :=
  match longestRun (sparseCandidates b ignore) with
  | Some (start, len) => Some (start + len / 2)%nat
  | None => None
  end.

(** Modelled from the spec: "[addFilter(offset, length)] / [enableFilter()]
    / [clearFilter()]: bytes [[offset, offset+length)] mark pieces as
    interesting.  A piece [i] is interesting iff its byte range
    [[i*L, (i+1)*L)] (clamped at total length) intersects the union of
    added ranges." *)
Definition overlaps (b : t) (offset len : Z) (i : nat) : bool :=
  bool_decide (Z.max offset (Z.of_nat i * blockLength b)
               < Z.min (offset + len)
                       (Z.min ((Z.of_nat i + 1) * blockLength b) (totalLength b))).
Definition addFilter (offset len : Z) (b : t) : t :=
  set_filter ((λ i, bit (filterBitfield b) i || overlaps b offset len i) <$> indexes b)
             (filterEnabled b) b.
Definition enableFilter (b : t) : t := set_filter (filterBitfield b) true b.
Definition clearFilter (b : t) : t := set_filter (replicate (blocks b) false) false b.

End BitfieldMan.

(** ** PieceStatMan *)

Module PieceStatMan.

(** Modelled from the spec: class [PieceStatMan], of which only the uses are
    at hand: "vector [counts]"; "[addPieceStats(peerBitmap)]: [counts[i] +=
    peerBitmap[i]]", "[subtractPieceStats(peerBitmap)]: [counts[i] -=
    peerBitmap[i]]", "[updatePieceStats(newBm, oldBm)]: [counts[i] +=
    newBm[i] - oldBm[i]]", "[addPieceStats(index)]: [counts[index] += 1]". *)
Definition t := list nat.

Definition new (n : nat) : t := replicate n 0%nat.

Definition b2n (b : bool) : nat := if b then 1%nat else 0%nat.

Definition addPieceStats (bf : list bool) (c : t) : t :=
  imap (λ i n, n + b2n (bit bf i))%nat c.
Definition subtractPieceStats (bf : list bool) (c : t) : t :=
  imap (λ i n, n - b2n (bit bf i))%nat c.
Definition updatePieceStats (newBf oldBf : list bool) (c : t) : t :=
  imap (λ i n, n + b2n (bit newBf i) - b2n (bit oldBf i))%nat c.
Definition addPieceStatsAt (idx : nat) (c : t) : t := alter S idx c.

Definition count (c : t) (i : nat) : nat := default 0%nat (c !! i).

End PieceStatMan.

(** ** PieceSelector *)

(** Modelled from the spec: the interface [PieceSelector], of which
    [RarestPieceSelector] is the implementation the constructor installs;
    neither is at hand.  "[select(out, candidateBitmap, N)]: given
    [candidateBitmap] over [[0, N)], returns the candidate with lowest
    [counts[i]].  Tie-break: choose uniformly at random among the minima.
    Returns false iff the bitmap is empty."  The random source is the first
    argument: a caller of the storage supplies the number drawn. *)
Class PieceSelector := {
  select : nat → PieceStatMan.t → list bool → nat → option nat;
  select_candidate rnd counts cand n i :
    select rnd counts cand n = Some i → (i < n)%nat ∧ bit cand i = true;
  select_rarest rnd counts cand n i j :
    select rnd counts cand n = Some i → (j < n)%nat → bit cand j = true →
    (PieceStatMan.count counts i ≤ PieceStatMan.count counts j)%nat;
  select_exhausted rnd counts cand n i :
    select rnd counts cand n = None → (i < n)%nat → bit cand i = false
}.

(** ** Collaborators of the storage *)

(** A [SharedHandle<Piece>] is the address of a [Piece] in the object store,
    or null. *)
Definition handle := nat.
Bind Scope nat_scope with handle.
Definition SharedHandle := option handle.

Record HaveEntry := mkHaveEntry {
  getCuid : Z;
  getIndex : nat;
  getRegisteredTime : Z
}.

Record Peer := mkPeer {
  getBitfield : list bool;
  isFastExtensionEnabled : bool;
  getPeerAllowedIndexSet : list nat
}.

Definition hasPiece_peer (peer : Peer) (i : nat) : bool := bit (getBitfield peer) i.
Definition countPeerAllowedIndexSet (peer : Peer) : nat :=
  length (getPeerAllowedIndexSet peer).

Record FileEntry := mkFileEntry {
  isRequested : bool;
  getOffset : Z;
  getLength : Z
}.

(** What the storage reads from and writes to its [DownloadContext]:
    the geometry, the file entries, and the number of times
    [resetDownloadStopTime()] was called on it. *)
Record DownloadContext := mkDownloadContext {
  getPieceLength : Z;
  getTotalLength_ctx : Z;
  getFileEntries : list FileEntry;
  stopTimeResets : nat
}.

Definition resetDownloadStopTime (c : DownloadContext) : DownloadContext :=
  mkDownloadContext (getPieceLength c) (getTotalLength_ctx c) (getFileEntries c)
                    (S (stopTimeResets c)).

(** Modelled from the spec: [END_GAME_PIECE_NUM] is declared in
    DefaultPieceStorage.h, which is not at hand: "threshold is a configured
    constant, default 20". *)
Definition END_GAME_PIECE_NUM : nat := 20.

(** ** The storage *)

(** The members of [DefaultPieceStorage] that the piece state depends on,
    with the two pieces of ambient state its methods touch: the store of
    [Piece] objects that handles point into, and [global::wallclock]. *)
Record DefaultPieceStorage := mkStorage {
  _downloadContext : DownloadContext;
  _bitfieldMan : BitfieldMan.t;
  _usedPieces : list handle;
  _haves : list HaveEntry;
  _pieceStatMan : PieceStatMan.t;
  _endGamePieceNum : nat;
  store : list Piece.t;
  wallclock : Z
}.

Definition with_downloadContext (f : DownloadContext → DownloadContext)
    (s : DefaultPieceStorage) : DefaultPieceStorage :=
  mkStorage (f (_downloadContext s)) (_bitfieldMan s) (_usedPieces s) (_haves s)
            (_pieceStatMan s) (_endGamePieceNum s) (store s) (wallclock s).
Definition with_bitfieldMan (f : BitfieldMan.t → BitfieldMan.t)
    (s : DefaultPieceStorage) : DefaultPieceStorage :=
  mkStorage (_downloadContext s) (f (_bitfieldMan s)) (_usedPieces s) (_haves s)
            (_pieceStatMan s) (_endGamePieceNum s) (store s) (wallclock s).
Definition with_usedPieces (f : list handle → list handle)
    (s : DefaultPieceStorage) : DefaultPieceStorage :=
  mkStorage (_downloadContext s) (_bitfieldMan s) (f (_usedPieces s)) (_haves s)
            (_pieceStatMan s) (_endGamePieceNum s) (store s) (wallclock s).
Definition with_haves (f : list HaveEntry → list HaveEntry)
    (s : DefaultPieceStorage) : DefaultPieceStorage :=
  mkStorage (_downloadContext s) (_bitfieldMan s) (_usedPieces s) (f (_haves s))
            (_pieceStatMan s) (_endGamePieceNum s) (store s) (wallclock s).
Definition with_pieceStatMan (f : PieceStatMan.t → PieceStatMan.t)
    (s : DefaultPieceStorage) : DefaultPieceStorage :=
  mkStorage (_downloadContext s) (_bitfieldMan s) (_usedPieces s) (_haves s)
            (f (_pieceStatMan s)) (_endGamePieceNum s) (store s) (wallclock s).
Definition with_store (f : list Piece.t → list Piece.t)
    (s : DefaultPieceStorage) : DefaultPieceStorage :=
  mkStorage (_downloadContext s) (_bitfieldMan s) (_usedPieces s) (_haves s)
            (_pieceStatMan s) (_endGamePieceNum s) (f (store s)) (wallclock s).
Definition with_wallclock (t : Z)
    (s : DefaultPieceStorage) : DefaultPieceStorage :=
  mkStorage (_downloadContext s) (_bitfieldMan s) (_usedPieces s) (_haves s)
            (_pieceStatMan s) (_endGamePieceNum s) (store s) t.

(** The constructor. *)
Definition new (downloadContext : DownloadContext) : DefaultPieceStorage :=
  let bm := BitfieldMan.new (getPieceLength downloadContext)
                            (getTotalLength_ctx downloadContext) in
  mkStorage downloadContext bm [] []
            (PieceStatMan.new (BitfieldMan.countBlock bm))
            END_GAME_PIECE_NUM [] 0.

(** *** The object store *)

(** Dereferencing a handle.  Handles are reference counted, so a handle in
    use always points to an object; the default is never read in a
    well-formed storage. *)
Definition deref (st : list Piece.t) (h : handle) : Piece.t :=
  default (Piece.mk 0 0 []) (st !! h).

(** [new Piece(...)]: the object gets the next free address. *)
Definition alloc (p : Piece.t) (s : DefaultPieceStorage)
    : handle * DefaultPieceStorage :=
  (length (store s), with_store (λ st, st ++ [p]) s).

(** *** [std::lower_bound]

    The binary search of the standard library over positions
    [[first, first + count)] of [l]; [less x] is [x < value].  [count]
    at least halves in every round, so [length l] rounds are enough. *)
Fixpoint lower_bound_loop {A} (less : A → bool) (l : list A)
    (rounds first count : nat) : nat :=
  match rounds with
  | O => first
  | S rounds' =>
      if bool_decide (count = 0)%nat then first
      else
        let step := (count / 2)%nat in
        let it := (first + step)%nat in
        match l !! it with
        | Some x =>
            if less x
            then lower_bound_loop less l rounds' (S it) (count - (step + 1))%nat
            else lower_bound_loop less l rounds' first step
        | None => first
        end
  end.

Definition lower_bound {A} (less : A → bool) (l : list A) : nat :=
  lower_bound_loop less l (length l) 0 (length l).

(** [operator<] and [operator==] of [SharedHandle<Piece>] compare the
    objects pointed to. *)
Definition handle_lt (st : list Piece.t) (h : handle) (p : Piece.t) : bool :=
  Piece.lt (deref st h) p.
Definition handle_eq (st : list Piece.t) (h : handle) (p : Piece.t) : bool :=
  Piece.eq (deref st h) p.

(** The order of a sorted range of handles: by the index of the objects
    pointed to. *)
Definition handle_le (st : list Piece.t) (h1 h2 : handle) : Prop :=
  (Piece.index (deref st h1) ≤ Piece.index (deref st h2))%nat.

(** [std::sort] with [operator<].  The standard leaves the order of equal
    elements open.  The model is the insertion sort that the library runs
    on a short range: every element in turn moves left past the elements
    that are greater than it, and stops behind the first one that is not,
    so pieces of equal index keep the order they came in. *)
Fixpoint linear_insert (st : list Piece.t) (h : handle) (sorted : list handle)
    : list handle :=
  match sorted with
  | [] => [h]
  | x :: rest =>
      if handle_lt st h (deref st x) then h :: x :: rest
      else x :: linear_insert st h rest
  end.
Definition sort (st : list Piece.t) (l : list handle) : list handle :=
  foldl (λ sorted h, linear_insert st h sorted) [] l.

(** ** Methods of [DefaultPieceStorage] *)

Definition isEndGame (s : DefaultPieceStorage) : bool :=
  bool_decide (BitfieldMan.countMissingBlock (_bitfieldMan s) ≤ _endGamePieceNum s)%nat.

Definition hasPiece (index : nat) (s : DefaultPieceStorage) : bool :=
  BitfieldMan.isBitSet index (_bitfieldMan s).

Definition isPieceUsed (index : nat) (s : DefaultPieceStorage) : bool :=
  BitfieldMan.isUseBitSet index (_bitfieldMan s).

Definition addPieceStatsAt (index : nat) (s : DefaultPieceStorage) : DefaultPieceStorage :=
  with_pieceStatMan (PieceStatMan.addPieceStatsAt index) s.
Definition addPieceStats (bf : list bool) (s : DefaultPieceStorage) : DefaultPieceStorage :=
  with_pieceStatMan (PieceStatMan.addPieceStats bf) s.
Definition subtractPieceStats (bf : list bool) (s : DefaultPieceStorage) : DefaultPieceStorage :=
  with_pieceStatMan (PieceStatMan.subtractPieceStats bf) s.
Definition updatePieceStats (newBf oldBf : list bool) (s : DefaultPieceStorage)
    : DefaultPieceStorage :=
  with_pieceStatMan (PieceStatMan.updatePieceStats newBf oldBf) s.

(** [addUsedPiece]: insert before the lower bound. *)
Definition addUsedPiece (piece : handle) (s : DefaultPieceStorage) : DefaultPieceStorage :=
  let i := lower_bound (λ h, handle_lt (store s) h (deref (store s) piece))
                       (_usedPieces s) in
  with_usedPieces (λ l, take i l ++ piece :: drop i l) s.

(** [findUsedPiece]: the probe [p] is a temporary [Piece] that carries the
    index only; it dies with the call and never enters the store. *)
Definition findUsedPiece (index : nat) (s : DefaultPieceStorage) : SharedHandle :=
  let p := Piece.mk index 0 [] in
  let i := lower_bound (λ h, handle_lt (store s) h p) (_usedPieces s) in
  match _usedPieces s !! i with
  | Some h => if handle_eq (store s) h p then Some h else None
  | None => None
  end.

Definition deleteUsedPiece (piece : SharedHandle) (s : DefaultPieceStorage)
    : DefaultPieceStorage :=
  match piece with
  | None => s
  | Some ph =>
      let p := deref (store s) ph in
      let i := lower_bound (λ h, handle_lt (store s) h p) (_usedPieces s) in
      match _usedPieces s !! i with
      | Some h => if handle_eq (store s) h p
                  then with_usedPieces (delete i) s else s
      | None => s
      end
  end.

Definition checkOutPiece (index : nat) (s : DefaultPieceStorage)
    : SharedHandle * DefaultPieceStorage :=
  let s1 := with_bitfieldMan (BitfieldMan.setUseBit index) s in
  match findUsedPiece index s1 with
  | None =>
      let '(piece, s2) :=
        alloc (Piece.new index (BitfieldMan.getBlockLengthAt index (_bitfieldMan s1))) s1 in
      (Some piece, addUsedPiece piece s2)
  | Some piece => (Some piece, s1)
  end.

(** [getPiece]: "Newly instantiated piece is not added to usedPieces." *)
Definition getPiece (index : nat) (s : DefaultPieceStorage)
    : SharedHandle * DefaultPieceStorage :=
  if bool_decide (0 ≤ Z.of_nat index ∧ Z.of_nat index ≤ BitfieldMan.getMaxIndex (_bitfieldMan s))
  then
    match findUsedPiece index s with
    | Some piece => (Some piece, s)
    | None =>
        let p := Piece.new index (BitfieldMan.getBlockLengthAt index (_bitfieldMan s)) in
        let '(piece, s1) := alloc (if hasPiece index s then Piece.setAllBlock p else p) s in
        (Some piece, s1)
    end
  else (None, s).

Definition hasMissingUnusedPiece (s : DefaultPieceStorage) : bool :=
  bool_decide (is_Some (BitfieldMan.getFirstMissingUnusedIndex (_bitfieldMan s))).

Definition getSparseMissingUnusedPiece (ignoreBitfield : list bool)
    (s : DefaultPieceStorage) : SharedHandle * DefaultPieceStorage :=
  match BitfieldMan.getSparseMissingUnusedIndex (_bitfieldMan s) ignoreBitfield with
  | Some index => checkOutPiece index s
  | None => (None, s)
  end.

(** [getMissingPiece(size_t index)]. *)
Definition getMissingPiece_index (index : nat) (s : DefaultPieceStorage)
    : SharedHandle * DefaultPieceStorage :=
  if hasPiece index s || isPieceUsed index s then (None, s)
  else checkOutPiece index s.

Definition isSelectiveDownloadingMode (s : DefaultPieceStorage) : bool :=
  BitfieldMan.isFilterEnabled (_bitfieldMan s).

Definition downloadFinished (s : DefaultPieceStorage) : bool :=
  BitfieldMan.isFilteredAllBitSet (_bitfieldMan s).

Definition allDownloadFinished (s : DefaultPieceStorage) : bool :=
  BitfieldMan.isAllBitSet (_bitfieldMan s).

Definition completePiece (piece : SharedHandle) (s : DefaultPieceStorage)
    : DefaultPieceStorage :=
  match piece with
  | None => s
  | Some ph =>
      let s1 := deleteUsedPiece piece s in
      if allDownloadFinished s1 then s1
      else
        let index := Piece.getIndex (deref (store s1) ph) in
        let s2 := with_bitfieldMan (BitfieldMan.setBit index) s1 in
        let s3 := with_bitfieldMan (BitfieldMan.unsetUseBit index) s2 in
        let s4 := addPieceStatsAt index s3 in
        if downloadFinished s4
        then with_downloadContext resetDownloadStopTime s4
        else s4
  end.

Definition cancelPiece (piece : SharedHandle) (s : DefaultPieceStorage)
    : DefaultPieceStorage :=
  match piece with
  | None => s
  | Some ph =>
      let p := deref (store s) ph in
      let s1 := with_bitfieldMan (BitfieldMan.unsetUseBit (Piece.getIndex p)) s in
      if negb (isEndGame s1)
      then if bool_decide (Piece.getCompletedLength p = 0)
           then deleteUsedPiece piece s1 else s1
      else s1
  end.

Definition getTotalLength (s : DefaultPieceStorage) : Z :=
  BitfieldMan.getTotalLength (_bitfieldMan s).

Definition getFilteredTotalLength (s : DefaultPieceStorage) : Z :=
  BitfieldMan.getFilteredTotalLength (_bitfieldMan s).

(** [std::accumulate] is called with the initial value [0], an [int]: the
    running sum is an [int], and each round converts it to [size_t] for
    [std::plus<size_t>] and the result back to [int].  The function returns
    the final [int] as [size_t]. *)
Definition getInFlightPieceCompletedLength (s : DefaultPieceStorage) : Z :=
  Cxx.to_u64
    (foldl (λ acc h,
              Cxx.to_int (Cxx.to_u64 (Cxx.to_u64 acc
                                      + Piece.getCompletedLength (deref (store s) h))))
           0 (_usedPieces s)).

Definition getCompletedLength (s : DefaultPieceStorage) : Z :=
  let completedLength :=
    Cxx.to_u64 (BitfieldMan.getCompletedLength (_bitfieldMan s)
                + getInFlightPieceCompletedLength s) in
  let totalLength := getTotalLength s in
  if bool_decide (completedLength > totalLength) then totalLength
  else completedLength.

Definition getFilteredCompletedLength (s : DefaultPieceStorage) : Z :=
  Cxx.to_u64 (BitfieldMan.getFilteredCompletedLength (_bitfieldMan s)
              + getInFlightPieceCompletedLength s).

Definition setupFileFilter (s : DefaultPieceStorage) : DefaultPieceStorage :=
  let fileEntries := getFileEntries (_downloadContext s) in
  if forallb isRequested fileEntries then s
  else
    let s1 :=
      foldl (λ st e,
               if isRequested e
               then with_bitfieldMan (BitfieldMan.addFilter (getOffset e) (getLength e)) st
               else st)
            s fileEntries in
    with_bitfieldMan BitfieldMan.enableFilter s1.

Definition clearFileFilter (s : DefaultPieceStorage) : DefaultPieceStorage :=
  with_bitfieldMan BitfieldMan.clearFilter s.

Definition setBitfield (bf : list bool) (s : DefaultPieceStorage) : DefaultPieceStorage :=
  addPieceStats bf (with_bitfieldMan (BitfieldMan.setBitfield bf) s).

Definition getPieceLength_at (index : nat) (s : DefaultPieceStorage) : Z :=
  BitfieldMan.getBlockLengthAt index (_bitfieldMan s).

Definition advertisePiece (cuid : Z) (index : nat) (s : DefaultPieceStorage)
    : DefaultPieceStorage :=
  with_haves (λ l, mkHaveEntry cuid index (wallclock s) :: l) s.

(** The loop of [getAdvertisedPieceIndexes] over the entries from the
    front: [continue] on an entry of the caller, [break] on the first other
    entry registered before [lastCheckTime]. *)
Fixpoint collectHaves (haves : list HaveEntry) (myCuid lastCheckTime : Z)
    (indexes : list nat) : list nat :=
  match haves with
  | [] => indexes
  | have :: rest =>
      if bool_decide (getCuid have = myCuid)
      then collectHaves rest myCuid lastCheckTime indexes
      else if bool_decide (lastCheckTime > getRegisteredTime have)
           then indexes
           else collectHaves rest myCuid lastCheckTime (indexes ++ [getIndex have])
  end.

Definition getAdvertisedPieceIndexes (indexes : list nat) (myCuid lastCheckTime : Z)
    (s : DefaultPieceStorage) : list nat :=
  collectHaves (_haves s) myCuid lastCheckTime indexes.

(** [FindElapsedHave]; [Timer::difference(now)] "yields elapsed seconds". *)
Definition findElapsedHave (now elapsed : Z) (have : HaveEntry) : bool :=
  bool_decide (now - getRegisteredTime have >= elapsed).

Fixpoint eraseFromFirst {A} (f : A → bool) (l : list A) : list A :=
  match l with
  | [] => []
  | x :: rest => if f x then [] else x :: eraseFromFirst f rest
  end.

Definition removeAdvertisedPiece (elapsed : Z) (s : DefaultPieceStorage)
    : DefaultPieceStorage :=
  with_haves (eraseFromFirst (findElapsedHave (wallclock s) elapsed)) s.

Definition markAllPiecesDone (s : DefaultPieceStorage) : DefaultPieceStorage :=
  with_bitfieldMan BitfieldMan.setAllBit s.

(** The last branch of [markPiecesDone]: the pieces that [len] covers in
    full are marked held, and the blocks it covers of the next piece are
    completed in a new in-flight piece. *)
Definition markPrefixDone (len : Z) (s : DefaultPieceStorage) : DefaultPieceStorage :=
  let bm := _bitfieldMan s in
  let numPiece := Z.to_nat (len / BitfieldMan.getBlockLength bm) in
  let s1 := if bool_decide (0 < numPiece)%nat
            then with_bitfieldMan (BitfieldMan.setBitRange 0 (numPiece - 1)) s
            else s in
  let r := Z.to_nat ((len mod BitfieldMan.getBlockLength bm) / Piece.BLOCK_LENGTH) in
  if bool_decide (0 < r)%nat
  then
    let p := Piece.new numPiece (BitfieldMan.getBlockLengthAt numPiece bm) in
    let p' := foldl (λ q i, Piece.completeBlock i q) p (seq 0 r) in
    let '(h, s2) := alloc p' s1 in
    addUsedPiece h s2
  else s1.

Definition markPiecesDone (len : Z) (s : DefaultPieceStorage) : DefaultPieceStorage :=
  if bool_decide (len = BitfieldMan.getTotalLength (_bitfieldMan s))
  then with_bitfieldMan BitfieldMan.setAllBit s
  else if bool_decide (len = 0)
  then with_usedPieces (λ _, []) (with_bitfieldMan BitfieldMan.clearAllBit s)
  else markPrefixDone len s.

Definition markPieceMissing (index : nat) (s : DefaultPieceStorage) : DefaultPieceStorage :=
  with_bitfieldMan (BitfieldMan.unsetBit index) s.

Definition addInFlightPiece (pieces : list handle) (s : DefaultPieceStorage)
    : DefaultPieceStorage :=
  with_usedPieces (λ l, sort (store s) (l ++ pieces)) s.

Definition countInFlightPiece (s : DefaultPieceStorage) : nat :=
  length (_usedPieces s).

Definition getInFlightPieces (pieces : list handle) (s : DefaultPieceStorage)
    : list handle :=
  pieces ++ _usedPieces s.

(** *** Selection *)

Section Selection.
Context `{PieceSelector}.

Definition getMissingPieceIndex (rnd : nat) (bf : list bool) (s : DefaultPieceStorage)
    : option nat :=
  let '(r, misbitfield) :=
    if isEndGame s
    then BitfieldMan.getAllMissingIndexes (_bitfieldMan s) bf
    else BitfieldMan.getAllMissingUnusedIndexes (_bitfieldMan s) bf in
  if r
  then select rnd (_pieceStatMan s) misbitfield (BitfieldMan.countBlock (_bitfieldMan s))
  else None.

(** [getMissingPiece(const unsigned char* bitfield, size_t length)]. *)
Definition getMissingPiece (rnd : nat) (bf : list bool) (s : DefaultPieceStorage)
    : SharedHandle * DefaultPieceStorage :=
  match getMissingPieceIndex rnd bf s with
  | Some index => checkOutPiece index s
  | None => (None, s)
  end.

(** [getMissingPiece(const BitfieldMan& bitfield)]. *)
Definition getMissingPiece_bitfieldMan (rnd : nat) (bitfield : BitfieldMan.t)
    (s : DefaultPieceStorage) : SharedHandle * DefaultPieceStorage :=
  getMissingPiece rnd (BitfieldMan.getBitfield bitfield) s.

Definition hasMissingPiece (peer : Peer) (s : DefaultPieceStorage) : bool :=
  BitfieldMan.hasMissingPiece (_bitfieldMan s) (getBitfield peer).

(** [getMissingPiece(const SharedHandle<Peer>& peer)]. *)
Definition getMissingPiece_peer (rnd : nat) (peer : Peer) (s : DefaultPieceStorage)
    : SharedHandle * DefaultPieceStorage :=
  getMissingPiece rnd (getBitfield peer) s.

Definition createFastIndexBitfield (bitfield : BitfieldMan.t) (peer : Peer)
    (s : DefaultPieceStorage) : BitfieldMan.t :=
  foldl (λ bf itr,
           if negb (BitfieldMan.isBitSet itr (_bitfieldMan s)) && hasPiece_peer peer itr
           then BitfieldMan.setBit itr bf else bf)
        bitfield (getPeerAllowedIndexSet peer).

Definition tempBitfield (s : DefaultPieceStorage) : BitfieldMan.t :=
  BitfieldMan.new (BitfieldMan.getBlockLength (_bitfieldMan s))
                  (BitfieldMan.getTotalLength (_bitfieldMan s)).

Definition getMissingFastPiece (rnd : nat) (peer : Peer) (s : DefaultPieceStorage)
    : SharedHandle * DefaultPieceStorage :=
  if isFastExtensionEnabled peer && bool_decide (0 < countPeerAllowedIndexSet peer)%nat
  then getMissingPiece_bitfieldMan rnd (createFastIndexBitfield (tempBitfield s) peer s) s
  else (None, s).

Definition unsetExcludedIndexes (bitfield : BitfieldMan.t) (excludedIndexes : list nat)
    : BitfieldMan.t :=
  foldl (λ bf i, BitfieldMan.unsetBit i bf) bitfield excludedIndexes.

(** [getMissingPiece(peer, excludedIndexes)]. *)
Definition getMissingPiece_excluded (rnd : nat) (peer : Peer) (excludedIndexes : list nat)
    (s : DefaultPieceStorage) : SharedHandle * DefaultPieceStorage :=
  let temp := BitfieldMan.setBitfield (getBitfield peer) (tempBitfield s) in
  getMissingPiece_bitfieldMan rnd (unsetExcludedIndexes temp excludedIndexes) s.

(** [getMissingFastPiece(peer, excludedIndexes)]. *)
Definition getMissingFastPiece_excluded (rnd : nat) (peer : Peer)
    (excludedIndexes : list nat) (s : DefaultPieceStorage)
    : SharedHandle * DefaultPieceStorage :=
  if isFastExtensionEnabled peer && bool_decide (0 < countPeerAllowedIndexSet peer)%nat
  then
    let temp := createFastIndexBitfield (tempBitfield s) peer s in
    getMissingPiece_bitfieldMan rnd (unsetExcludedIndexes temp excludedIndexes) s
  else (None, s).

(** ** Calls

    The public calls of the storage, and the three things its environment
    does between them: a caller creates a [Piece] of its own (to hand it to
    [addInFlightPiece]), a worker completes a block of a piece it holds, and
    the wall clock moves.  [initStorage], the disk adaptor and the disk
    writer factory do not touch the piece state and are left out. *)
Inductive call :=
| HasMissingPiece (peer : Peer)
| GetMissingPiece (rnd : nat) (peer : Peer)
| GetMissingPieceExcluded (rnd : nat) (peer : Peer) (excludedIndexes : list nat)
| GetMissingFastPiece (rnd : nat) (peer : Peer)
| GetMissingFastPieceExcluded (rnd : nat) (peer : Peer) (excludedIndexes : list nat)
| HasMissingUnusedPiece
| GetSparseMissingUnusedPiece (ignoreBitfield : list bool)
| GetMissingPieceIndex (index : nat)
| CheckOutPiece (index : nat)
| GetPiece (index : nat)
| DeleteUsedPiece (piece : SharedHandle)
| CompletePiece (piece : SharedHandle)
| CancelPiece (piece : SharedHandle)
| SetupFileFilter
| ClearFileFilter
| SetBitfield (bf : list bool)
| AdvertisePiece (cuid : Z) (index : nat)
| RemoveAdvertisedPiece (elapsed : Z)
| MarkAllPiecesDone
| MarkPiecesDone (len : Z)
| MarkPieceMissing (index : nat)
| AddInFlightPiece (pieces : list handle)
| AddPieceStats (bf : list bool)
| SubtractPieceStats (bf : list bool)
| UpdatePieceStats (newBf oldBf : list bool)
| NewPiece (index : nat) (len : Z)
| CompleteBlock (piece : handle) (block : nat)
| Tick (now : Z).

Definition exec (c : call) (s : DefaultPieceStorage) : DefaultPieceStorage :=
  match c with
  | HasMissingPiece _ | HasMissingUnusedPiece => s
  | GetMissingPiece rnd peer => (getMissingPiece_peer rnd peer s).2
  | GetMissingPieceExcluded rnd peer ex => (getMissingPiece_excluded rnd peer ex s).2
  | GetMissingFastPiece rnd peer => (getMissingFastPiece rnd peer s).2
  | GetMissingFastPieceExcluded rnd peer ex =>
      (getMissingFastPiece_excluded rnd peer ex s).2
  | GetSparseMissingUnusedPiece ig => (getSparseMissingUnusedPiece ig s).2
  | GetMissingPieceIndex index => (getMissingPiece_index index s).2
  | CheckOutPiece index => (checkOutPiece index s).2
  | GetPiece index => (getPiece index s).2
  | DeleteUsedPiece piece => deleteUsedPiece piece s
  | CompletePiece piece => completePiece piece s
  | CancelPiece piece => cancelPiece piece s
  | SetupFileFilter => setupFileFilter s
  | ClearFileFilter => clearFileFilter s
  | SetBitfield bf => setBitfield bf s
  | AdvertisePiece cuid index => advertisePiece cuid index s
  | RemoveAdvertisedPiece elapsed => removeAdvertisedPiece elapsed s
  | MarkAllPiecesDone => markAllPiecesDone s
  | MarkPiecesDone len => markPiecesDone len s
  | MarkPieceMissing index => markPieceMissing index s
  | AddInFlightPiece pieces => addInFlightPiece pieces s
  | AddPieceStats bf => addPieceStats bf s
  | SubtractPieceStats bf => subtractPieceStats bf s
  | UpdatePieceStats n o => updatePieceStats n o s
  | NewPiece index len => (alloc (Piece.new index len) s).2
  | CompleteBlock piece block => with_store (alter (Piece.completeBlock block) piece) s
  | Tick now => with_wallclock now s
  end.

Definition run (cs : list call) (s : DefaultPieceStorage) : DefaultPieceStorage :=
  foldl (λ st c, exec c st) s cs.

End Selection.

(** ** Well-formed storages, guards and invariants *)

(** The piece indexes of the in-flight pieces, in container order. *)
Definition key (st : list Piece.t) (h : handle) : nat := Piece.index (deref st h).
Definition keys (s : DefaultPieceStorage) : list nat :=
  key (store s) <$> _usedPieces s.

(** The geometry of the bitmaps: what the constructor of [BitfieldMan]
    establishes. *)
Record wf_bitfieldMan (b : BitfieldMan.t) : Prop := mkWfBitfieldMan {
  wf_blockLength : 0 < BitfieldMan.blockLength b;
  wf_totalLength : 0 ≤ BitfieldMan.totalLength b;
  wf_blocks :
    BitfieldMan.blocks b
    = Z.to_nat ((BitfieldMan.totalLength b + BitfieldMan.blockLength b - 1)
                / BitfieldMan.blockLength b);
  wf_bitfield : length (BitfieldMan.bitfield b) = BitfieldMan.blocks b;
  wf_useBitfield : length (BitfieldMan.useBitfield b) = BitfieldMan.blocks b
}.

(** What the constructor establishes and every call with in-range
    arguments keeps: the geometry of the bitmaps, handles that point into
    the store, and an in-flight container ordered by piece index. *)
Record wf (s : DefaultPieceStorage) : Prop := mkWf {
  wf_bm : wf_bitfieldMan (_bitfieldMan s);
  wf_handles : Forall (λ h, h < length (store s))%nat (_usedPieces s);
  wf_sorted : StronglySorted le (keys s);
  wf_range : Forall (λ k, k < BitfieldMan.blocks (_bitfieldMan s))%nat (keys s);
  wf_lengths : Forall (λ p, 0 ≤ Piece.length p) (store s);
  wf_counts : length (_pieceStatMan s) = BitfieldMan.blocks (_bitfieldMan s)
}.

(** The precondition of [std::lower_bound]: the elements for which [less]
    holds come first. *)
Definition partitioned {A} (less : A → bool) (l : list A) : Prop :=
  ∀ i j x y, (i ≤ j)%nat → l !! i = Some x → l !! j = Some y →
             less y = true → less x = true.

Definition handle_ok (s : DefaultPieceStorage) (h : handle) : bool :=
  bool_decide (h < length (store s))%nat
  && bool_decide (key (store s) h < BitfieldMan.blocks (_bitfieldMan s))%nat.

Definition piece_ok (s : DefaultPieceStorage) (piece : SharedHandle) : bool :=
  match piece with Some h => handle_ok s h | None => true end.

Definition index_ok (s : DefaultPieceStorage) (index : nat) : bool :=
  bool_decide (index < BitfieldMan.blocks (_bitfieldMan s))%nat.

(** In-range arguments. *)
Definition call_ok (s : DefaultPieceStorage) (c : call) : bool :=
  match c with
  | GetMissingPieceExcluded _ _ ex | GetMissingFastPieceExcluded _ _ ex =>
      forallb (index_ok s) ex
  | GetMissingPieceIndex index | CheckOutPiece index | MarkPieceMissing index
  | AdvertisePiece _ index => index_ok s index
  | DeleteUsedPiece piece | CompletePiece piece | CancelPiece piece => piece_ok s piece
  | SetBitfield bf => bool_decide (length bf = BitfieldMan.blocks (_bitfieldMan s))
  | MarkPiecesDone len =>
      bool_decide (0 ≤ len ≤ BitfieldMan.totalLength (_bitfieldMan s))
  | AddInFlightPiece pieces => forallb (handle_ok s) pieces
  | NewPiece _ len => bool_decide (0 ≤ len)
  | CompleteBlock piece block =>
      bool_decide (piece < length (store s))%nat
      && bool_decide (block < Piece.countBlock (deref (store s) piece))%nat
  | _ => true
  end.

Definition noneUsed (s : DefaultPieceStorage) : bool :=
  forallb negb (BitfieldMan.useBitfield (_bitfieldMan s)).

(** The pieces whose have bit [markPiecesDone(len)] sets: all of them for
    the total length, and otherwise the pieces that [len] covers in full,
    none for [len = 0]. *)
Definition donePieces (len : Z) (s : DefaultPieceStorage) : list nat :=
  if bool_decide (len = BitfieldMan.getTotalLength (_bitfieldMan s))
  then BitfieldMan.indexes (_bitfieldMan s)
  else seq 0 (Z.to_nat (len / BitfieldMan.getBlockLength (_bitfieldMan s))).

(** The calls that keep a piece from being held and in use at once: a
    piece is checked out only while it is missing, and have bits are set in
    bulk only on pieces that are not in use. *)
Definition exclusive_ok (s : DefaultPieceStorage) (c : call) : bool :=
  call_ok s c &&
  match c with
  | CheckOutPiece index => negb (hasPiece index s)
  | SetBitfield bf =>
      forallb (λ i, negb (bit bf i && isPieceUsed i s))
              (BitfieldMan.indexes (_bitfieldMan s))
  | MarkAllPiecesDone => noneUsed s
  | MarkPiecesDone len => forallb (λ i, negb (isPieceUsed i s)) (donePieces len s)
  | _ => true
  end.

(** The calls that, on top of [exclusive_ok], keep the in-flight container
    and the in-use bitmap in step: pieces enter the container by a checkout
    only and leave it together with their in-use bit. *)
Definition inStep_ok (s : DefaultPieceStorage) (c : call) : bool :=
  exclusive_ok s c &&
  match c with
  | CancelPiece (Some h) =>
      negb (isEndGame s)
      && bool_decide (Piece.getCompletedLength (deref (store s) h) = 0)
  | DeleteUsedPiece (Some h) => negb (isPieceUsed (key (store s) h) s)
  | MarkPiecesDone len =>
      noneUsed s
      && (bool_decide (len = BitfieldMan.totalLength (_bitfieldMan s))
          || bool_decide
               ((len mod BitfieldMan.blockLength (_bitfieldMan s)) / Piece.BLOCK_LENGTH
                = 0))
  | AddInFlightPiece _ => false
  | _ => true
  end.

(** The wall clock does not run backwards. *)
Definition clock_ok (s : DefaultPieceStorage) (c : call) : bool :=
  match c with
  | Tick now => bool_decide (wallclock s ≤ now)
  | _ => true
  end.

Section Traces.
Context `{PieceSelector}.

(** Every call of the sequence passes the guard in the storage it is made
    on. *)
Fixpoint trace_ok (ok : DefaultPieceStorage → call → bool) (cs : list call)
    (s : DefaultPieceStorage) : bool :=
  match cs with
  | [] => true
  | c :: cs' => ok s c && trace_ok ok cs' (exec c s)
  end.

End Traces.

(** No piece is both held and in use. *)
Definition exclusive (s : DefaultPieceStorage) : Prop :=
  ∀ i, hasPiece i s && isPieceUsed i s = false.

(** The in-flight container holds exactly one piece for every in-use bit. *)
Definition inStep (s : DefaultPieceStorage) : Prop :=
  StronglySorted lt (keys s) ∧ ∀ i, isPieceUsed i s = true ↔ i ∈ keys s.

(** What a selecting call does to a storage: nothing, or the checkout of
    a piece that is not held. *)
Definition checkout_or_same (s s' : DefaultPieceStorage) : Prop :=
  s' = s ∨ ∃ i, (i < BitfieldMan.blocks (_bitfieldMan s))%nat ∧ hasPiece i s = false
                ∧ s' = (checkOutPiece i s).2.

(** Sum of the completed lengths of the in-flight pieces, as a number. *)
Definition inFlightSum (s : DefaultPieceStorage) : Z :=
  sumZ ((λ h, Piece.getCompletedLength (deref (store s) h)) <$> _usedPieces s).

(** The number of in-flight pieces of an index. *)
Definition entriesOf (index : nat) (s : DefaultPieceStorage) : nat :=
  length (List.filter (λ k, bool_decide (k = index)) (keys s)).

(** The container without its first piece of index [v]: what
    [deleteUsedPiece] leaves of an ordered container. *)
Fixpoint eraseKey (st : list Piece.t) (v : nat) (l : list handle) : list handle :=
  match l with
  | [] => []
  | h :: rest => if bool_decide (key st h = v) then rest else h :: eraseKey st v rest
  end.

(** The walk over the advert queue as the specification words it: "skip
    entries where [ownerId == myOwnerId]; stop at the first entry whose
    timestamp is <= [since]". *)
Fixpoint collectSince_spec (haves : list HaveEntry) (myOwnerId since : Z)
    (out : list nat) : list nat :=
  match haves with
  | [] => out
  | have :: rest =>
      if bool_decide (getCuid have = myOwnerId)
      then collectSince_spec rest myOwnerId since out
      else if bool_decide (getRegisteredTime have ≤ since)
           then out
           else collectSince_spec rest myOwnerId since (out ++ [getIndex have])
  end.

(** The same walk in closed form: of the entries of other owners, the
    longest prefix none of which was registered before [lastCheckTime]. *)
Fixpoint notBefore (lastCheckTime : Z) (haves : list HaveEntry) : list HaveEntry :=
  match haves with
  | [] => []
  | have :: rest =>
      if bool_decide (lastCheckTime > getRegisteredTime have) then []
      else have :: notBefore lastCheckTime rest
  end.

Definition ofOthers (myCuid : Z) (haves : list HaveEntry) : list HaveEntry :=
  List.filter (λ have, negb (bool_decide (getCuid have = myCuid))) haves.

(** The age of an advert at [now], as [FindElapsedHave] computes it, and
    an advert queue whose entries stand newest first: what [advertisePiece]
    builds while the wall clock does not run backwards. *)
Definition age (now : Z) (have : HaveEntry) : Z := now - getRegisteredTime have.
Definition newestFirst (haves : list HaveEntry) : Prop :=
  StronglySorted (λ a b, getRegisteredTime b ≤ getRegisteredTime a) haves.

(** Two downloads to run the calls on: two pieces of 32 KiB, which is in
    end-game from the start, and twenty-one, which is not. *)
Definition twoPieces : DownloadContext := mkDownloadContext 32768 65536 [] 0.
Definition manyPieces : DownloadContext := mkDownloadContext 32768 688128 [] 0.

(** A selective download of two files of one piece each, of which the
    first is requested. *)
Definition selective : DownloadContext :=
  mkDownloadContext 32768 65536
    [mkFileEntry true 0 32768; mkFileEntry false 32768 32768] 0.

(** *** A rarest-first selector

    The candidates with the lowest count, and among them the one the
    random number picks. *)
Definition candidates (cand : list bool) (n : nat) : list nat :=
  List.filter (bit cand) (seq 0 n).

Definition lowestCount (counts : PieceStatMan.t) (l : list nat) : nat :=
  match l with
  | [] => 0%nat
  | c :: rest => foldr (λ i m, Nat.min (PieceStatMan.count counts i) m)
                       (PieceStatMan.count counts c) rest
  end.

Definition rarest (rnd : nat) (counts : PieceStatMan.t) (cand : list bool) (n : nat)
    : option nat :=
  let cs := candidates cand n in
  let minima :=
    List.filter (λ i, PieceStatMan.count counts i =? lowestCount counts cs)%nat cs in
  minima !! (rnd `mod` length minima)%nat.

Lemma bit_insert_eq bm i b : (i < length bm)%nat → bit (<[i:=b]> bm) i = b.
Proof. intros. unfold bit. by rewrite list_lookup_insert_eq. Qed.

Lemma bit_insert_ne bm i j b : i ≠ j → bit (<[i:=b]> bm) j = bit bm j.
Proof. intros. unfold bit. by rewrite list_lookup_insert_ne. Qed.

Lemma bit_replicate_false n i : bit (replicate n false) i = false.
Proof.
unfold bit. destruct (replicate n false !! i) eqn:E; [|done].
by apply lookup_replicate in E as [-> _].
Qed.

Lemma bit_ge bm i : (length bm ≤ i)%nat → bit bm i = false.
Proof. intros. unfold bit. by rewrite lookup_ge_None_2. Qed.

(** ** Fixed-width integers and bitmaps *)

Lemma to_u64_small z : 0 ≤ z < 2 ^ 64 → Cxx.to_u64 z = z.
Proof. intros. unfold Cxx.to_u64. by rewrite Z.mod_small. Qed.

Lemma to_int_small z : - 2 ^ 31 ≤ z < 2 ^ 31 → Cxx.to_int z = z.
Proof. intros. unfold Cxx.to_int. rewrite Z.mod_small; lia. Qed.

Lemma bit_true_lt bm i : bit bm i = true → (i < length bm)%nat.
Proof.
  unfold bit. destruct (bm !! i) eqn:E; [|done]. intros _.
  by eapply lookup_lt_Some.
Qed.

Lemma bit_fmap_indexes (f : nat → bool) n i :
  bit (f <$> seq 0 n) i = true ↔ (i < n)%nat ∧ f i = true.
Proof.
  unfold bit. rewrite list_lookup_fmap.
  destruct (decide (i < n)%nat) as [Hi|Hi].
  - rewrite lookup_seq_lt by done. simpl. split; [done|by intros [_ ?]].
  - rewrite lookup_seq_ge by lia. simpl. split; [done|by intros [? _]].
Qed.

Lemma candidates_elem cand n i :
  i ∈ candidates cand n ↔ (i < n)%nat ∧ bit cand i = true.
Proof.
  unfold candidates. rewrite list_elem_of_In, filter_In, <- list_elem_of_In, elem_of_seq.
  intuition lia.
Qed.

Lemma lowestCount_le counts l i :
  i ∈ l → (lowestCount counts l ≤ PieceStatMan.count counts i)%nat.
Proof.
  destruct l as [|c rest]; [by intros ?%elem_of_nil|].
  simpl. revert i. induction rest as [|d rest IH]; intros i Hi.
  - apply list_elem_of_singleton in Hi as ->. done.
  - simpl. apply elem_of_cons in Hi as [->|Hi].
    + assert (c ∈ c :: rest) as Hc by left. specialize (IH c Hc). lia.
    + apply elem_of_cons in Hi as [->|Hi]; [lia|].
      assert (i ∈ c :: rest) as Hc by by right. specialize (IH i Hc). lia.
Qed.

Lemma lowestCount_attained counts l :
  l ≠ [] → ∃ i, i ∈ l ∧ PieceStatMan.count counts i = lowestCount counts l.
Proof.
  destruct l as [|c rest]; [done|]. intros _. simpl.
  induction rest as [|d rest IH].
  - exists c. split; [left|done].
  - destruct IH as (i & Hi & Heq). simpl.
    destruct (decide (PieceStatMan.count counts d
                      ≤ foldr (λ i m, Nat.min (PieceStatMan.count counts i) m)
                              (PieceStatMan.count counts c) rest)%nat).
    + exists d. split; [right; left|lia].
    + exists i. split; [|lia].
      apply elem_of_cons in Hi as [->|Hi]; [left|right; by right].
Qed.

Lemma rarest_Some rnd counts cand n i :
  rarest rnd counts cand n = Some i →
  i ∈ candidates cand n
  ∧ PieceStatMan.count counts i = lowestCount counts (candidates cand n).
Proof.
  unfold rarest. intros Hi%list_elem_of_lookup_2.
  apply list_elem_of_In, filter_In in Hi as [Hi Hc].
  apply list_elem_of_In in Hi. by apply Nat.eqb_eq in Hc.
Qed.

Lemma rarest_None rnd counts cand n :
  rarest rnd counts cand n = None → candidates cand n = [].
Proof.
  unfold rarest. intros Hn.
  destruct (decide (candidates cand n = [])) as [|Hne]; [done|exfalso].
  destruct (lowestCount_attained counts _ Hne) as (i & Hi & Heq).
  set (minima := List.filter _ _) in Hn.
  assert (i ∈ minima) as Him.
  { apply list_elem_of_In, filter_In. split; [by apply list_elem_of_In|].
    by apply Nat.eqb_eq. }
  apply lookup_ge_None in Hn.
  assert (0 < length minima)%nat.
  { destruct minima; [by apply elem_of_nil in Him|simpl; lia]. }
  pose proof (Nat.mod_upper_bound rnd (length minima)). lia.
Qed.

#[global] Program Instance RarestPieceSelector : PieceSelector := {| select := rarest |}.
Next Obligation.
  intros rnd counts cand n i [Hi _]%rarest_Some. by apply candidates_elem.
Qed.
Next Obligation.
  intros rnd counts cand n i j [_ Hi]%rarest_Some Hj Hb. rewrite Hi.
  apply lowestCount_le. by apply candidates_elem.
Qed.
Next Obligation.
  intros rnd counts cand n i Hn%rarest_None Hi.
  destruct (bit cand i) eqn:E; [|done].
  assert (i ∈ candidates cand n) as Hin by by apply candidates_elem.
  rewrite Hn in Hin. by apply elem_of_nil in Hin.
Qed.


(** ** [std::lower_bound] *)

Section LowerBound.
Context {A : Type} (less : A → bool).
Local Open Scope nat_scope.

Lemma lower_bound_loop_spec l rounds : partitioned less l →
  ∀ first count,
  count ≤ rounds → first + count ≤ length l →
  (∀ j x, j < first → l !! j = Some x → less x = true) →
  (∀ j x, first + count ≤ j → l !! j = Some x → less x = false) →
  let r := lower_bound_loop less l rounds first count in
  r ≤ length l
  ∧ (∀ j x, j < r → l !! j = Some x → less x = true)
  ∧ (∀ j x, r ≤ j → l !! j = Some x → less x = false).
Proof.
  intros Hpart. induction rounds as [|rounds IH]; intros first count Hc Hlen Hlo Hhi;
    cbn [lower_bound_loop]; cbv zeta.
  - split; [lia|]. split; [done|]. intros j x Hj. apply Hhi. lia.
  - case_bool_decide as Hz.
    { subst count. split; [lia|]. split; [done|]. intros j x Hj. apply Hhi. lia. }
    pose proof (Nat.div_lt count 2 ltac:(lia) ltac:(lia)) as Hstep.
    destruct (l !! (first + count / 2)) as [x|] eqn:Hx.
    2: { apply lookup_ge_None in Hx. lia. }
    destruct (less x) eqn:Hless.
    + apply IH; [lia|lia| |].
      * intros j y Hj Hy. eapply (Hpart j (first + count / 2)); eauto. lia.
      * intros j y Hj Hy. apply (Hhi j); [lia|done].
    + apply IH; [lia|lia|done|].
      intros j y Hj Hy. destruct (less y) eqn:Hly; [|done].
      rewrite <- Hless. symmetry.
      eapply (Hpart (first + count / 2) j); eauto.
Qed.

Lemma lower_bound_split l : partitioned less l →
  ∃ l1 l2, l = l1 ++ l2 ∧ lower_bound less l = length l1
           ∧ Forall (λ x, less x = true) l1 ∧ Forall (λ x, less x = false) l2.
Proof.
  intros Hpart.
  destruct (lower_bound_loop_spec l (length l) Hpart 0 (length l)) as (Hr & Hlo & Hhi);
    [lia|lia|intros; lia| |].
  { intros j x Hj Hx. apply lookup_lt_Some in Hx. lia. }
  fold (lower_bound less l) in Hr, Hlo, Hhi.
  exists (take (lower_bound less l) l), (drop (lower_bound less l) l).
  split; [by rewrite take_drop|]. split; [rewrite length_take; lia|]. split.
  - apply Forall_lookup. intros j x Hx. apply lookup_take_Some in Hx as [Hx Hj]. eauto.
  - apply Forall_lookup. intros j x Hx. rewrite lookup_drop in Hx.
    apply (Hhi (lower_bound less l + j)); [lia|done].
Qed.

End LowerBound.

(** In an ordered container the pieces below an index come first. *)
Lemma sorted_partitioned st v (l : list handle) :
  StronglySorted le (key st <$> l) →
  partitioned (λ h, handle_lt st h (Piece.mk v 0 [])) l.
Proof.
  intros Hs i j x y Hij Hx Hy. unfold handle_lt, Piece.lt. simpl.
  rewrite !bool_decide_eq_true. intros Hlt.
  enough (key st x ≤ key st y)%nat by (unfold key in *; lia).
  destruct (decide (i = j)) as [->|Hne]; [by simplify_eq|].
  rewrite <- (take_drop_middle l j y) in Hs, Hx by done.
  rewrite fmap_app, fmap_cons in Hs.
  apply StronglySorted_app in Hs as (Hall & _ & _).
  rewrite lookup_app_l in Hx by (rewrite length_take; apply lookup_lt_Some in Hy; lia).
  apply (Hall (key st x) (key st y)).
  - apply list_elem_of_fmap_2. by eapply list_elem_of_lookup_2.
  - left.
Qed.

(** The shape of an ordered container around the lower bound of [v]. *)
Lemma lower_bound_keys st v (l : list handle) :
  StronglySorted le (key st <$> l) →
  ∃ l1 l2, l = l1 ++ l2
    ∧ lower_bound (λ h, handle_lt st h (Piece.mk v 0 [])) l = length l1
    ∧ Forall (λ h, key st h < v)%nat l1 ∧ Forall (λ h, v ≤ key st h)%nat l2.
Proof.
  intros Hs. destruct (lower_bound_split _ l (sorted_partitioned st v l Hs))
    as (l1 & l2 & -> & Hlb & H1 & H2).
  exists l1, l2. split; [done|]. split; [done|]. split.
  - eapply Forall_impl; [exact H1|]. intros h. unfold handle_lt, Piece.lt, key. simpl.
    by rewrite bool_decide_eq_true.
  - eapply Forall_impl; [exact H2|]. intros h. unfold handle_lt, Piece.lt, key. simpl.
    rewrite bool_decide_eq_false. lia.
Qed.

(** ** The in-flight container *)

Local Open Scope nat_scope.

Lemma sorted_above st v h (l : list handle) :
  StronglySorted le (key st <$> h :: l) → v < key st h →
  Forall (λ x, v < key st x) (h :: l).
Proof.
  rewrite fmap_cons. intros [Hall _]%StronglySorted_cons Hv.
  constructor; [done|]. rewrite Forall_fmap in Hall.
  eapply Forall_impl; [exact Hall|]. simpl. intros; lia.
Qed.

Lemma not_elem_of_keys_below st v (l : list handle) :
  Forall (λ h, key st h < v) l → v ∉ key st <$> l.
Proof.
  intros Hall (h & -> & Hh)%list_elem_of_fmap.
  rewrite Forall_forall in Hall. specialize (Hall h Hh). lia.
Qed.

Lemma not_elem_of_keys_above st v (l : list handle) :
  Forall (λ h, v < key st h) l → v ∉ key st <$> l.
Proof.
  intros Hall (h & -> & Hh)%list_elem_of_fmap.
  rewrite Forall_forall in Hall. specialize (Hall h Hh). lia.
Qed.

Lemma findUsedPiece_spec index s :
  StronglySorted le (keys s) →
  match findUsedPiece index s with
  | Some h => h ∈ _usedPieces s ∧ key (store s) h = index
  | None => index ∉ keys s
  end.
Proof.
  intros Hs. unfold findUsedPiece, keys in *.
  destruct (lower_bound_keys (store s) index _ Hs) as (l1 & l2 & Hl & -> & H1 & H2).
  rewrite Hl in Hs |- *. rewrite lookup_app_r, Nat.sub_diag by done.
  destruct l2 as [|h l2]; simpl.
  - rewrite app_nil_r. by apply not_elem_of_keys_below.
  - unfold handle_eq, Piece.eq. simpl. case_bool_decide as Heq.
    + split; [|done]. apply elem_of_app. right. left.
    + rewrite fmap_app in Hs |- *. apply StronglySorted_app_1_r in Hs.
      apply not_elem_of_app. split; [by apply not_elem_of_keys_below|].
      apply not_elem_of_keys_above. apply sorted_above; [done|].
      apply Forall_cons_1 in H2 as [? _]. unfold key in *. lia.
Qed.

(** [addUsedPiece] splits the container at the lower bound. *)
Lemma addUsedPiece_split piece s :
  StronglySorted le (keys s) →
  ∃ l1 l2, _usedPieces s = l1 ++ l2
    ∧ addUsedPiece piece s = with_usedPieces (λ _, l1 ++ piece :: l2) s
    ∧ Forall (λ h, key (store s) h < key (store s) piece) l1
    ∧ Forall (λ h, key (store s) piece ≤ key (store s) h) l2.
Proof.
  intros Hs. unfold addUsedPiece, keys in *.
  destruct (lower_bound_keys (store s) (key (store s) piece) _ Hs)
    as (l1 & l2 & Hl & Hlb & H1 & H2).
  exists l1, l2. split; [done|]. split; [|done].
  unfold with_usedPieces. f_equal.
  erewrite (f_equal (λ n, take n _ ++ _ :: drop n _)); [|exact Hlb].
  by rewrite Hl, take_app_length, drop_app_length.
Qed.

Lemma sorted_insert (R : relation nat) `{!Transitive R} (k1 k2 : list nat) v :
  StronglySorted R (k1 ++ k2) → Forall (λ k, R k v) k1 → Forall (R v) k2 →
  StronglySorted R (k1 ++ v :: k2).
Proof.
  intros (Hall & S1 & S2)%StronglySorted_app F1 F2.
  apply StronglySorted_app. split; [|split; [done|]].
  - intros x1 x2 Hx1 [->|Hx2]%elem_of_cons.
    + by eapply Forall_forall in F1.
    + eauto.
  - by apply StronglySorted_cons.
Qed.

(** [deleteUsedPiece] erases the first piece of the index. *)
Lemma eraseKey_below st v (l1 l2 : list handle) :
  Forall (λ h, key st h < v) l1 → eraseKey st v (l1 ++ l2) = l1 ++ eraseKey st v l2.
Proof.
  induction 1 as [|h l1 Hh _ IH]; [done|]. simpl.
  rewrite bool_decide_eq_false_2 by lia. by rewrite IH.
Qed.

Lemma eraseKey_above st v (l : list handle) :
  Forall (λ h, v < key st h) l → eraseKey st v l = l.
Proof.
  induction 1 as [|h l Hh _ IH]; [done|]. simpl.
  rewrite bool_decide_eq_false_2 by lia. by rewrite IH.
Qed.

Lemma deleteUsedPiece_used ph s :
  StronglySorted le (keys s) →
  deleteUsedPiece (Some ph) s
  = with_usedPieces (eraseKey (store s) (key (store s) ph)) s.
Proof.
  intros Hs. unfold deleteUsedPiece, keys in *.
  destruct (lower_bound_keys (store s) (key (store s) ph) _ Hs)
    as (l1 & l2 & Hl & Hlb & H1 & H2).
  cbv zeta.
  change (lower_bound _ (_usedPieces s))
    with (lower_bound (λ h, handle_lt (store s) h (Piece.mk (key (store s) ph) 0 []))
                      (_usedPieces s)).
  rewrite Hlb. unfold with_usedPieces.
  rewrite Hl in Hs |- *. rewrite lookup_app_r, Nat.sub_diag by done.
  rewrite eraseKey_below by done.
  destruct l2 as [|h l2]; simpl.
  - destruct s; simpl in *. by rewrite Hl.
  - unfold handle_eq, Piece.eq. fold (key (store s) h). fold (key (store s) ph).
    case_bool_decide as Heq.
    + by rewrite delete_middle.
    + rewrite fmap_app in Hs. apply StronglySorted_app_1_r in Hs.
      pose proof (sorted_above (store s) (key (store s) ph) h l2 Hs) as Hab.
      apply Forall_cons_1 in H2 as [? _].
      apply Forall_cons_1 in Hab as [_ Hab]; [|lia].
      rewrite eraseKey_above by done.
      destruct s; simpl in *. by rewrite Hl.
Qed.

Lemma eraseKey_sublist st v (l : list handle) : eraseKey st v l `sublist_of` l.
Proof.
  induction l as [|h l IH]; simpl; [done|].
  case_bool_decide; [by apply sublist_cons|by apply sublist_skip].
Qed.

(** ** Well-formedness is kept *)
Local Open Scope Z_scope.

Lemma StronglySorted_sublist {A} (R : relation A) (l1 l2 : list A) :
  l1 `sublist_of` l2 → StronglySorted R l2 → StronglySorted R l1.
Proof.
  induction 1 as [|x l1 l2 Hsub IH|x l1 l2 Hsub IH]; [done| |].
  - intros [Hall Hs]%StronglySorted_cons. apply StronglySorted_cons. split; [|auto].
    apply Forall_forall. intros y Hy. rewrite Forall_forall in Hall.
    apply Hall. by eapply elem_of_sublist.
  - intros [_ Hs]%StronglySorted_cons. auto.
Qed.

Lemma Forall_sublist_of {A} (P : A → Prop) (l1 l2 : list A) :
  l1 `sublist_of` l2 → Forall P l2 → Forall P l1.
Proof.
  intros Hsub Hall. apply Forall_forall. intros y Hy. rewrite Forall_forall in Hall.
  apply Hall. by eapply elem_of_sublist.
Qed.

Lemma key_alloc st p h : (h < length st)%nat → key (st ++ [p]) h = key st h.
Proof. intros. unfold key, deref. by rewrite lookup_app_l. Qed.

Lemma keys_alloc st p (l : list handle) :
  Forall (λ h, h < length st)%nat l → key (st ++ [p]) <$> l = key st <$> l.
Proof.
  intros Hall. apply list_fmap_ext. intros i h Hh.
  apply key_alloc. rewrite Forall_forall in Hall. apply Hall.
  by eapply list_elem_of_lookup_2.
Qed.

Lemma key_alter (f : Piece.t → Piece.t) st i h :
  (∀ p, Piece.index (f p) = Piece.index p) → key (alter f i st) h = key st h.
Proof.
  intros Hf. unfold key, deref. destruct (decide (i = h)) as [->|Hne].
  - rewrite list_lookup_alter_eq. unfold handle in *.
    destruct (st !! h); simpl; [apply Hf|done].
  - by rewrite list_lookup_alter_ne.
Qed.

Lemma getBlockLengthAt_nonneg i b :
  wf_bitfieldMan b → 0 ≤ BitfieldMan.getBlockLengthAt i b.
Proof.
  intros [Hbl Htl Hb _ _]. unfold BitfieldMan.getBlockLengthAt.
  repeat case_bool_decide; [|lia|lia].
  assert (Z.of_nat (S i)
          = (BitfieldMan.totalLength b + BitfieldMan.blockLength b - 1)
            / BitfieldMan.blockLength b) as Hq.
  { rewrite H, Hb, Z2Nat.id; [done|]. apply Z.div_pos; lia. }
  pose proof (Z.mul_div_le (BitfieldMan.totalLength b + BitfieldMan.blockLength b - 1)
                (BitfieldMan.blockLength b) Hbl) as Hle.
  rewrite <- Hq in Hle. nia.
Qed.

Lemma wf_set_bitfield bf b :
  wf_bitfieldMan b → length bf = BitfieldMan.blocks b →
  wf_bitfieldMan (BitfieldMan.set_bitfield bf b).
Proof. intros [] ?. by constructor. Qed.

Lemma wf_set_useBitfield ub b :
  wf_bitfieldMan b → length ub = BitfieldMan.blocks b →
  wf_bitfieldMan (BitfieldMan.set_useBitfield ub b).
Proof. intros [] ?. by constructor. Qed.

Lemma wf_set_filter fb en b :
  wf_bitfieldMan b → wf_bitfieldMan (BitfieldMan.set_filter fb en b).
Proof. intros []. by constructor. Qed.

Lemma length_setBits (l : list nat) (bf : list bool) :
  length (foldr (λ i bf, <[i:=true]> bf) bf l) = length bf.
Proof. induction l as [|i l IH]; simpl; [done|]. by rewrite length_insert. Qed.

Lemma wf_setBit i b : wf_bitfieldMan b → wf_bitfieldMan (BitfieldMan.setBit i b).
Proof. intros Hb. apply wf_set_bitfield; [done|]. rewrite length_insert. apply Hb. Qed.
Lemma wf_unsetBit i b : wf_bitfieldMan b → wf_bitfieldMan (BitfieldMan.unsetBit i b).
Proof. intros Hb. apply wf_set_bitfield; [done|]. rewrite length_insert. apply Hb. Qed.
Lemma wf_setUseBit i b : wf_bitfieldMan b → wf_bitfieldMan (BitfieldMan.setUseBit i b).
Proof. intros Hb. apply wf_set_useBitfield; [done|]. rewrite length_insert. apply Hb. Qed.
Lemma wf_unsetUseBit i b : wf_bitfieldMan b → wf_bitfieldMan (BitfieldMan.unsetUseBit i b).
Proof. intros Hb. apply wf_set_useBitfield; [done|]. rewrite length_insert. apply Hb. Qed.
Lemma wf_setAllBit b : wf_bitfieldMan b → wf_bitfieldMan (BitfieldMan.setAllBit b).
Proof. intros Hb. apply wf_set_bitfield; [done|]. by rewrite length_replicate. Qed.
Lemma wf_clearAllBit b : wf_bitfieldMan b → wf_bitfieldMan (BitfieldMan.clearAllBit b).
Proof. intros Hb. apply wf_set_bitfield; [done|]. by rewrite length_replicate. Qed.
Lemma wf_setBitRange lo hi b :
  wf_bitfieldMan b → wf_bitfieldMan (BitfieldMan.setBitRange lo hi b).
Proof. intros Hb. apply wf_set_bitfield; [done|]. rewrite length_setBits. apply Hb. Qed.
Lemma wf_setBitfield bf b :
  wf_bitfieldMan b → wf_bitfieldMan (BitfieldMan.setBitfield bf b).
Proof.
  intros Hb. unfold BitfieldMan.setBitfield. case_bool_decide; [|done].
  by apply wf_set_bitfield.
Qed.
Lemma wf_addFilter o n b : wf_bitfieldMan b → wf_bitfieldMan (BitfieldMan.addFilter o n b).
Proof. apply wf_set_filter. Qed.
Lemma wf_enableFilter b : wf_bitfieldMan b → wf_bitfieldMan (BitfieldMan.enableFilter b).
Proof. apply wf_set_filter. Qed.
Lemma wf_clearFilter b : wf_bitfieldMan b → wf_bitfieldMan (BitfieldMan.clearFilter b).
Proof. apply wf_set_filter. Qed.

Lemma blocks_setBitfield bf b :
  BitfieldMan.blocks (BitfieldMan.setBitfield bf b) = BitfieldMan.blocks b.
Proof. unfold BitfieldMan.setBitfield. by case_bool_decide. Qed.

Lemma wf_new_bitfieldMan bl tl : 0 < bl → 0 ≤ tl → wf_bitfieldMan (BitfieldMan.new bl tl).
Proof.
  intros Hbl Htl. unfold BitfieldMan.new. constructor; simpl; try done.
  - case_bool_decide as Hc; [done|].
    assert (tl = 0) as -> by lia.
    rewrite Z.div_small by lia. done.
  - by rewrite length_replicate.
  - by rewrite length_replicate.
Qed.

(** Storage-level steps. *)
Lemma wf_with_bitfieldMan f s :
  wf s → wf_bitfieldMan (f (_bitfieldMan s)) →
  BitfieldMan.blocks (f (_bitfieldMan s)) = BitfieldMan.blocks (_bitfieldMan s) →
  wf (with_bitfieldMan f s).
Proof.
  intros [] Hb Hn. constructor; simpl; try done.
  - unfold keys in *. simpl. by rewrite Hn.
  - by rewrite Hn.
Qed.

Lemma wf_with_pieceStatMan f s :
  wf s → length (f (_pieceStatMan s)) = length (_pieceStatMan s) →
  wf (with_pieceStatMan f s).
Proof. intros [] Hf. constructor; simpl; try done. by rewrite Hf. Qed.
Lemma wf_with_haves f s : wf s → wf (with_haves f s).
Proof. by intros []. Qed.
Lemma wf_with_downloadContext f s : wf s → wf (with_downloadContext f s).
Proof. by intros []. Qed.
Lemma wf_with_wallclock t s : wf s → wf (with_wallclock t s).
Proof. by intros []. Qed.

Lemma wf_alloc p s : wf s → 0 ≤ Piece.length p → wf (alloc p s).2.
Proof.
  intros [Hb Hh Hs Hr Hl Hc] Hp. unfold keys in *.
  constructor; simpl; unfold keys; simpl.
  - done.
  - eapply Forall_impl; [exact Hh|]. simpl. intros h ?. rewrite length_app. simpl. lia.
  - by rewrite keys_alloc.
  - by rewrite keys_alloc.
  - apply Forall_app. split; [done|]. by constructor.
  - done.
Qed.

Lemma wf_addUsedPiece piece s :
  wf s → (piece < length (store s))%nat →
  (key (store s) piece < BitfieldMan.blocks (_bitfieldMan s))%nat →
  wf (addUsedPiece piece s).
Proof.
  intros [Hb Hh Hs Hr Hl Hc] Hp Hk.
  destruct (addUsedPiece_split piece s Hs) as (l1 & l2 & Hu & -> & H1 & H2).
  unfold keys in *. rewrite Hu in Hh, Hs, Hr.
  constructor; simpl; unfold keys; simpl; try done.
  - apply Forall_app in Hh as [? ?]. apply Forall_app. split; [done|]. by constructor.
  - rewrite fmap_app, fmap_cons. rewrite fmap_app in Hs.
    apply sorted_insert; [apply _|done| |].
    + rewrite Forall_fmap. eapply Forall_impl; [exact H1|]. simpl. intros; lia.
    + rewrite Forall_fmap. eapply Forall_impl; [exact H2|]. simpl. intros; lia.
  - rewrite fmap_app, fmap_cons. rewrite fmap_app in Hr.
    apply Forall_app in Hr as [? ?]. apply Forall_app. split; [done|]. by constructor.
Qed.

Lemma wf_eraseKey v s : wf s → wf (with_usedPieces (eraseKey (store s) v) s).
Proof.
  intros [Hb Hh Hs Hr Hl Hc]. unfold keys in *.
  pose proof (eraseKey_sublist (store s) v (_usedPieces s)) as Hsub.
  constructor; simpl; unfold keys; simpl; try done.
  - by eapply Forall_sublist_of.
  - eapply StronglySorted_sublist; [|exact Hs]. by apply fmap_sublist.
  - eapply Forall_sublist_of; [|exact Hr]. by apply fmap_sublist.
Qed.

Lemma wf_deleteUsedPiece piece s : wf s → wf (deleteUsedPiece piece s).
Proof.
  intros Hwf. destruct piece as [ph|]; [|done].
  rewrite deleteUsedPiece_used by apply Hwf. by apply wf_eraseKey.
Qed.

(** ** What the selecting calls pick *)

Local Open Scope nat_scope.

Lemma bit_drop (l : list bool) i k : bit (drop i l) k = bit l (i + k).
Proof. unfold bit. by rewrite lookup_drop. Qed.

Lemma runLength_bits l k : k < BitfieldMan.runLength l → bit l k = true.
Proof.
  revert k. induction l as [|[] l IH]; simpl; intros k Hk; [lia| |lia].
  destruct k as [|k]; [done|]. apply (IH k). lia.
Qed.

Lemma runLength_pos l : bit l 0 = true → 0 < BitfieldMan.runLength l.
Proof. destruct l as [|[] l]; simpl; [done|lia|done]. Qed.

Lemma longestRun_Some cand start len :
  BitfieldMan.longestRun cand = Some (start, len) →
  bit cand start = true ∧ len = BitfieldMan.runLength (drop start cand).
Proof.
  unfold BitfieldMan.longestRun.
  assert (Forall (λ i, bit cand i = true) (BitfieldMan.runStarts cand)) as Hall.
  { apply Forall_forall. intros i Hi. unfold BitfieldMan.runStarts in Hi.
    apply list_elem_of_In, filter_In in Hi as [_ Hi]. by apply andb_true_iff in Hi as [? _]. }
  set (P := λ best : option (nat * nat),
         ∀ i n, best = Some (i, n) →
                bit cand i = true ∧ n = BitfieldMan.runLength (drop i cand)).
  assert (P None) as Hinit by (intros ???; done).
  revert Hinit. generalize (@None (nat * nat)).
  induction Hall as [|i l Hi _ IH]; intros best Hbest; simpl.
  - apply Hbest.
  - apply IH. intros j n. destruct best as [[bi bn]|].
    + case_bool_decide; [|apply Hbest]. intros [= <- <-]. done.
    + intros [= <- <-]. done.
Qed.

Lemma getSparseMissingUnusedIndex_Some b ignore index :
  BitfieldMan.getSparseMissingUnusedIndex b ignore = Some index →
  index < BitfieldMan.blocks b
  ∧ BitfieldMan.isBitSet index b = false
  ∧ BitfieldMan.isUseBitSet index b = false
  ∧ BitfieldMan.interesting b index = true
  ∧ bit ignore index = false.
Proof.
  unfold BitfieldMan.getSparseMissingUnusedIndex.
  destruct (BitfieldMan.longestRun _) as [[start len]|] eqn:Hrun; [|done].
  intros [= <-]. apply longestRun_Some in Hrun as [Hstart ->].
  set (cand := BitfieldMan.sparseCandidates b ignore) in *.
  assert (bit cand (start + BitfieldMan.runLength (drop start cand) / 2) = true) as Hbit.
  { rewrite <- bit_drop. apply runLength_bits.
    assert (0 < BitfieldMan.runLength (drop start cand)).
    { apply runLength_pos. by rewrite bit_drop, Nat.add_0_r. }
    apply Nat.div_lt; lia. }
  apply bit_fmap_indexes in Hbit as [Hlt Hbit].
  rewrite !andb_true_iff, !negb_true_iff in Hbit. tauto.
Qed.

Section SelectionFacts.
Context `{PieceSelector}.

Lemma getMissingPieceIndex_Some rnd bf s index :
  getMissingPieceIndex rnd bf s = Some index →
  index < BitfieldMan.blocks (_bitfieldMan s)
  ∧ bit bf index = true
  ∧ hasPiece index s = false
  ∧ BitfieldMan.interesting (_bitfieldMan s) index = true
  ∧ (isEndGame s = false → isPieceUsed index s = false).
Proof.
  unfold getMissingPieceIndex, BitfieldMan.getAllMissingIndexes,
    BitfieldMan.getAllMissingUnusedIndexes.
  destruct (isEndGame s).
  - destruct (existsb _ _); [|done]. intros [_ Hb]%select_candidate.
    apply bit_fmap_indexes in Hb as [Hlt Hb].
    rewrite !andb_true_iff, !negb_true_iff in Hb. unfold hasPiece.
    repeat split; try tauto; done.
  - destruct (existsb _ _); [|done]. intros [_ Hb]%select_candidate.
    apply bit_fmap_indexes in Hb as [Hlt Hb].
    rewrite !andb_true_iff, !negb_true_iff in Hb. unfold hasPiece, isPieceUsed.
    repeat split; tauto.
Qed.

End SelectionFacts.

(** ** Every call keeps the storage well-formed *)

Local Open Scope Z_scope.

Lemma key_alloc_new st p : key (st ++ [p]) (length st) = Piece.index p.
Proof. unfold key, deref. by rewrite lookup_app_r, Nat.sub_diag. Qed.

Lemma wf_setUseBit_storage index s :
  wf s → wf (with_bitfieldMan (BitfieldMan.setUseBit index) s).
Proof. intros Hwf. apply wf_with_bitfieldMan; [done| |done]. apply wf_setUseBit, Hwf. Qed.

Lemma wf_alloc_add p s :
  wf s → 0 ≤ Piece.length p →
  (Piece.index p < BitfieldMan.blocks (_bitfieldMan s))%nat →
  wf (addUsedPiece (alloc p s).1 (alloc p s).2).
Proof.
  intros Hwf Hp Hi. apply wf_addUsedPiece; [by apply wf_alloc| |]; simpl.
  - rewrite length_app. simpl. lia.
  - by rewrite key_alloc_new.
Qed.

Lemma wf_checkOutPiece index s :
  wf s → (index < BitfieldMan.blocks (_bitfieldMan s))%nat →
  wf (checkOutPiece index s).2.
Proof.
  intros Hwf Hi. unfold checkOutPiece.
  pose proof (wf_setUseBit_storage index s Hwf) as Hwf1.
  destruct (findUsedPiece _ _); [done|].
  apply (wf_alloc_add (Piece.new _ _)); [done| |done].
  simpl. apply getBlockLengthAt_nonneg, Hwf1.
Qed.

Lemma wf_getPiece index s : wf s → wf (getPiece index s).2.
Proof.
  intros Hwf. unfold getPiece. case_bool_decide; [|done].
  destruct (findUsedPiece _ _); [done|].
  apply wf_alloc; [done|]. destruct (hasPiece index s); simpl;
    apply getBlockLengthAt_nonneg, Hwf.
Qed.

Lemma wf_completePiece piece s : wf s → wf (completePiece piece s).
Proof.
  intros Hwf. destruct piece as [ph|]; [|done]. unfold completePiece.
  pose proof (wf_deleteUsedPiece (Some ph) s Hwf) as Hwf1.
  destruct (allDownloadFinished _); [done|].
  set (s4 := addPieceStatsAt _ _).
  assert (wf s4) as Hwf4.
  { apply wf_with_pieceStatMan; [|apply length_alter].
    apply wf_with_bitfieldMan; [|apply wf_unsetUseBit|done].
    - apply wf_with_bitfieldMan; [done|apply wf_setBit, Hwf1|done].
    - apply wf_setBit, Hwf1. }
  destruct (downloadFinished s4); [by apply wf_with_downloadContext|done].
Qed.

Lemma wf_cancelPiece piece s : wf s → wf (cancelPiece piece s).
Proof.
  intros Hwf. destruct piece as [ph|]; [|done]. unfold cancelPiece.
  set (s1 := with_bitfieldMan _ s).
  assert (wf s1) as Hwf1.
  { apply wf_with_bitfieldMan; [done|apply wf_unsetUseBit, Hwf|done]. }
  destruct (negb _); [|done]. case_bool_decide; [|done]. by apply wf_deleteUsedPiece.
Qed.

Lemma wf_addFilters (l : list FileEntry) s :
  wf s →
  wf (foldl (λ st e,
               if isRequested e
               then with_bitfieldMan (BitfieldMan.addFilter (getOffset e) (getLength e)) st
               else st) s l).
Proof.
  revert s. induction l as [|e l IH]; intros s Hwf; simpl; [done|].
  apply IH. destruct (isRequested e); [|done].
  apply wf_with_bitfieldMan; [done|apply wf_addFilter, Hwf|done].
Qed.

Lemma wf_setupFileFilter s : wf s → wf (setupFileFilter s).
Proof.
  intros Hwf. unfold setupFileFilter. destruct (forallb _ _); [done|].
  pose proof (wf_addFilters (getFileEntries (_downloadContext s)) s Hwf) as Hwf1.
  apply wf_with_bitfieldMan; [done|apply wf_enableFilter, Hwf1|done].
Qed.

Lemma numPiece_lt len s :
  wf s → 0 ≤ len ≤ BitfieldMan.totalLength (_bitfieldMan s) →
  len ≠ BitfieldMan.totalLength (_bitfieldMan s) →
  (Z.to_nat (len / BitfieldMan.blockLength (_bitfieldMan s))
   < BitfieldMan.blocks (_bitfieldMan s))%nat.
Proof.
  intros [[Hbl Htl Hb _ _] _ _ _ _ _] Hlen Hne. rewrite Hb.
  set (bl := BitfieldMan.blockLength _) in *. set (tl := BitfieldMan.totalLength _) in *.
  replace (tl + bl - 1) with (tl - 1 + 1 * bl) by lia.
  rewrite Z.div_add by lia.
  assert (len / bl ≤ (tl - 1) / bl) by (apply Z.div_le_mono; lia).
  assert (0 ≤ len / bl) by (apply Z.div_pos; lia).
  lia.
Qed.

Lemma completeBlocks_index (l : list nat) p :
  Piece.index (foldl (λ q i, Piece.completeBlock i q) p l) = Piece.index p
  ∧ Piece.length (foldl (λ q i, Piece.completeBlock i q) p l) = Piece.length p.
Proof. revert p. induction l as [|i l IH]; intros p; simpl; [done|]. by rewrite !(proj1 (IH _)), !(proj2 (IH _)). Qed.

Lemma wf_markPiecesDone len s :
  wf s → 0 ≤ len ≤ BitfieldMan.totalLength (_bitfieldMan s) → wf (markPiecesDone len s).
Proof.
  intros Hwf Hlen. unfold markPiecesDone, markPrefixDone. cbv zeta.
  case_bool_decide as Htl.
  { apply wf_with_bitfieldMan; [done|apply wf_setAllBit, Hwf|done]. }
  case_bool_decide as Hz.
  { assert (wf (with_bitfieldMan BitfieldMan.clearAllBit s)) as [Hb _ _ _ Hl Hc].
    { apply wf_with_bitfieldMan; [done|apply wf_clearAllBit, Hwf|done]. }
    constructor; simpl; try done; unfold keys; simpl; constructor. }
  set (numPiece := Z.to_nat (len / _)).
  set (s1 := if bool_decide (0 < numPiece)%nat then _ else s).
  assert (wf s1 ∧ BitfieldMan.blocks (_bitfieldMan s1) = BitfieldMan.blocks (_bitfieldMan s))
    as [Hwf1 Hn1].
  { subst s1. case_bool_decide; [|done]. split; [|done].
    apply wf_with_bitfieldMan; [done|apply wf_setBitRange, Hwf|done]. }
  case_bool_decide; [|done].
  match goal with |- wf (let '(h, s2) := alloc ?p s1 in _) =>
    change (wf (addUsedPiece (alloc p s1).1 (alloc p s1).2)); apply wf_alloc_add end;
    [done| |]; rewrite ?(proj1 (completeBlocks_index _ _)), ?(proj2 (completeBlocks_index _ _));
    simpl.
  - apply getBlockLengthAt_nonneg, Hwf.
  - rewrite Hn1. by apply numPiece_lt.
Qed.

Lemma linear_insert_Permutation st h (l : list handle) :
  linear_insert st h l ≡ₚ h :: l.
Proof.
  induction l as [|x l IH]; simpl; [done|].
  destruct (handle_lt st h (deref st x)); [done|].
  rewrite IH. apply Permutation_swap.
Qed.

Lemma linear_insert_sorted st h (l : list handle) :
  StronglySorted (handle_le st) l → StronglySorted (handle_le st) (linear_insert st h l).
Proof.
  induction 1 as [|x l Hs IH Hall]; simpl; [repeat constructor|].
  unfold handle_lt, Piece.lt. case_bool_decide as Hlt.
  - constructor; [by constructor|]. constructor; [unfold handle_le; lia|].
    eapply Forall_impl; [exact Hall|]. unfold handle_le. intros y Hy. simpl in Hy. lia.
  - constructor; [done|]. rewrite linear_insert_Permutation.
    constructor; [unfold handle_le; lia|done].
Qed.

Lemma sort_Permutation st (l : list handle) : sort st l ≡ₚ l.
Proof.
  unfold sort.
  assert (∀ sorted, foldl (λ sorted h, linear_insert st h sorted) sorted l ≡ₚ sorted ++ l)
    as Hgen.
  { induction l as [|h l IH]; intros sorted; simpl; [by rewrite app_nil_r|].
    rewrite IH, linear_insert_Permutation. simpl. apply Permutation_middle. }
  apply (Hgen []).
Qed.

Lemma StronglySorted_sort st (l : list handle) : StronglySorted (handle_le st) (sort st l).
Proof.
  unfold sort.
  assert (∀ sorted, StronglySorted (handle_le st) sorted →
            StronglySorted (handle_le st)
              (foldl (λ sorted h, linear_insert st h sorted) sorted l)) as Hgen.
  { induction l as [|h l IH]; intros sorted Hs; simpl; [done|].
    by apply IH, linear_insert_sorted. }
  apply Hgen. constructor.
Qed.

Lemma wf_addInFlightPiece pieces s :
  wf s → forallb (handle_ok s) pieces = true → wf (addInFlightPiece pieces s).
Proof.
  intros [Hb Hh Hs Hr Hl Hc] Hok. unfold keys in *.
  rewrite forallb_forall in Hok.
  assert (Forall (λ h, h < length (store s) ∧ key (store s) h < BitfieldMan.blocks (_bitfieldMan s))%nat
                 (_usedPieces s ++ pieces)) as Hall.
  { apply Forall_app. split.
    - rewrite Forall_fmap in Hr. apply Forall_and. by split.
    - apply Forall_forall. intros h Hin%list_elem_of_In%Hok.
      unfold handle_ok in Hin. apply andb_true_iff in Hin as [?%bool_decide_eq_true ?%bool_decide_eq_true].
      done. }
  rewrite <- (sort_Permutation (store s)) in Hall.
  apply Forall_and in Hall as [Hall1 Hall2].
  constructor; simpl; unfold keys; simpl; try done.
  - apply (StronglySorted_fmap (key (store s)) (handle_le (store s)) le).
    + by intros x y.
    + apply StronglySorted_sort.
  - by rewrite Forall_fmap.
Qed.

Lemma wf_completeBlock piece block s :
  wf s → wf (with_store (alter (Piece.completeBlock block) piece) s).
Proof.
  intros [Hb Hh Hs Hr Hl Hc]. unfold keys in *.
  assert (∀ l : list handle,
            key (alter (Piece.completeBlock block) piece (store s)) <$> l
            = key (store s) <$> l) as Hk.
  { intros l. apply list_fmap_ext. intros ???. by apply key_alter. }
  constructor; simpl; unfold keys; simpl; rewrite ?Hk; try done.
  - by rewrite length_alter.
  - apply Forall_alter; [done|]. by intros.
Qed.

Section WfExec.
Context `{PieceSelector}.

Lemma wf_getMissingPiece rnd bf s : wf s → wf (getMissingPiece rnd bf s).2.
Proof.
  intros Hwf. unfold getMissingPiece.
  destruct (getMissingPieceIndex rnd bf s) as [index|] eqn:Hsel; [|done].
  apply wf_checkOutPiece; [done|]. by apply getMissingPieceIndex_Some in Hsel as [? _].
Qed.

Lemma wf_exec c s : wf s → call_ok s c = true → wf (exec c s).
Proof.
  intros Hwf Hok.
  destruct c; simpl in *; try done;
    try (by apply wf_with_haves);
    try (by apply wf_with_pieceStatMan; [|apply length_imap]);
    try (by apply wf_with_wallclock).
  - by apply wf_getMissingPiece.
  - by apply wf_getMissingPiece.
  - unfold getMissingFastPiece. destruct (_ && _); [|done]. by apply wf_getMissingPiece.
  - unfold getMissingFastPiece_excluded. destruct (_ && _); [|done].
    by apply wf_getMissingPiece.
  - unfold getSparseMissingUnusedPiece.
    destruct (BitfieldMan.getSparseMissingUnusedIndex _ _) as [index|] eqn:Hsel; [|done].
    apply wf_checkOutPiece; [done|].
    by apply getSparseMissingUnusedIndex_Some in Hsel as [? _].
  - unfold getMissingPiece_index. destruct (_ || _); [done|].
    apply wf_checkOutPiece; [done|]. by apply bool_decide_eq_true in Hok.
  - apply wf_checkOutPiece; [done|]. by apply bool_decide_eq_true in Hok.
  - by apply wf_getPiece.
  - by apply wf_deleteUsedPiece.
  - by apply wf_completePiece.
  - by apply wf_cancelPiece.
  - by apply wf_setupFileFilter.
  - apply wf_with_bitfieldMan; [done|apply wf_clearFilter, Hwf|done].
  - apply wf_with_pieceStatMan; [|apply length_imap].
    apply wf_with_bitfieldMan; [done|apply wf_setBitfield, Hwf|apply blocks_setBitfield].
  - apply wf_with_bitfieldMan; [done|apply wf_setAllBit, Hwf|done].
  - apply wf_markPiecesDone; [done|]. by apply bool_decide_eq_true in Hok.
  - apply wf_with_bitfieldMan; [done|apply wf_unsetBit, Hwf|done].
  - by apply wf_addInFlightPiece.
  - apply wf_alloc; [done|]. by apply bool_decide_eq_true in Hok.
  - by apply wf_completeBlock.
Qed.

Lemma wf_run cs : ∀ s, wf s → trace_ok call_ok cs s = true → wf (run cs s).
Proof.
  induction cs as [|c cs IH]; intros s Hwf Hok; simpl in *; [done|].
  apply andb_true_iff in Hok as [Hc Hcs]. apply IH; [|done]. by apply wf_exec.
Qed.

End WfExec.

Lemma wf_new ctx : 0 < getPieceLength ctx → 0 ≤ getTotalLength_ctx ctx → wf (new ctx).
Proof.
  intros Hbl Htl. constructor; simpl; unfold keys; simpl.
  - by apply wf_new_bitfieldMan.
  - constructor.
  - constructor.
  - constructor.
  - constructor.
  - unfold PieceStatMan.new, BitfieldMan.countBlock. by rewrite length_replicate.
Qed.

(** ** The advert queue *)

Local Open Scope Z_scope.

Lemma collectHaves_closed haves myCuid lastCheckTime : ∀ indexes,
  collectHaves haves myCuid lastCheckTime indexes
  = indexes ++ (getIndex <$> notBefore lastCheckTime (ofOthers myCuid haves)).
Proof.
  induction haves as [|have rest IH]; intros indexes; simpl.
  - by rewrite app_nil_r.
  - case_bool_decide as Hown; simpl; [apply IH|].
    case_bool_decide as Hold; simpl; [by rewrite app_nil_r|].
    by rewrite IH, <- app_assoc.
Qed.

(** An entry of another owner registered exactly at [lastCheckTime] is
    collected, and the walk goes on behind it. *)
Lemma getAdvertisedPieceIndexes_equal_time indexes myCuid lastCheckTime s have rest :
  _haves s = have :: rest → getCuid have ≠ myCuid →
  getRegisteredTime have = lastCheckTime →
  getAdvertisedPieceIndexes indexes myCuid lastCheckTime s
  = collectHaves rest myCuid lastCheckTime (indexes ++ [getIndex have]).
Proof.
  intros Hh Hown Ht. unfold getAdvertisedPieceIndexes. rewrite Hh. simpl.
  rewrite bool_decide_eq_false_2 by done.
  rewrite bool_decide_eq_false_2 by lia. done.
Qed.

(** C8 (as amended): [getAdvertisedPieceIndexes] appends, in queue order,
    the indexes of the entries of other owners up to, and without, the first
    such entry registered strictly before [lastCheckTime]: an entry
    registered exactly at [lastCheckTime] is still collected, and an entry of
    the caller neither contributes nor stops the walk.  So after
    [advertisePiece(own, i)] a collect with owner id [own] gives what it
    gave before. *)
Theorem getAdvertisedPieceIndexes_collects indexes myCuid lastCheckTime index s :
  getAdvertisedPieceIndexes indexes myCuid lastCheckTime s
  = indexes ++ (getIndex <$> notBefore lastCheckTime (ofOthers myCuid (_haves s)))
  ∧ getAdvertisedPieceIndexes indexes myCuid lastCheckTime
                              (advertisePiece myCuid index s)
    = getAdvertisedPieceIndexes indexes myCuid lastCheckTime s.
Proof.
  split; [apply collectHaves_closed|].
  unfold getAdvertisedPieceIndexes, advertisePiece. simpl.
  by rewrite bool_decide_eq_true_2.
Qed.

(** C8, the claim as the specification words it, fails: with one entry of
    owner 1 registered at time 10, a collect by owner 2 since time 10
    returns that entry's index, where a walk that stops at the first entry
    whose timestamp is <= [since] returns nothing. *)
Lemma getAdvertisedPieceIndexes_collects_equal_time :
  let s := advertisePiece 1 0 (with_wallclock 10 (new twoPieces)) in
  getAdvertisedPieceIndexes [] 2 10 s = [0%nat]
  ∧ collectSince_spec (_haves s) 2 10 [] = []
  ∧ getAdvertisedPieceIndexes [] 2 10 s ≠ collectSince_spec (_haves s) 2 10 [].
Proof. repeat split. discriminate. Qed.

(** ** [deleteUsedPiece], [completePiece], [cancelPiece] *)

Local Open Scope nat_scope.

Lemma bit_insert_false bm i : bit (<[i:=false]> bm) i = false.
Proof.
  destruct (decide (i < length bm)) as [?|?]; [by apply bit_insert_eq|].
  apply bit_ge. rewrite length_insert. lia.
Qed.

Lemma keys_with_usedPieces f s :
  keys (with_usedPieces f s) = key (store s) <$> f (_usedPieces s).
Proof. done. Qed.

Lemma eraseKey_absent st v (l : list handle) :
  v ∉ key st <$> l → eraseKey st v l = l.
Proof.
  induction l as [|h l IH]; simpl; [done|]. rewrite ?fmap_cons, not_elem_of_cons.
  intros [Hne Hnin]. rewrite bool_decide_eq_false_2 by done. by rewrite IH.
Qed.

(** In a container without two pieces of one index, erasing the index
    leaves no piece of it and keeps all the others. *)
Lemma eraseKey_keys st v (l : list handle) k :
  StronglySorted lt (key st <$> l) →
  k ∈ key st <$> eraseKey st v l ↔ k ∈ key st <$> l ∧ k ≠ v.
Proof.
  induction l as [|h l IH]; simpl.
  - intros _. split; [by intros ?%elem_of_nil|by intros [?%elem_of_nil _]].
  - rewrite ?fmap_cons. intros [Hall Hs]%StronglySorted_cons.
    case_bool_decide as Heq.
    + rewrite elem_of_cons. split.
      * intros Hk. split; [by right|]. intros ->.
        rewrite Forall_forall in Hall. specialize (Hall _ Hk). lia.
      * intros [[->|Hk] Hne]; done.
    + rewrite ?fmap_cons, !elem_of_cons, IH by done. split.
      * intros [->|[? ?]]; [split; [by left|done]|split; [by right|done]].
      * intros [[->|?] ?]; [by left|by right].
Qed.

Lemma isEndGame_unsetUseBit index s :
  isEndGame (with_bitfieldMan (BitfieldMan.unsetUseBit index) s) = isEndGame s.
Proof. done. Qed.

Lemma count_addPieceStatsAt index (c : PieceStatMan.t) j :
  index < length c →
  PieceStatMan.count (PieceStatMan.addPieceStatsAt index c) j
  = if bool_decide (j = index) then S (PieceStatMan.count c j) else PieceStatMan.count c j.
Proof.
  intros Hlt. unfold PieceStatMan.count, PieceStatMan.addPieceStatsAt, PieceStatMan.t in *.
  case_bool_decide as Heq.
  - subst j. rewrite list_lookup_alter_eq.
    destruct (lookup_lt_is_Some_2 c index Hlt) as [n Hn]. by rewrite Hn.
  - by rewrite list_lookup_alter_ne.
Qed.

(** C3 (as amended): [completePiece] of a null handle changes nothing.  Of
    a piece [p], it erases from the in-flight container the piece that
    compares equal to [p], the piece of [p]'s index; if all pieces are held
    then, this is all it does; otherwise it sets the have bit of the index,
    clears its in-use bit, leaves every other bit alone, raises the count of
    the index by one and no other count, and calls [resetDownloadStopTime]
    once exactly when [downloadFinished()] holds in the storage it leaves,
    whether or not it held before the call, and not at all otherwise.  Where
    the container had no two pieces of one index, no piece of the index is
    left in it. *)
Theorem completePiece_spec (ph : handle) (s : DefaultPieceStorage) :
  wf s → handle_ok s ph = true →
  let index := key (store s) ph in
  let s1 := with_usedPieces (eraseKey (store s) index) s in
  let s' := completePiece (Some ph) s in
  completePiece None s = s
  ∧ _usedPieces s' = eraseKey (store s) index (_usedPieces s)
  ∧ (StronglySorted lt (keys s) → index ∉ keys s')
  ∧ store s' = store s ∧ _haves s' = _haves s
  ∧ if allDownloadFinished s1 then s' = s1
    else hasPiece index s' = true
         ∧ isPieceUsed index s' = false
         ∧ (∀ j, j ≠ index → hasPiece j s' = hasPiece j s
                              ∧ isPieceUsed j s' = isPieceUsed j s)
         ∧ (∀ j, PieceStatMan.count (_pieceStatMan s') j
                 = if bool_decide (j = index)
                   then S (PieceStatMan.count (_pieceStatMan s) j)
                   else PieceStatMan.count (_pieceStatMan s) j)
         ∧ stopTimeResets (_downloadContext s')
           = if downloadFinished s'
             then S (stopTimeResets (_downloadContext s))
             else stopTimeResets (_downloadContext s).
Proof.
  intros Hwf Hok index s1 s'.
  apply andb_true_iff in Hok as [Hh%bool_decide_eq_true Hk%bool_decide_eq_true].
  fold index in Hk.
  assert (deleteUsedPiece (Some ph) s = s1) as Hdel
    by (apply deleteUsedPiece_used, Hwf).
  assert (s' = if allDownloadFinished s1 then s1
               else let s4 := addPieceStatsAt index
                                (with_bitfieldMan (BitfieldMan.unsetUseBit index)
                                   (with_bitfieldMan (BitfieldMan.setBit index) s1)) in
                    if downloadFinished s4
                    then with_downloadContext resetDownloadStopTime s4 else s4) as Hs'.
  { subst s'. unfold completePiece. rewrite Hdel. done. }
  clearbody s'. subst s'.
  split; [done|].
  assert (∀ s4, (if downloadFinished s4
                 then with_downloadContext resetDownloadStopTime s4 else s4)
                = with_downloadContext
                    (if downloadFinished s4 then resetDownloadStopTime else id) s4) as Hctx.
  { intros s4. destruct (downloadFinished s4); [done|by destruct s4 as [[] ? ? ? ? ? ? ?]]. }
  split; [by destruct (allDownloadFinished s1); [|rewrite Hctx]|].
  split.
  { intros Hst.
    assert (index ∉ keys s1) as Hnin.
    { unfold s1. rewrite keys_with_usedPieces. intros Hin.
      apply eraseKey_keys in Hin as [_ ?]; done. }
    by destruct (allDownloadFinished s1); [|rewrite Hctx]. }
  split; [by destruct (allDownloadFinished s1); [|rewrite Hctx]|].
  split; [by destruct (allDownloadFinished s1); [|rewrite Hctx]|].
  destruct (allDownloadFinished s1); [done|]. cbv zeta.
  rewrite Hctx. set (s4 := addPieceStatsAt _ _).
  assert (index < length (BitfieldMan.bitfield (_bitfieldMan s))) as Hlen.
  { destruct Hwf as [[] ? ? ? ? ?]. lia. }
  split; [|split; [|split; [|split]]].
  - unfold hasPiece, BitfieldMan.isBitSet. simpl. by apply bit_insert_eq.
  - unfold isPieceUsed, BitfieldMan.isUseBitSet. simpl. apply bit_insert_false.
  - intros j Hj. unfold hasPiece, isPieceUsed, BitfieldMan.isBitSet,
      BitfieldMan.isUseBitSet. simpl. by rewrite !bit_insert_ne.
  - intros j. simpl. apply count_addPieceStatsAt. destruct Hwf. lia.
  - change (downloadFinished (with_downloadContext _ s4)) with (downloadFinished s4).
    by destruct (downloadFinished s4).
Qed.

(** [cancelPiece] in an ordered container, branch by branch. *)
Lemma cancelPiece_shape (ph : handle) (s : DefaultPieceStorage) :
  wf s →
  let index := key (store s) ph in
  let s1 := with_bitfieldMan (BitfieldMan.unsetUseBit index) s in
  cancelPiece (Some ph) s
  = if negb (isEndGame s)
       && bool_decide (Piece.getCompletedLength (deref (store s) ph) = 0%Z)
    then with_usedPieces (eraseKey (store s) index) s1 else s1.
Proof.
  intros Hwf index s1. unfold cancelPiece. cbv zeta. fold index. fold s1.
  rewrite isEndGame_unsetUseBit. destruct (negb (isEndGame s)); [|done].
  cbn [andb]. case_bool_decide; [|done].
  rewrite deleteUsedPiece_used; [done|apply Hwf].
Qed.


(** Where [cancelPiece] leaves the container alone, the piece stays. *)
Lemma cancelPiece_keeps (ph : handle) (s : DefaultPieceStorage) :
  negb (isEndGame s) && bool_decide (Piece.getCompletedLength (deref (store s) ph) = 0%Z)
  = false →
  _usedPieces (cancelPiece (Some ph) s) = _usedPieces s.
Proof.
  intros Hc. unfold cancelPiece. cbv zeta. rewrite isEndGame_unsetUseBit.
  destruct (negb (isEndGame s)); [|done]. simpl in Hc. by rewrite Hc.
Qed.

(** ** [markPiecesDone(0)] *)

Local Open Scope Z_scope.

Lemma blocks_zero b :
  wf_bitfieldMan b → BitfieldMan.totalLength b = 0 → BitfieldMan.blocks b = 0%nat.
Proof.
  intros [Hbl Htl Hb _ _] Hz. rewrite Hb, Hz.
  rewrite Z.div_small by lia. done.
Qed.

(** C9: [markPiecesDone(0)] clears every have bit and empties the in-flight
    container, whatever progress its pieces had; the in-use bitmap, the
    store and the counts stay.  The branch for the general case would have
    changed nothing for length 0. *)
Theorem markPiecesDone_zero (s : DefaultPieceStorage) :
  wf s →
  let s' := markPiecesDone 0 s in
  (∀ i, hasPiece i s' = false)
  ∧ _usedPieces s' = []
  ∧ countInFlightPiece s' = 0%nat
  ∧ BitfieldMan.useBitfield (_bitfieldMan s') = BitfieldMan.useBitfield (_bitfieldMan s)
  ∧ store s' = store s
  ∧ _pieceStatMan s' = _pieceStatMan s
  ∧ markPrefixDone 0 s = s.
Proof.
  intros Hwf s'. subst s'. unfold markPiecesDone, markPrefixDone. cbv zeta.
  assert (Z.to_nat (0 / BitfieldMan.getBlockLength (_bitfieldMan s)) = 0%nat) as ->
    by by rewrite Zdiv_0_l.
  assert (Z.to_nat (0 `mod` BitfieldMan.getBlockLength (_bitfieldMan s) / Piece.BLOCK_LENGTH)
          = 0%nat) as -> by by rewrite Zmod_0_l.
  rewrite !(bool_decide_eq_false_2 (0 < 0)%nat) by lia.
  split; [|split; [|split; [|split; [|split; [|split]]]]]; try done;
    case_bool_decide as Htl; simpl; try done.
  - intros i. unfold hasPiece, BitfieldMan.isBitSet. simpl.
    rewrite (blocks_zero _ (wf_bm _ Hwf)) by done. by destruct i.
  - intros i. unfold hasPiece, BitfieldMan.isBitSet. simpl. apply bit_replicate_false.
  - pose proof (wf_range _ Hwf) as Hr. rewrite (blocks_zero _ (wf_bm _ Hwf)) in Hr by done.
    unfold keys in Hr. destruct (_usedPieces s) as [|h l]; [done|].
    apply Forall_cons_1 in Hr as [? _]. lia.
  - pose proof (wf_range _ Hwf) as Hr. rewrite (blocks_zero _ (wf_bm _ Hwf)) in Hr by done.
    unfold keys, countInFlightPiece in *. simpl. destruct (_usedPieces s) as [|h l]; [done|].
    apply Forall_cons_1 in Hr as [? _]. lia.
Qed.

(** ** [checkOutPiece] and [getPiece] *)

Local Open Scope nat_scope.

Lemma checkOutPiece_found index s h :
  findUsedPiece index s = Some h →
  checkOutPiece index s = (Some h, with_bitfieldMan (BitfieldMan.setUseBit index) s).
Proof.
  intros Hf. unfold checkOutPiece. cbv zeta.
  change (findUsedPiece index (with_bitfieldMan _ s)) with (findUsedPiece index s).
  by rewrite Hf.
Qed.

Lemma checkOutPiece_fresh index s :
  findUsedPiece index s = None →
  checkOutPiece index s
  = (Some (length (store s)),
     addUsedPiece (length (store s))
       (with_store (λ st, st ++ [Piece.new index
                                   (BitfieldMan.getBlockLengthAt index (_bitfieldMan s))])
          (with_bitfieldMan (BitfieldMan.setUseBit index) s))).
Proof.
  intros Hf. unfold checkOutPiece. cbv zeta.
  change (findUsedPiece index (with_bitfieldMan _ s)) with (findUsedPiece index s).
  by rewrite Hf.
Qed.

(** The keys of the container after a checkout: as before when a piece of
    the index was there, and with the index put in its place otherwise. *)
Lemma checkOutPiece_keys index s :
  wf s →
  let s' := (checkOutPiece index s).2 in
  _bitfieldMan s' = BitfieldMan.setUseBit index (_bitfieldMan s)
  ∧ if bool_decide (index ∈ keys s)
    then s' = with_bitfieldMan (BitfieldMan.setUseBit index) s
    else ∃ l1 l2, _usedPieces s = l1 ++ l2
           ∧ _usedPieces s' = l1 ++ length (store s) :: l2
           ∧ keys s' = (key (store s) <$> l1) ++ index :: (key (store s) <$> l2)
           ∧ Forall (λ h, key (store s) h < index) l1
           ∧ Forall (λ h, index < key (store s) h) l2.
Proof.
  intros Hwf s'. subst s'.
  pose proof (findUsedPiece_spec index s (wf_sorted _ Hwf)) as Hsp.
  destruct (findUsedPiece index s) as [h|] eqn:Hf.
  - rewrite (checkOutPiece_found _ _ _ Hf). simpl. split; [done|].
    destruct Hsp as [Hin <-]. rewrite bool_decide_eq_true_2; [done|].
    by apply list_elem_of_fmap_2.
  - rewrite (checkOutPiece_fresh _ _ Hf). rewrite bool_decide_eq_false_2 by done.
    set (p := Piece.new _ _).
    set (s1 := with_store _ _).
    assert (keys s1 = keys s) as Hk.
    { unfold keys, s1. simpl. apply keys_alloc, Hwf. }
    assert (key (store s1) (length (store s)) = index) as Hkn
      by apply key_alloc_new.
    destruct (addUsedPiece_split (length (store s)) s1) as (l1 & l2 & Hu & -> & H1 & H2).
    { rewrite Hk. apply Hwf. }
    simpl. split; [done|]. exists l1, l2. simpl in Hu.
    pose proof (wf_handles _ Hwf) as Hh. rewrite Hu in Hh.
    apply Forall_app in Hh as [Hh1 Hh2].
    assert (∀ l : list handle, Forall (λ h, h < length (store s)) l →
              Forall (λ h, key (store s1) h = key (store s) h) l) as Hsame.
    { intros l Hl. eapply Forall_impl; [exact Hl|]. intros h Hlt. by apply key_alloc. }
    split; [done|]. split; [done|]. split; [|split].
    + rewrite keys_with_usedPieces. cbv beta. rewrite fmap_app, fmap_cons, Hkn.
      f_equal; [|f_equal]; apply list_fmap_ext; intros i h Hih.
      * apply key_alloc. rewrite Forall_forall in Hh1. apply Hh1. by eapply list_elem_of_lookup_2.
      * apply key_alloc. rewrite Forall_forall in Hh2. apply Hh2. by eapply list_elem_of_lookup_2.
    + specialize (Hsame l1 Hh1). rewrite Forall_forall in H1, Hsame |- *.
      intros h Hin. rewrite <- Hsame by done. specialize (H1 h Hin). cbv beta in H1.
      by rewrite Hkn in H1.
    + specialize (Hsame l2 Hh2). rewrite Forall_forall in H2, Hsame |- *.
      intros h Hin. rewrite <- Hsame by done.
      assert (key (store s) h ≠ index) as Hne.
      { intros Heq. apply Hsp. unfold keys. rewrite Hu, <- Heq.
        apply list_elem_of_fmap_2, elem_of_app. by right. }
      specialize (H2 h Hin). cbv beta in H2. rewrite Hkn in H2.
      rewrite Hsame in H2 |- * by done. lia.
Qed.

(** A checkout returns a piece of the index that is in the container, with
    the in-use bit of the index set. *)
Lemma checkOutPiece_result index s :
  wf s → index < BitfieldMan.blocks (_bitfieldMan s) →
  ∃ h, (checkOutPiece index s).1 = Some h
    ∧ h ∈ _usedPieces (checkOutPiece index s).2
    ∧ key (store (checkOutPiece index s).2) h = index
    ∧ isPieceUsed index (checkOutPiece index s).2 = true.
Proof.
  intros Hwf Hi.
  assert (isPieceUsed index (checkOutPiece index s).2 = true) as Hused.
  { unfold isPieceUsed. rewrite (proj1 (checkOutPiece_keys index s Hwf)).
    unfold BitfieldMan.isUseBitSet. simpl. apply bit_insert_eq.
    destruct Hwf as [[] ? ? ? ? ?]. lia. }
  pose proof (findUsedPiece_spec index s (wf_sorted _ Hwf)) as Hsp.
  destruct (findUsedPiece index s) as [h|] eqn:Hf.
  - rewrite (checkOutPiece_found _ _ _ Hf) in Hused |- *. exists h. simpl.
    by destruct Hsp.
  - pose proof (checkOutPiece_keys index s Hwf) as [_ Hk].
    rewrite bool_decide_eq_false_2 in Hk by done.
    destruct Hk as (l1 & l2 & Hu & Hu' & _).
    exists (length (store s)). split; [by rewrite (checkOutPiece_fresh _ _ Hf)|].
    split; [rewrite Hu'; apply elem_of_app; right; left|]. split; [|done].
    rewrite (checkOutPiece_fresh _ _ Hf). apply key_alloc_new.
Qed.

Lemma entries_app index (k1 k2 : list nat) :
  length (List.filter (λ k, bool_decide (k = index)) (k1 ++ k2))
  = length (List.filter (λ k, bool_decide (k = index)) k1)
    + length (List.filter (λ k, bool_decide (k = index)) k2).
Proof. by rewrite List.filter_app, length_app. Qed.

Lemma entries_none index (l : list nat) :
  index ∉ l → length (List.filter (λ k, bool_decide (k = index)) l) = 0.
Proof.
  induction l as [|k l IH]; simpl; [done|]. rewrite not_elem_of_cons. intros [Hne Hnin].
  rewrite bool_decide_eq_false_2 by done. auto.
Qed.

Lemma entries_some index (l : list nat) :
  index ∈ l → 0 < length (List.filter (λ k, bool_decide (k = index)) l).
Proof.
  induction l as [|k l IH]; simpl; [by intros ?%elem_of_nil|].
  rewrite elem_of_cons. case_bool_decide; simpl; [lia|]. intros [?|?]; [done|auto].
Qed.

(** C5 (as amended): two calls of [checkOutPiece(i)] in a row return the
    same [Piece] object, the second changes nothing, the object is in the
    in-flight container with index [i], and the in-use bit of [i] is set.
    The calls add a piece of index [i] only when there was none: the
    container has exactly one afterwards when it had at most one before,
    and as many as before otherwise. *)
Theorem checkOutPiece_twice (index : nat) (s : DefaultPieceStorage) :
  wf s → index < BitfieldMan.blocks (_bitfieldMan s) →
  let r1 := checkOutPiece index s in
  let r2 := checkOutPiece index r1.2 in
  r2.1 = r1.1
  ∧ r2.2 = r1.2
  ∧ (∃ h, r1.1 = Some h ∧ h ∈ _usedPieces r2.2 ∧ key (store r2.2) h = index)
  ∧ isPieceUsed index r2.2 = true
  ∧ entriesOf index r2.2 = Nat.max 1 (entriesOf index s).
Proof.
  intros Hwf Hi r1 r2.
  pose proof (wf_checkOutPiece index s Hwf Hi) as Hwf1. fold r1 in Hwf1.
  destruct (checkOutPiece_result index s Hwf Hi) as (h & Hr & Hin & Hkey & Hused).
  fold r1 in Hr, Hin, Hkey, Hused.
  assert (_bitfieldMan r1.2 = BitfieldMan.setUseBit index (_bitfieldMan s)) as Hbm
    by apply (checkOutPiece_keys index s Hwf).
  assert (findUsedPiece index r1.2 = Some h) as Hf2.
  { pose proof (findUsedPiece_spec index r1.2 (wf_sorted _ Hwf1)) as Hsp.
    destruct (findUsedPiece index r1.2) as [h'|] eqn:Hf.
    2: { exfalso. apply Hsp. rewrite <- Hkey. by apply list_elem_of_fmap_2. }
    destruct Hsp as [Hin' Hkey']. f_equal.
    pose proof (checkOutPiece_keys index s Hwf) as [_ Hk]. fold r1 in Hk.
    pose proof (findUsedPiece_spec index s (wf_sorted _ Hwf)) as Hsp0.
    case_bool_decide as Hmem.
    - destruct (findUsedPiece index s) as [h0|] eqn:Hf0; [|done].
      pose proof (checkOutPiece_found _ _ _ Hf0) as Hc. fold r1 in Hc.
      rewrite Hc in Hr, Hf. simpl in Hr, Hf. change (findUsedPiece index s = Some h') in Hf.
      congruence.
    - destruct Hk as (l1 & l2 & Hu & Hu' & Hks & H1 & H2).
      destruct (findUsedPiece index s) as [h0|] eqn:Hf0.
      { exfalso. apply Hmem. destruct Hsp0 as [? <-]. by apply list_elem_of_fmap_2. }
      pose proof (checkOutPiece_fresh _ _ Hf0) as Hc. fold r1 in Hc.
      assert (h = length (store s)) as -> by (rewrite Hc in Hr; simpl in Hr; congruence).
      rewrite Hu' in Hin'. apply elem_of_app in Hin' as [Hin'|[->|Hin']%elem_of_cons];
        [exfalso| done |exfalso].
      + pose proof (wf_handles _ Hwf) as Hh. rewrite Hu in Hh.
        apply Forall_app in Hh as [Hh _].
        rewrite Forall_forall in Hh, H1. specialize (Hh _ Hin'). specialize (H1 _ Hin').
        rewrite Hc in Hkey'. simpl in Hkey'. rewrite key_alloc in Hkey' by done. lia.
      + pose proof (wf_handles _ Hwf) as Hh. rewrite Hu in Hh.
        apply Forall_app in Hh as [_ Hh].
        rewrite Forall_forall in Hh, H2. specialize (Hh _ Hin'). specialize (H2 _ Hin').
        rewrite Hc in Hkey'. simpl in Hkey'. rewrite key_alloc in Hkey' by done. lia. }
  assert (r2 = (Some h, r1.2)) as Hr2.
  { subst r2. rewrite (checkOutPiece_found _ _ _ Hf2). f_equal.
    destruct r1.2 as [c b u hv ps e st w]. simpl in Hbm. subst b.
    unfold with_bitfieldMan, BitfieldMan.setUseBit, BitfieldMan.set_useBitfield. simpl.
    by rewrite list_insert_insert_eq. }
  rewrite Hr2, Hr. simpl.
  split; [done|]. split; [done|]. split; [by exists h|]. split; [done|].
  pose proof (checkOutPiece_keys index s Hwf) as [_ Hk]. fold r1 in Hk.
  unfold entriesOf. case_bool_decide as Hmem.
  - rewrite Hk. change (keys (with_bitfieldMan _ s)) with (keys s).
    pose proof (entries_some _ _ Hmem). lia.
  - destruct Hk as (l1 & l2 & Hu & Hu' & -> & H1 & H2).
    rewrite (entries_none _ _ Hmem).
    rewrite entries_app. simpl. rewrite bool_decide_eq_true_2 by done. simpl.
    rewrite !entries_none; [done| |].
    + apply not_elem_of_keys_above. by eapply Forall_impl; [exact H2|].
    + apply not_elem_of_keys_below. by eapply Forall_impl; [exact H1|].
Qed.

(** C10: [getPiece] never changes the storage: the download context, the
    bitmaps, the in-flight container, the counts, the advert queue and the
    end-game threshold are what they were, and so is every existing [Piece]
    object, whatever the index; all the call may do is create one object,
    which it inserts nowhere.  Outside its range test it returns the null
    handle and creates nothing.  For an index that passes the test it
    returns the in-flight piece of the index when there is one, and
    otherwise a new piece of that index and length whose blocks are all
    complete when the have bit of the index is set and all empty when it is
    not. *)
Theorem getPiece_spec (index : nat) (s : DefaultPieceStorage) :
  let r := getPiece index s in
  (r.2 = s ∨ ∃ created, r.2 = with_store (λ st, st ++ [created]) s)
  ∧ (¬ (Z.of_nat index ≤ BitfieldMan.getMaxIndex (_bitfieldMan s))%Z → r = (None, s))
  ∧ (wf s →
     (Z.of_nat index ≤ BitfieldMan.getMaxIndex (_bitfieldMan s))%Z →
     if bool_decide (index ∈ keys s)
     then r.2 = s ∧ ∃ h, r.1 = Some h ∧ h ∈ _usedPieces s ∧ key (store s) h = index
     else r.1 = Some (length (store s))
          ∧ r.2
            = with_store
                (λ st, st ++ [Piece.mk index
                                (BitfieldMan.getBlockLengthAt index (_bitfieldMan s))
                                (replicate
                                   (Z.to_nat
                                      ((BitfieldMan.getBlockLengthAt index (_bitfieldMan s)
                                        + Piece.BLOCK_LENGTH - 1) / Piece.BLOCK_LENGTH))
                                   (hasPiece index s))])
                s).
Proof.
  intros r. subst r. unfold getPiece.
  case_bool_decide as Hrange.
  2: { split; [by left|]. split; [done|]. intros _ Hr. lia. }
  split; [|split; [intros Hr; lia|]].
  - destruct (findUsedPiece index s); [by left|right]. by eexists.
  - intros Hwf _.
    pose proof (findUsedPiece_spec index s (wf_sorted _ Hwf)) as Hsp.
    destruct (findUsedPiece index s) as [h|] eqn:Hf.
    + destruct Hsp as [Hin Hkey].
      rewrite bool_decide_eq_true_2 by (rewrite <- Hkey; by apply list_elem_of_fmap_2).
      split; [done|by exists h].
    + rewrite bool_decide_eq_false_2 by done. simpl.
      split; [done|]. unfold with_store. do 3 f_equal.
      destruct (hasPiece index s); [|done].
      unfold Piece.setAllBlock, Piece.new. simpl. by rewrite length_replicate.
Qed.

(** Outside its range test [getPiece] returns the null handle and changes
    nothing. *)
Lemma getPiece_out_of_range (index : nat) (s : DefaultPieceStorage) :
  ¬ (Z.of_nat index ≤ BitfieldMan.getMaxIndex (_bitfieldMan s))%Z →
  getPiece index s = (None, s).
Proof. intros Hr. unfold getPiece. rewrite bool_decide_eq_false_2; [done|]. lia. Qed.

(** ** [getMissingPiece] *)

Section GetMissingPiece.
Context `{PieceSelector}.

Lemma existsb_false_bits (l : list bool) i :
  existsb (λ x : bool, x) l = false → bit l i = false.
Proof.
  intros Hex. unfold bit. destruct (l !! i) as [[]|] eqn:Hl; try done.
  apply list_elem_of_lookup_2, list_elem_of_In in Hl.
  assert (existsb (λ x : bool, x) l = true) as Ht by (apply existsb_exists; eauto).
  congruence.
Qed.

(** C4: [getMissingPiece(peerBitmap)] picks among the pieces the peer has
    that are missing and pass the filter, all of them when
    [countMissingBlock() <= endGamePieceNum], and only those not in use
    otherwise.  When it returns a piece, that piece is the checkout of such
    an index: it is in the in-flight container and the in-use bit of its
    index is set.  It returns the null handle only when there is no such
    index, and changes nothing then. *)
Theorem getMissingPiece_spec (rnd : nat) (bf : list bool) (s : DefaultPieceStorage) :
  wf s →
  let candidate i :=
    (i < BitfieldMan.blocks (_bitfieldMan s))%nat
    ∧ bit bf i = true
    ∧ hasPiece i s = false
    ∧ BitfieldMan.interesting (_bitfieldMan s) i = true
    ∧ ((BitfieldMan.countMissingBlock (_bitfieldMan s) ≤ _endGamePieceNum s)%nat
       ∨ isPieceUsed i s = false) in
  let r := getMissingPiece rnd bf s in
  match r.1 with
  | Some h =>
      ∃ i, candidate i ∧ r = checkOutPiece i s
           ∧ h ∈ _usedPieces r.2 ∧ key (store r.2) h = i
           ∧ isPieceUsed i r.2 = true
  | None => (∀ i, ¬ candidate i) ∧ r.2 = s
  end.
Proof.
  intros Hwf candidate r. subst r. unfold getMissingPiece.
  destruct (getMissingPieceIndex rnd bf s) as [index|] eqn:Hsel.
  - pose proof (getMissingPieceIndex_Some _ _ _ _ Hsel) as (Hi & Hb & Hh & Hint & Hu).
    destruct (checkOutPiece_result index s Hwf Hi) as (h & Hr & Hin & Hkey & Hused).
    rewrite Hr. exists index. repeat split; try done.
    unfold isEndGame in Hu. case_bool_decide; [by left|right; by apply Hu].
  - simpl. split; [|done]. intros i (Hi & Hb & Hh & Hint & Hu).
    unfold getMissingPieceIndex, BitfieldMan.getAllMissingIndexes,
      BitfieldMan.getAllMissingUnusedIndexes in Hsel.
    assert (bit (if isEndGame s
                 then BitfieldMan.missingIndexes (_bitfieldMan s) bf
                 else BitfieldMan.missingUnusedIndexes (_bitfieldMan s) bf) i = true)
      as Hcand.
    { unfold isEndGame. case_bool_decide as Heg.
      - apply bit_fmap_indexes. split; [done|]. unfold hasPiece in Hh.
        by rewrite Hb, Hh, Hint.
      - apply bit_fmap_indexes. split; [done|]. unfold hasPiece, isPieceUsed in *.
        destruct Hu as [?|Hu]; [done|]. by rewrite Hb, Hh, Hint, Hu. }
    destruct (isEndGame s).
    + destruct (existsb _ _) eqn:Hex.
      * apply (select_exhausted _ _ _ _ i) in Hsel; [congruence|done].
      * apply (existsb_false_bits _ i) in Hex. congruence.
    + destruct (existsb _ _) eqn:Hex.
      * apply (select_exhausted _ _ _ _ i) in Hsel; [congruence|done].
      * apply (existsb_false_bits _ i) in Hex. congruence.
Qed.

End GetMissingPiece.

(** ** Completed lengths *)

Local Open Scope Z_scope.

Lemma getCompletedLength_piece_nonneg p : 0 ≤ Piece.length p → 0 ≤ Piece.getCompletedLength p.
Proof.
  intros Hl. unfold Piece.getCompletedLength, Piece.BLOCK_LENGTH.
  apply Z.min_glb; lia.
Qed.

Lemma deref_length_nonneg st h :
  Forall (λ p, 0 ≤ Piece.length p) st → 0 ≤ Piece.length (deref st h).
Proof.
  intros Hall. unfold deref. destruct (st !! h) as [p|] eqn:Hp; simpl; [|done].
  rewrite Forall_forall in Hall. apply Hall. by eapply list_elem_of_lookup_2.
Qed.

Lemma sumZ_cons {A} (f : A → Z) x (l : list A) :
  sumZ (f <$> x :: l) = f x + sumZ (f <$> l).
Proof. done. Qed.

Lemma sumZ_fmap_nonneg {A} (f : A → Z) (l : list A) :
  (∀ x, 0 ≤ f x) → 0 ≤ sumZ (f <$> l).
Proof.
  intros Hf. induction l as [|x l IH]; [done|]. rewrite sumZ_cons.
  specialize (Hf x). lia.
Qed.

(** While the sum stays below [2^31], the [int] accumulator holds it. *)
Lemma accumulate_exact st (l : list handle) :
  Forall (λ p, 0 ≤ Piece.length p) st →
  ∀ acc, 0 ≤ acc →
  acc + sumZ ((λ h, Piece.getCompletedLength (deref st h)) <$> l) < 2 ^ 31 →
  foldl (λ acc h,
           Cxx.to_int (Cxx.to_u64 (Cxx.to_u64 acc
                                   + Piece.getCompletedLength (deref st h))))
        acc l
  = acc + sumZ ((λ h, Piece.getCompletedLength (deref st h)) <$> l).
Proof.
  intros Hst. induction l as [|h l IH]; intros acc Hacc Hsum.
  { simpl in *. lia. }
  rewrite sumZ_cons in Hsum |- *. cbn [foldl].
  assert (0 ≤ Piece.getCompletedLength (deref st h)) as Hh
    by by apply getCompletedLength_piece_nonneg, deref_length_nonneg.
  assert (0 ≤ sumZ ((λ h0, Piece.getCompletedLength (deref st h0)) <$> l)) as Hrest.
  { apply sumZ_fmap_nonneg. intros h'.
    by apply getCompletedLength_piece_nonneg, deref_length_nonneg. }
  rewrite (to_u64_small acc) by lia.
  rewrite to_u64_small by lia.
  rewrite to_int_small by lia.
  rewrite IH by lia. lia.
Qed.

Lemma inFlightSum_nonneg s : wf s → 0 ≤ inFlightSum s.
Proof.
  intros Hwf. unfold inFlightSum. apply sumZ_fmap_nonneg. intros h.
  apply getCompletedLength_piece_nonneg, deref_length_nonneg, Hwf.
Qed.

Lemma getInFlightPieceCompletedLength_exact s :
  wf s → inFlightSum s < 2 ^ 31 → getInFlightPieceCompletedLength s = inFlightSum s.
Proof.
  intros Hwf Hsum. unfold getInFlightPieceCompletedLength.
  rewrite accumulate_exact; [|apply Hwf|done|by rewrite Z.add_0_l].
  rewrite Z.add_0_l. apply to_u64_small.
  pose proof (inFlightSum_nonneg s Hwf). unfold inFlightSum in *. lia.
Qed.

Lemma sumLengths_mono b (sel1 sel2 : nat → bool) :
  wf_bitfieldMan b → (∀ i, sel1 i = true → sel2 i = true) →
  0 ≤ BitfieldMan.sumLengths b sel1 ≤ BitfieldMan.sumLengths b sel2.
Proof.
  intros Hb Hsel. unfold BitfieldMan.sumLengths.
  induction (BitfieldMan.indexes b) as [|i l IH]; [simpl; lia|].
  rewrite !sumZ_cons.
  pose proof (getBlockLengthAt_nonneg i b Hb).
  specialize (Hsel i).
  destruct (sel1 i), (sel2 i); first [lia | by specialize (Hsel eq_refl)].
Qed.

(** The cap of [getCompletedLength] holds whatever the sum is. *)
Lemma getCompletedLength_le_total s : getCompletedLength s ≤ getTotalLength s.
Proof. unfold getCompletedLength. cbv zeta. case_bool_decide; lia. Qed.

(** C6 (as amended): [getCompletedLength()] never exceeds
    [getTotalLength()].  While the completed lengths of the in-flight pieces
    add up to less than [2^31], so that the [int] accumulator holds their
    sum, [getCompletedLength()] is the completed length of the have bitmap
    plus that sum, capped at the total length, and
    [getFilteredCompletedLength()] is the filtered completed length of the
    have bitmap plus that sum, with no cap. *)
Theorem getCompletedLength_spec (s : DefaultPieceStorage) :
  getCompletedLength s ≤ getTotalLength s
  ∧ (wf s → inFlightSum s < 2 ^ 31 →
     BitfieldMan.getCompletedLength (_bitfieldMan s) + inFlightSum s < 2 ^ 64 →
     getCompletedLength s
     = Z.min (getTotalLength s)
             (BitfieldMan.getCompletedLength (_bitfieldMan s) + inFlightSum s)
     ∧ getFilteredCompletedLength s
       = BitfieldMan.getFilteredCompletedLength (_bitfieldMan s) + inFlightSum s).
Proof.
  split; [apply getCompletedLength_le_total|]. intros Hwf Hint Hu64.
  pose proof (inFlightSum_nonneg s Hwf) as Hnn.
  pose proof (sumLengths_mono (_bitfieldMan s)
                (λ i, BitfieldMan.isBitSet i (_bitfieldMan s)
                      && BitfieldMan.interesting (_bitfieldMan s) i)
                (λ i, BitfieldMan.isBitSet i (_bitfieldMan s)) (wf_bm _ Hwf)) as Hmono.
  fold (BitfieldMan.getFilteredCompletedLength (_bitfieldMan s)) in Hmono.
  fold (BitfieldMan.getCompletedLength (_bitfieldMan s)) in Hmono.
  destruct Hmono as [Hf0 Hfc]; [by intros i [? _]%andb_true_iff|].
  unfold getCompletedLength, getFilteredCompletedLength. cbv zeta.
  rewrite getInFlightPieceCompletedLength_exact by done.
  rewrite !to_u64_small by lia.
  split; [|done]. case_bool_decide; lia.
Qed.

(** C6, the claim as stated, fails for the filtered length: after piece 0 of
    two pieces of 32 KiB is checked out, a worker completes its first block,
    and all pieces are marked done, [getFilteredCompletedLength()] is
    65536 + 16384 where [getFilteredTotalLength()] is 65536. *)
Lemma getFilteredCompletedLength_exceeds_total :
  let s := run [CheckOutPiece 0; CompleteBlock 0 0; MarkAllPiecesDone]
               (new twoPieces) in
  getFilteredCompletedLength s = 81920
  ∧ getFilteredTotalLength s = 65536
  ∧ getCompletedLength s = 65536.
Proof. vm_compute. done. Qed.

(** ** Held and in use *)

Local Open Scope nat_scope.

Lemma noneUsed_bits s i : noneUsed s = true → isPieceUsed i s = false.
Proof.
  unfold noneUsed, isPieceUsed, BitfieldMan.isUseBitSet, bit. intros Hall.
  destruct (_ !! i) as [[]|] eqn:Hl; try done.
  rewrite forallb_forall in Hall.
  apply list_elem_of_lookup_2, list_elem_of_In, Hall in Hl. done.
Qed.

Lemma isAllBitSet_bits b i :
  BitfieldMan.isAllBitSet b = true → i < BitfieldMan.blocks b →
  BitfieldMan.isBitSet i b = true.
Proof.
  unfold BitfieldMan.isAllBitSet, BitfieldMan.indexes. rewrite forallb_forall.
  intros Hall Hi. apply Hall, list_elem_of_In, elem_of_seq. lia.
Qed.

(** A storage whose have and in-use bitmaps are those of an exclusive
    storage is exclusive. *)
Lemma exclusive_same s s' :
  exclusive s →
  BitfieldMan.bitfield (_bitfieldMan s') = BitfieldMan.bitfield (_bitfieldMan s) →
  BitfieldMan.useBitfield (_bitfieldMan s') = BitfieldMan.useBitfield (_bitfieldMan s) →
  exclusive s'.
Proof.
  intros Hex Hb Hu i. specialize (Hex i).
  unfold hasPiece, isPieceUsed, BitfieldMan.isBitSet, BitfieldMan.isUseBitSet in *.
  by rewrite Hb, Hu.
Qed.

Lemma exclusive_noneUsed s s' :
  noneUsed s = true →
  BitfieldMan.useBitfield (_bitfieldMan s') = BitfieldMan.useBitfield (_bitfieldMan s) →
  exclusive s'.
Proof.
  intros Hn Hu i. pose proof (noneUsed_bits s i Hn) as Hi.
  unfold isPieceUsed, BitfieldMan.isUseBitSet in *. rewrite Hu, Hi.
  apply andb_false_r.
Qed.

Lemma exclusive_checkOutPiece index s :
  wf s → exclusive s → hasPiece index s = false → exclusive (checkOutPiece index s).2.
Proof.
  intros Hwf Hex Hh i. specialize (Hex i).
  unfold hasPiece, isPieceUsed in *. rewrite (proj1 (checkOutPiece_keys index s Hwf)).
  unfold BitfieldMan.isBitSet, BitfieldMan.isUseBitSet in *. simpl.
  destruct (decide (i = index)) as [->|Hne]; [by rewrite Hh|].
  by rewrite bit_insert_ne.
Qed.

Lemma deleteUsedPiece_shape piece s :
  ∃ l, deleteUsedPiece piece s = with_usedPieces (λ _, l) s.
Proof.
  assert (s = with_usedPieces (λ _, _usedPieces s) s) as Hs by by destruct s.
  destruct piece as [ph|]; [|by eexists]. unfold deleteUsedPiece. cbv zeta.
  destruct (_ !! _); [|by eexists]. destruct (handle_eq _ _ _); by eexists.
Qed.

Lemma deleteUsedPiece_bitfieldMan piece s :
  _bitfieldMan (deleteUsedPiece piece s) = _bitfieldMan s.
Proof. destruct (deleteUsedPiece_shape piece s) as [l ->]. done. Qed.

Lemma completePiece_bits ph s :
  let index := key (store s) ph in
  let s' := completePiece (Some ph) s in
  (allDownloadFinished s = true ∧ s' = deleteUsedPiece (Some ph) s)
  ∨ (allDownloadFinished s = false
     ∧ BitfieldMan.bitfield (_bitfieldMan s')
       = <[index:=true]> (BitfieldMan.bitfield (_bitfieldMan s))
     ∧ BitfieldMan.useBitfield (_bitfieldMan s')
       = <[index:=false]> (BitfieldMan.useBitfield (_bitfieldMan s))
     ∧ _usedPieces s' = _usedPieces (deleteUsedPiece (Some ph) s)
     ∧ store s' = store s).
Proof.
  intros index s'. subst s'. unfold completePiece.
  destruct (deleteUsedPiece_shape (Some ph) s) as [l ->].
  change (allDownloadFinished (with_usedPieces _ s)) with (allDownloadFinished s).
  destruct (allDownloadFinished s); [by left|right]. split; [done|]. cbv zeta.
  set (s4 := addPieceStatsAt _ _).
  by destruct (downloadFinished s4).
Qed.

Lemma exclusive_set_unset s s' index :
  exclusive s →
  BitfieldMan.bitfield (_bitfieldMan s')
  = <[index:=true]> (BitfieldMan.bitfield (_bitfieldMan s)) →
  BitfieldMan.useBitfield (_bitfieldMan s')
  = <[index:=false]> (BitfieldMan.useBitfield (_bitfieldMan s)) →
  exclusive s'.
Proof.
  intros Hex Hb Hu i. specialize (Hex i).
  unfold hasPiece, isPieceUsed, BitfieldMan.isBitSet, BitfieldMan.isUseBitSet in *.
  rewrite Hb, Hu. destruct (decide (i = index)) as [->|Hne].
  - rewrite bit_insert_false. apply andb_false_r.
  - by rewrite !bit_insert_ne.
Qed.

Lemma exclusive_unset s s' index :
  exclusive s →
  BitfieldMan.bitfield (_bitfieldMan s') = BitfieldMan.bitfield (_bitfieldMan s) →
  BitfieldMan.useBitfield (_bitfieldMan s')
  = <[index:=false]> (BitfieldMan.useBitfield (_bitfieldMan s)) →
  exclusive s'.
Proof.
  intros Hex Hb Hu i. specialize (Hex i).
  unfold hasPiece, isPieceUsed, BitfieldMan.isBitSet, BitfieldMan.isUseBitSet in *.
  rewrite Hb, Hu. destruct (decide (i = index)) as [->|Hne].
  - rewrite bit_insert_false. apply andb_false_r.
  - by rewrite !bit_insert_ne.
Qed.

Lemma cancelPiece_bits ph s :
  let index := key (store s) ph in
  let s' := cancelPiece (Some ph) s in
  BitfieldMan.bitfield (_bitfieldMan s') = BitfieldMan.bitfield (_bitfieldMan s)
  ∧ BitfieldMan.useBitfield (_bitfieldMan s')
    = <[index:=false]> (BitfieldMan.useBitfield (_bitfieldMan s)).
Proof.
  intros index s'. subst s'. unfold cancelPiece. cbv zeta.
  destruct (negb _); [|done]. case_bool_decide; [|done].
  by rewrite deleteUsedPiece_bitfieldMan.
Qed.

Lemma setupFileFilter_bits s :
  BitfieldMan.bitfield (_bitfieldMan (setupFileFilter s))
  = BitfieldMan.bitfield (_bitfieldMan s)
  ∧ BitfieldMan.useBitfield (_bitfieldMan (setupFileFilter s))
    = BitfieldMan.useBitfield (_bitfieldMan s)
  ∧ _usedPieces (setupFileFilter s) = _usedPieces s
  ∧ store (setupFileFilter s) = store s.
Proof.
  unfold setupFileFilter. destruct (forallb _ _); [done|]. simpl.
  generalize (getFileEntries (_downloadContext s)). intros l. revert s.
  induction l as [|e l IH]; intros s; simpl; [done|].
  destruct (IH (if isRequested e
                then with_bitfieldMan (BitfieldMan.addFilter (getOffset e) (getLength e)) s
                else s)) as (-> & -> & -> & ->).
  by destruct (isRequested e).
Qed.

Lemma markPrefixDone_useBitfield len s :
  BitfieldMan.useBitfield (_bitfieldMan (markPrefixDone len s))
  = BitfieldMan.useBitfield (_bitfieldMan s).
Proof.
  unfold markPrefixDone. cbv zeta.
  repeat case_bool_decide; done.
Qed.

Lemma bit_setRange (bf : list bool) lo n i :
  bit (foldr (λ i bf, <[i:=true]> bf) bf (seq lo n)) i = true →
  bit bf i = true ∨ (lo ≤ i < lo + n)%nat.
Proof.
  revert lo. induction n as [|n IH]; intros lo; simpl; [by left|].
  destruct (decide (lo = i)) as [->|Hne]; [right; lia|].
  rewrite bit_insert_ne by done. intros [?|?]%IH; [by left|right; lia].
Qed.

(** [markPiecesDone] in its last branch sets the have bits of the pieces it
    covers in full and of no other piece. *)
Lemma markPrefixDone_hasPiece len s i :
  hasPiece i (markPrefixDone len s) = true →
  hasPiece i s = true
  ∨ (i < Z.to_nat (len / BitfieldMan.getBlockLength (_bitfieldMan s)))%nat.
Proof.
  unfold markPrefixDone. cbv zeta.
  set (numPiece := Z.to_nat (len / _)).
  assert (hasPiece i (if bool_decide (0 < numPiece)%nat
                      then with_bitfieldMan (BitfieldMan.setBitRange 0 (numPiece - 1)) s
                      else s) = true →
          hasPiece i s = true ∨ (i < numPiece)%nat) as Hs1.
  { case_bool_decide as Hn; [|by left].
    unfold hasPiece, BitfieldMan.isBitSet, with_bitfieldMan, BitfieldMan.setBitRange,
      BitfieldMan.set_bitfield. cbn [_bitfieldMan BitfieldMan.bitfield].
    intros [?|?]%bit_setRange; [by left|]. right. lia. }
  by repeat case_bool_decide.
Qed.

Section Invariants.
Context `{PieceSelector}.

Lemma getMissingPiece_cases rnd bf s : checkout_or_same s (getMissingPiece rnd bf s).2.
Proof.
  unfold getMissingPiece.
  destruct (getMissingPieceIndex rnd bf s) as [index|] eqn:Hsel; [right|by left].
  apply getMissingPieceIndex_Some in Hsel as (? & _ & ? & _). by exists index.
Qed.

(** The selecting calls check out a missing piece or change nothing. *)
Lemma selecting_cases c s :
  exclusive_ok s c = true →
  match c with
  | GetMissingPiece _ _ | GetMissingPieceExcluded _ _ _ | GetMissingFastPiece _ _
  | GetMissingFastPieceExcluded _ _ _ | GetSparseMissingUnusedPiece _
  | GetMissingPieceIndex _ | CheckOutPiece _ => checkout_or_same s (exec c s)
  | _ => True
  end.
Proof.
  intros Hok. destruct c; try done; simpl.
  - apply getMissingPiece_cases.
  - apply getMissingPiece_cases.
  - unfold getMissingFastPiece. destruct (_ && _); [|by left]. apply getMissingPiece_cases.
  - unfold getMissingFastPiece_excluded. destruct (_ && _); [|by left].
    apply getMissingPiece_cases.
  - unfold getSparseMissingUnusedPiece.
    destruct (BitfieldMan.getSparseMissingUnusedIndex _ _) as [index|] eqn:Hsel;
      [right|by left].
    apply getSparseMissingUnusedIndex_Some in Hsel as (? & ? & _). by exists index.
  - unfold getMissingPiece_index. destruct (hasPiece index s) eqn:Hh; [by left|].
    simpl. destruct (isPieceUsed index s); [by left|right]. exists index.
    unfold exclusive_ok, call_ok in Hok. cbv beta iota in Hok.
    apply andb_true_iff in Hok as [Hok _]. by apply bool_decide_eq_true in Hok.
  - right. exists index. unfold exclusive_ok, call_ok in Hok. cbv beta iota in Hok.
    apply andb_true_iff in Hok as [Hi Hh].
    apply bool_decide_eq_true in Hi. by apply negb_true_iff in Hh.
Qed.

Lemma exclusive_exec c s :
  wf s → exclusive s → exclusive_ok s c = true → exclusive (exec c s).
Proof.
  intros Hwf Hex Hok.
  pose proof (selecting_cases c s Hok) as Hsel.
  assert (∀ s', checkout_or_same s s' → exclusive s') as Hco.
  { intros s' [->|(i & Hi & Hh & ->)]; [done|]. by apply exclusive_checkOutPiece. }
  destruct c; auto; simpl; try (by eapply exclusive_same);
    unfold exclusive_ok, call_ok in Hok; cbv beta iota in Hok.
  - (* getPiece *)
    unfold getPiece. case_bool_decide; [|done].
    destruct (findUsedPiece index s); [done|]. by eapply exclusive_same.
  - (* deleteUsedPiece *)
    eapply exclusive_same; [done| |]; by rewrite deleteUsedPiece_bitfieldMan.
  - (* completePiece *)
    destruct piece as [ph|]; [|done].
    destruct (completePiece_bits ph s) as [[_ ->]|(_ & Hb & Hu & _)].
    + eapply exclusive_same; [done| |]; by rewrite deleteUsedPiece_bitfieldMan.
    + by eapply exclusive_set_unset.
  - (* cancelPiece *)
    destruct piece as [ph|]; [|done].
    destruct (cancelPiece_bits ph s) as [Hb Hu]. by eapply exclusive_unset.
  - (* setupFileFilter *)
    destruct (setupFileFilter_bits s) as (? & ? & _). by eapply exclusive_same.
  - (* setBitfield *)
    apply andb_true_iff in Hok as [Hlen Hg]. apply bool_decide_eq_true in Hlen.
    rewrite forallb_forall in Hg. intros i.
    unfold setBitfield, hasPiece, isPieceUsed, BitfieldMan.isBitSet,
      BitfieldMan.isUseBitSet, BitfieldMan.setBitfield. simpl.
    rewrite bool_decide_eq_true_2 by done. simpl.
    destruct (decide (i < BitfieldMan.blocks (_bitfieldMan s))) as [Hi|Hi].
    + specialize (Hg i). rewrite negb_true_iff in Hg. apply Hg.
      apply list_elem_of_In, elem_of_seq. lia.
    + rewrite (bit_ge bf) by lia. done.
  - (* markAllPiecesDone *)
    apply andb_true_iff in Hok as [_ Hn]. by eapply exclusive_noneUsed.
  - (* markPiecesDone *)
    apply andb_true_iff in Hok as [Hlen Hg]. apply bool_decide_eq_true in Hlen.
    rewrite forallb_forall in Hg. unfold donePieces in Hg. unfold markPiecesDone.
    destruct (decide (len = BitfieldMan.getTotalLength (_bitfieldMan s))) as [Htl|Htl];
      [rewrite (bool_decide_eq_true_2 _ Htl) in *
      |rewrite (bool_decide_eq_false_2 _ Htl) in *].
    + intros i. unfold isPieceUsed, BitfieldMan.isUseBitSet. simpl.
      destruct (decide (i < BitfieldMan.blocks (_bitfieldMan s))) as [Hi|Hi].
      * specialize (Hg i). unfold isPieceUsed, BitfieldMan.isUseBitSet in Hg.
        rewrite negb_true_iff in Hg. rewrite Hg; [apply andb_false_r|].
        apply list_elem_of_In, elem_of_seq. lia.
      * rewrite (bit_ge (BitfieldMan.useBitfield _))
          by (rewrite (wf_useBitfield _ (wf_bm _ Hwf)); lia).
        apply andb_false_r.
    + destruct (decide (len = 0%Z)) as [Hz|Hz];
        [rewrite (bool_decide_eq_true_2 _ Hz)|rewrite (bool_decide_eq_false_2 _ Hz)].
      * intros i. unfold hasPiece, BitfieldMan.isBitSet. simpl.
        by rewrite bit_replicate_false.
      * intros i. specialize (Hex i). unfold isPieceUsed, BitfieldMan.isUseBitSet in *.
        rewrite markPrefixDone_useBitfield.
        destruct (hasPiece i (markPrefixDone len s)) eqn:Hh; [|done].
        apply markPrefixDone_hasPiece in Hh as [Hh|Hi]; [by rewrite Hh in Hex|].
        specialize (Hg i). unfold isPieceUsed, BitfieldMan.isUseBitSet in Hg.
        rewrite negb_true_iff in Hg. rewrite Hg; [done|].
        apply list_elem_of_In, elem_of_seq. lia.
  - (* markPieceMissing *)
    intros i. specialize (Hex i).
    unfold hasPiece, isPieceUsed, BitfieldMan.isBitSet, BitfieldMan.isUseBitSet in *.
    simpl. destruct (decide (i = index)) as [->|Hne].
    + by rewrite bit_insert_false.
    + by rewrite bit_insert_ne.
Qed.

Lemma exclusive_ok_call_ok s c : exclusive_ok s c = true → call_ok s c = true.
Proof. unfold exclusive_ok. by intros [? _]%andb_true_iff. Qed.

Lemma exclusive_run_from cs : ∀ s,
  wf s → exclusive s → trace_ok exclusive_ok cs s = true → exclusive (run cs s).
Proof.
  induction cs as [|c cs IH]; intros s Hwf Hex Hok; simpl in *; [done|].
  apply andb_true_iff in Hok as [Hc Hcs]. apply IH; [|by apply exclusive_exec|done].
  apply wf_exec; [done|]. by apply exclusive_ok_call_ok.
Qed.

End Invariants.

Lemma exclusive_new ctx : exclusive (new ctx).
Proof.
  intros i. unfold hasPiece, BitfieldMan.isBitSet, new, BitfieldMan.new. simpl.
  by rewrite bit_replicate_false.
Qed.

(** ** The in-flight container and the in-use bitmap *)

Local Open Scope nat_scope.

Lemma inStep_same s s' :
  inStep s → keys s' = keys s →
  BitfieldMan.useBitfield (_bitfieldMan s') = BitfieldMan.useBitfield (_bitfieldMan s) →
  inStep s'.
Proof.
  intros [Hs Hiff] Hk Hu. split; [by rewrite Hk|]. intros i.
  unfold isPieceUsed, BitfieldMan.isUseBitSet in *. by rewrite Hk, Hu.
Qed.

Lemma inStep_erased s s' v :
  inStep s →
  keys s' = key (store s) <$> eraseKey (store s) v (_usedPieces s) →
  BitfieldMan.useBitfield (_bitfieldMan s')
  = <[v:=false]> (BitfieldMan.useBitfield (_bitfieldMan s)) →
  inStep s'.
Proof.
  intros [Hs Hiff] Hk Hu. split.
  - rewrite Hk. eapply StronglySorted_sublist; [|exact Hs].
    apply fmap_sublist, eraseKey_sublist.
  - intros i. rewrite Hk, eraseKey_keys by done. fold (keys s). rewrite <- Hiff.
    unfold isPieceUsed, BitfieldMan.isUseBitSet. rewrite Hu.
    destruct (decide (i = v)) as [->|Hne].
    + rewrite bit_insert_false. split; [done|by intros [_ ?]].
    + rewrite bit_insert_ne by done. split; [done|by intros [? _]].
Qed.

Lemma inStep_checkOutPiece index s :
  wf s → inStep s → index < BitfieldMan.blocks (_bitfieldMan s) →
  inStep (checkOutPiece index s).2.
Proof.
  intros Hwf [Hs Hiff] Hi.
  pose proof (checkOutPiece_keys index s Hwf) as [Hbm Hk].
  assert (∀ i, isPieceUsed i (checkOutPiece index s).2 = true
               ↔ i = index ∨ isPieceUsed i s = true) as Hused.
  { intros i. unfold isPieceUsed. rewrite Hbm. unfold BitfieldMan.isUseBitSet. simpl.
    destruct (decide (i = index)) as [->|Hne].
    - rewrite bit_insert_eq by (destruct Hwf as [[] ? ? ? ? ?]; lia). by split; [left|].
    - rewrite bit_insert_ne by done. split; [by right|by intros [?|?]]. }
  case_bool_decide as Hmem.
  - split.
    + rewrite Hk. done.
    + intros i. rewrite Hused, Hk. change (keys (with_bitfieldMan _ s)) with (keys s).
      rewrite Hiff. split; [by intros [->|?]|by right].
  - destruct Hk as (l1 & l2 & Hu & Hu' & Hks & H1 & H2). unfold keys in Hs, Hiff.
    rewrite Hu, fmap_app in Hs, Hiff. split.
    + rewrite Hks. apply sorted_insert; [apply _|done| |]; by rewrite Forall_fmap.
    + intros i. rewrite Hused, Hks, Hiff, !elem_of_app, elem_of_cons. tauto.
Qed.

Lemma keys_nil_of_noneUsed s : inStep s → noneUsed s = true → _usedPieces s = [].
Proof.
  intros [_ Hiff] Hn. destruct (_usedPieces s) as [|h l] eqn:Hu; [done|exfalso].
  assert (key (store s) h ∈ keys s) as Hin by (unfold keys; rewrite Hu; left).
  apply Hiff in Hin. by rewrite noneUsed_bits in Hin.
Qed.

Lemma inStep_allHeld s :
  wf s → exclusive s → inStep s → allDownloadFinished s = true → _usedPieces s = [].
Proof.
  intros Hwf Hex [_ Hiff] Hall. destruct (_usedPieces s) as [|h l] eqn:Hu; [done|exfalso].
  assert (key (store s) h ∈ keys s) as Hin by (unfold keys; rewrite Hu; left).
  pose proof (wf_range _ Hwf) as Hr. rewrite Forall_forall in Hr.
  specialize (Hr _ Hin). apply Hiff in Hin. specialize (Hex (key (store s) h)).
  unfold hasPiece in Hex. rewrite (isAllBitSet_bits _ _ Hall Hr), Hin in Hex. done.
Qed.

Lemma keys_nil s : _usedPieces s = [] → keys s = [].
Proof. unfold keys. by intros ->. Qed.

Lemma markPrefixDone_no_remainder len s :
  (len `mod` BitfieldMan.blockLength (_bitfieldMan s) / Piece.BLOCK_LENGTH = 0)%Z →
  _usedPieces (markPrefixDone len s) = _usedPieces s
  ∧ store (markPrefixDone len s) = store s.
Proof.
  intros Hr. unfold markPrefixDone. cbv zeta.
  unfold BitfieldMan.getBlockLength. rewrite Hr.
  rewrite (bool_decide_eq_false_2 (0 < Z.to_nat 0)) by (simpl; lia).
  by case_bool_decide.
Qed.

Section InStep.
Context `{PieceSelector}.

Lemma inStep_ok_exclusive_ok s c : inStep_ok s c = true → exclusive_ok s c = true.
Proof. unfold inStep_ok. by intros [? _]%andb_true_iff. Qed.

Lemma inStep_exec c s :
  wf s → exclusive s → inStep s → inStep_ok s c = true → inStep (exec c s).
Proof.
  intros Hwf Hex Hin Hok.
  pose proof (inStep_ok_exclusive_ok s c Hok) as Hok1.
  pose proof (selecting_cases c s Hok1) as Hsel.
  assert (∀ s', checkout_or_same s s' → inStep s') as Hco.
  { intros s' [->|(i & Hi & Hh & ->)]; [done|]. by apply inStep_checkOutPiece. }
  destruct c; auto; simpl; try (by eapply inStep_same);
    unfold inStep_ok in Hok; apply andb_true_iff in Hok as [_ Hok].
  - (* getPiece *)
    unfold getPiece. case_bool_decide; [|done].
    destruct (findUsedPiece index s); [done|].
    eapply inStep_same; [done| |done]. unfold keys. simpl. apply keys_alloc, Hwf.
  - (* deleteUsedPiece *)
    destruct piece as [ph|]; [|done]. apply negb_true_iff in Hok.
    rewrite deleteUsedPiece_used by apply Hwf.
    eapply inStep_same; [done| |done].
    rewrite keys_with_usedPieces, eraseKey_absent; [done|].
    fold (keys s). intros Hmem. apply Hin in Hmem. congruence.
  - (* completePiece *)
    destruct piece as [ph|]; [|done].
    destruct (completePiece_bits ph s) as [[Hall ->]|(_ & Hb & Hu & Hus & Hst)].
    + rewrite deleteUsedPiece_used by apply Hwf.
      pose proof (inStep_allHeld s Hwf Hex Hin Hall) as Hnil.
      eapply inStep_same; [done| |done]. rewrite keys_with_usedPieces, Hnil. simpl.
      by rewrite keys_nil.
    + eapply inStep_erased; [done| |exact Hu].
      unfold keys. rewrite Hus, Hst. by rewrite deleteUsedPiece_used by apply Hwf.
  - (* cancelPiece *)
    destruct piece as [ph|]; [|done].
    destruct (cancelPiece_bits ph s) as [_ Hu].
    eapply inStep_erased; [done| |exact Hu].
    rewrite cancelPiece_shape by done. cbv zeta. by rewrite Hok.
  - (* setupFileFilter *)
    destruct (setupFileFilter_bits s) as (_ & ? & Hus & Hst).
    eapply inStep_same; [done| |done]. unfold keys. by rewrite Hus, Hst.
  - (* setBitfield *)
    eapply inStep_same; [done|done|]. simpl. unfold BitfieldMan.setBitfield.
    by case_bool_decide.
  - (* markPiecesDone *)
    apply andb_true_iff in Hok as [Hn Hr].
    pose proof (keys_nil_of_noneUsed s Hin Hn) as Hnil.
    unfold markPiecesDone.
    destruct (decide (len = BitfieldMan.getTotalLength (_bitfieldMan s))) as [Htl|Htl];
      [rewrite (bool_decide_eq_true_2 _ Htl)|rewrite (bool_decide_eq_false_2 _ Htl)].
    { by eapply inStep_same. }
    destruct (decide (len = 0%Z)) as [Hz|Hz];
      [rewrite (bool_decide_eq_true_2 _ Hz)|rewrite (bool_decide_eq_false_2 _ Hz)].
    { eapply inStep_same; [done| |done]. unfold keys. simpl. by rewrite Hnil. }
    apply orb_true_iff in Hr as [Hr%bool_decide_eq_true|Hr%bool_decide_eq_true];
      [done|].
    destruct (markPrefixDone_no_remainder len s Hr) as [Hus Hst].
    eapply inStep_same; [done| |apply markPrefixDone_useBitfield].
    unfold keys. by rewrite Hus, Hst.
  - (* addInFlightPiece *)
    done.
  - (* NewPiece *)
    eapply inStep_same; [done| |done]. unfold keys. simpl. apply keys_alloc, Hwf.
  - (* CompleteBlock *)
    eapply inStep_same; [done| |done]. unfold keys. simpl.
    apply list_fmap_ext. intros ???. by apply key_alter.
Qed.

Lemma inStep_run_from cs : ∀ s,
  wf s → exclusive s → inStep s → trace_ok inStep_ok cs s = true →
  inStep (run cs s).
Proof.
  induction cs as [|c cs IH]; intros s Hwf Hex Hin Hok; simpl in *; [done|].
  apply andb_true_iff in Hok as [Hc Hcs].
  pose proof (inStep_ok_exclusive_ok s c Hc) as Hc1.
  apply IH; [|by apply exclusive_exec|by apply inStep_exec|done].
  apply wf_exec; [done|]. by apply exclusive_ok_call_ok.
Qed.

End InStep.

Lemma inStep_new ctx : inStep (new ctx).
Proof.
  split; [constructor|]. intros i.
  unfold isPieceUsed, BitfieldMan.isUseBitSet, new, BitfieldMan.new, keys. simpl.
  rewrite bit_replicate_false. split; [done|by intros ?%elem_of_nil].
Qed.

Lemma StronglySorted_lt_NoDup (l : list nat) : StronglySorted lt l → NoDup l.
Proof.
  induction 1 as [|x l Hs IH Hall]; constructor; [|done].
  intros Hin. rewrite Forall_forall in Hall. specialize (Hall _ Hin). lia.
Qed.

Lemma popcount_snoc (l : list bool) b :
  popcount (l ++ [b]) = popcount l + (if b then 1 else 0).
Proof. unfold popcount. rewrite List.filter_app, length_app. by destruct b. Qed.

Lemma popcount_indexes (l : list bool) :
  length (List.filter (bit l) (seq 0 (length l))) = popcount l.
Proof.
  induction l as [|b l IH] using rev_ind; [done|].
  rewrite length_app, Nat.add_1_r, seq_S, List.filter_app, length_app, popcount_snoc.
  simpl. f_equal.
  - rewrite <- IH. f_equal. apply List.filter_ext_in. intros i Hi%in_seq.
    unfold bit. by rewrite lookup_app_l by lia.
  - unfold bit. rewrite lookup_app_r, Nat.sub_diag by done. simpl. by destruct b.
Qed.

(** In step, the container has as many pieces as the in-use bitmap has
    bits set. *)
Lemma inStep_count s :
  inStep s →
  countInFlightPiece s = popcount (BitfieldMan.useBitfield (_bitfieldMan s)).
Proof.
  intros [Hs Hiff]. unfold countInFlightPiece.
  rewrite <- popcount_indexes, <- (length_fmap (key (store s))). fold (keys s).
  apply Permutation_length, NoDup_Permutation.
  - by apply StronglySorted_lt_NoDup.
  - apply NoDup_ListNoDup, List.NoDup_filter, NoDup_ListNoDup, NoDup_seq.
  - intros i. rewrite <- Hiff. unfold isPieceUsed, BitfieldMan.isUseBitSet.
    rewrite list_elem_of_In, filter_In, in_seq. split.
    + intros Hb. split; [|done]. apply bit_true_lt in Hb. lia.
    + by intros [_ ?].
Qed.

(** ** The two invariants along a sequence of calls *)

Local Open Scope nat_scope.

Lemma addUsedPiece_count piece s :
  countInFlightPiece (addUsedPiece piece s) = S (countInFlightPiece s)
  ∧ _bitfieldMan (addUsedPiece piece s) = _bitfieldMan s.
Proof.
  unfold addUsedPiece, countInFlightPiece. cbv zeta. simpl. split; [|done].
  rewrite length_app. simpl. rewrite length_take, length_drop. lia.
Qed.

Lemma markPrefixDone_remainder len s :
  0 < Z.to_nat (len `mod` BitfieldMan.getBlockLength (_bitfieldMan s) / Piece.BLOCK_LENGTH) →
  countInFlightPiece (markPrefixDone len s) = S (countInFlightPiece s).
Proof.
  intros Hr. unfold markPrefixDone. cbv zeta.
  rewrite (bool_decide_eq_true_2 _ Hr).
  match goal with |- countInFlightPiece (let '(h, s2) := alloc ?p ?s1 in _) = _ =>
    change (countInFlightPiece (addUsedPiece (alloc p s1).1 (alloc p s1).2)
            = S (countInFlightPiece s)) end.
  rewrite (proj1 (addUsedPiece_count _ _)). unfold countInFlightPiece. simpl.
  by case_bool_decide.
Qed.

(** What [markPiecesDone] does to the in-flight container, branch by
    branch; it never touches the in-use bitmap. *)
Lemma markPiecesDone_count len s :
  BitfieldMan.useBitfield (_bitfieldMan (markPiecesDone len s))
  = BitfieldMan.useBitfield (_bitfieldMan s)
  ∧ countInFlightPiece (markPiecesDone len s)
    = if bool_decide (len = getTotalLength s) then countInFlightPiece s
      else if bool_decide (len = 0%Z) then 0
      else if bool_decide
                (0 < Z.to_nat (len `mod` BitfieldMan.getBlockLength (_bitfieldMan s)
                               / Piece.BLOCK_LENGTH))
           then S (countInFlightPiece s)
           else countInFlightPiece s.
Proof.
  unfold markPiecesDone, getTotalLength.
  case_bool_decide as Htl; [done|]. case_bool_decide as Hz; [done|].
  split; [apply markPrefixDone_useBitfield|].
  case_bool_decide as Hr; [by apply markPrefixDone_remainder|].
  unfold markPrefixDone. cbv zeta. rewrite (bool_decide_eq_false_2 _ Hr).
  by case_bool_decide.
Qed.

Lemma addInFlightPiece_count pieces s :
  countInFlightPiece (addInFlightPiece pieces s) = countInFlightPiece s + length pieces.
Proof.
  unfold addInFlightPiece, countInFlightPiece. simpl.
  by rewrite sort_Permutation, length_app.
Qed.

Section Sequences.
Context `{PieceSelector}.

Lemma trace_ok_take ok cs : ∀ n s,
  trace_ok ok cs s = true → trace_ok ok (take n cs) s = true.
Proof.
  induction cs as [|c cs IH]; intros n s Hok; destruct n as [|n]; simpl in *; try done.
  apply andb_true_iff in Hok as [-> Hcs]. simpl. by apply IH.
Qed.

(** C1 (as amended): along a sequence of calls with in-range arguments on
    a new storage, no piece is both held and in use after any of the calls,
    provided that [checkOutPiece(i)] is called only while piece [i] is not
    held, and that [setBitfield], [markAllPiecesDone] and [markPiecesDone]
    of a non-zero length set no have bit of a piece in use: none of the
    pieces of the bitmap given, none at all, and none of the pieces that the
    length covers in full.  Every selecting [getMissingPiece] variant,
    [completePiece], [cancelPiece], [markPieceMissing] and
    [markPiecesDone(0)] keep it without a proviso. *)
Theorem exclusive_after_every_call (ctx : DownloadContext) (cs : list call) :
  (0 < getPieceLength ctx)%Z → (0 ≤ getTotalLength_ctx ctx)%Z →
  trace_ok exclusive_ok cs (new ctx) = true →
  ∀ n i, hasPiece i (run (take n cs) (new ctx))
         && isPieceUsed i (run (take n cs) (new ctx)) = false.
Proof.
  intros Hbl Htl Hok n. apply exclusive_run_from.
  - by apply wf_new.
  - apply exclusive_new.
  - by apply trace_ok_take.
Qed.

(** C2 (as amended): along a sequence of calls on a new storage in which
    pieces enter the in-flight container through a checkout only
    ([checkOutPiece] of a piece not held, or a selecting [getMissingPiece]
    variant) and leave it together with their in-use bit ([completePiece];
    [cancelPiece] outside end-game of a piece without progress), and have
    bits are set in bulk while no piece is in use, the container has as many
    pieces as the in-use bitmap has bits set after every call.
    [markPiecesDone(L)] never touches the in-use bitmap; it puts one piece
    into the container when [L] is neither the total length nor 0 and the
    remainder of [L] by the piece length covers at least one block of
    16 KiB, empties the container for [L = 0], and leaves it as it is
    otherwise.  [addInFlightPiece] puts the pieces it is given into the
    container and sets no in-use bit. *)
Theorem inFlight_count_after_every_call (ctx : DownloadContext) (cs : list call) :
  (0 < getPieceLength ctx)%Z → (0 ≤ getTotalLength_ctx ctx)%Z →
  trace_ok inStep_ok cs (new ctx) = true →
  (∀ n, countInFlightPiece (run (take n cs) (new ctx))
        = popcount (BitfieldMan.useBitfield (_bitfieldMan (run (take n cs) (new ctx)))))
  ∧ (∀ len s,
       BitfieldMan.useBitfield (_bitfieldMan (markPiecesDone len s))
       = BitfieldMan.useBitfield (_bitfieldMan s)
       ∧ countInFlightPiece (markPiecesDone len s)
         = if bool_decide (len = getTotalLength s) then countInFlightPiece s
           else if bool_decide (len = 0%Z) then 0
           else if bool_decide
                     (0 < Z.to_nat (len `mod` BitfieldMan.getBlockLength (_bitfieldMan s)
                                    / Piece.BLOCK_LENGTH))
                then S (countInFlightPiece s)
                else countInFlightPiece s)
  ∧ (∀ pieces s,
       countInFlightPiece (addInFlightPiece pieces s)
       = countInFlightPiece s + length pieces
       ∧ BitfieldMan.useBitfield (_bitfieldMan (addInFlightPiece pieces s))
         = BitfieldMan.useBitfield (_bitfieldMan s)).
Proof.
  intros Hbl Htl Hok. split; [|split].
  - intros n. apply inStep_count, inStep_run_from.
    + by apply wf_new.
    + apply exclusive_new.
    + apply inStep_new.
    + by apply trace_ok_take.
  - intros len s. apply markPiecesDone_count.
  - intros pieces s. split; [apply addInFlightPiece_count|done].
Qed.

End Sequences.

(** ** The theorems at work, and where the claims fail *)

Local Open Scope nat_scope.

Lemma exclusive_after_every_call_witness :
  let cs := [CheckOutPiece 5; MarkPiecesDone 32768;
             GetMissingPiece 7 (mkPeer (replicate 21 true) false []); CompleteBlock 0 0;
             CompletePiece (Some 0); MarkPieceMissing 5; CheckOutPiece 5] in
  trace_ok exclusive_ok cs (new manyPieces) = true
  ∧ hasPiece 0 (run (take 2 cs) (new manyPieces)) = true
  ∧ isPieceUsed 5 (run (take 2 cs) (new manyPieces)) = true
  ∧ hasPiece 5 (run (take 7 cs) (new manyPieces))
    && isPieceUsed 5 (run (take 7 cs) (new manyPieces)) = false.
Proof.
  cbv zeta. split; [(vm_compute; reflexivity)|].
  split; [(vm_compute; reflexivity)|]. split; [(vm_compute; reflexivity)|].
  apply (exclusive_after_every_call manyPieces); [done|done|(vm_compute; reflexivity)].
Defined.

(** C1, the claim as stated, fails: after [getMissingPiece(0)] has checked
    piece 0 out, [markAllPiecesDone()] sets its have bit and leaves its
    in-use bit; and [checkOutPiece(0)] sets the in-use bit of a piece that is
    held. *)
Lemma held_and_in_use_after_markAllPiecesDone :
  let cs := [GetMissingPieceIndex 0; MarkAllPiecesDone] in
  let cs' := [MarkAllPiecesDone; CheckOutPiece 0] in
  trace_ok call_ok cs (new twoPieces) = true
  ∧ hasPiece 0 (run cs (new twoPieces)) && isPieceUsed 0 (run cs (new twoPieces)) = true
  ∧ trace_ok call_ok cs' (new twoPieces) = true
  ∧ hasPiece 0 (run cs' (new twoPieces)) && isPieceUsed 0 (run cs' (new twoPieces)) = true.
Proof. cbv zeta. vm_compute. repeat split. Qed.

Lemma inFlight_count_after_every_call_witness :
  let cs := [GetMissingPieceIndex 0; CompleteBlock 0 0; CheckOutPiece 1;
             CancelPiece (Some 1); CompletePiece (Some 0)] in
  trace_ok inStep_ok cs (new manyPieces) = true
  ∧ countInFlightPiece (run (take 3 cs) (new manyPieces))
    = popcount (BitfieldMan.useBitfield (_bitfieldMan (run (take 3 cs) (new manyPieces)))).
Proof.
  cbv zeta. split; [(vm_compute; reflexivity)|].
  apply (inFlight_count_after_every_call manyPieces); [done|done|(vm_compute; reflexivity)].
Defined.

(** C2, the claim as stated, fails: [markPiecesDone(16384)] on a new
    storage of 32 KiB pieces puts a piece with one completed block into the
    in-flight container and sets no in-use bit; so does [addInFlightPiece]
    with a piece of the caller. *)
Lemma inFlight_count_differs_after_markPiecesDone :
  let s := run [MarkPiecesDone 16384] (new twoPieces) in
  let s' := run [NewPiece 0 32768; AddInFlightPiece [0]] (new twoPieces) in
  trace_ok call_ok [MarkPiecesDone 16384] (new twoPieces) = true
  ∧ countInFlightPiece s = 1
  ∧ popcount (BitfieldMan.useBitfield (_bitfieldMan s)) = 0
  ∧ trace_ok call_ok [NewPiece 0 32768; AddInFlightPiece [0]] (new twoPieces) = true
  ∧ countInFlightPiece s' = 1
  ∧ popcount (BitfieldMan.useBitfield (_bitfieldMan s')) = 0.
Proof. cbv zeta. vm_compute. repeat split. Qed.

Lemma completePiece_spec_witness :
  let s := run [CheckOutPiece 0; CompleteBlock 0 0] (new twoPieces) in
  wf s ∧ handle_ok s 0 = true
  ∧ _usedPieces (completePiece (Some 0) s)
    = eraseKey (store s) (key (store s) 0) (_usedPieces s).
Proof.
  cbv zeta.
  assert (wf (run [CheckOutPiece 0; CompleteBlock 0 0] (new twoPieces))) as Hwf.
  { apply wf_run; [by apply wf_new|(vm_compute; reflexivity)]. }
  split; [done|]. split; [(vm_compute; reflexivity)|].
  apply (completePiece_spec 0 _ Hwf). (vm_compute; reflexivity).
Defined.

(** C3, the claim as stated, fails in its last part: in a selective
    download whose requested piece is held, [downloadFinished()] holds; the
    completion of the other piece leaves it true, and
    [resetDownloadStopTime] is called once more. *)
Lemma completePiece_records_stop_time_again :
  let cs := [SetupFileFilter; CheckOutPiece 0; CompletePiece (Some 0);
             GetMissingPieceIndex 1] in
  let s := run cs (new selective) in
  trace_ok call_ok cs (new selective) = true
  ∧ downloadFinished s = true
  ∧ allDownloadFinished s = false
  ∧ stopTimeResets (_downloadContext s) = 1
  ∧ downloadFinished (completePiece (Some 1) s) = true
  ∧ stopTimeResets (_downloadContext (completePiece (Some 1) s)) = 2.
Proof. cbv zeta. vm_compute. repeat split. Qed.

Lemma getMissingPiece_spec_witness :
  let bf := replicate 21 true in
  wf (new manyPieces)
  ∧ ∃ i h, (getMissingPiece 5 bf (new manyPieces)).1 = Some h
           ∧ bit bf i = true
           ∧ h ∈ _usedPieces (getMissingPiece 5 bf (new manyPieces)).2
           ∧ isPieceUsed i (getMissingPiece 5 bf (new manyPieces)).2 = true.
Proof.
  cbv zeta.
  assert (wf (new manyPieces)) as Hwf by by apply wf_new.
  split; [done|].
  pose proof (getMissingPiece_spec 5 (replicate 21 true) (new manyPieces) Hwf) as Hsp.
  cbv zeta in Hsp.
  destruct (getMissingPiece 5 (replicate 21 true) (new manyPieces)).1 as [h|] eqn:Hr.
  - destruct Hsp as (i & (_ & Hb & _) & _ & Hin & _ & Hu). by exists i, h.
  - vm_compute in Hr. done.
Defined.

Lemma checkOutPiece_twice_witness :
  let s := run [MarkPiecesDone 16384] (new twoPieces) in
  wf s ∧ 0 < BitfieldMan.blocks (_bitfieldMan s)
  ∧ (checkOutPiece 0 (checkOutPiece 0 s).2).1 = (checkOutPiece 0 s).1
  ∧ entriesOf 0 (checkOutPiece 0 (checkOutPiece 0 s).2).2 = Nat.max 1 (entriesOf 0 s).
Proof.
  cbv zeta.
  assert (wf (run [MarkPiecesDone 16384] (new twoPieces))) as Hwf.
  { apply wf_run; [by apply wf_new|(vm_compute; reflexivity)]. }
  assert (0 < BitfieldMan.blocks (_bitfieldMan (run [MarkPiecesDone 16384] (new twoPieces))))
    as Hi by (vm_compute; lia).
  split; [done|]. split; [done|].
  destruct (checkOutPiece_twice 0 _ Hwf Hi) as (H1 & _ & _ & _ & H5). by split.
Defined.

(** C5, the claim as stated, fails: [markPiecesDone(16384)] called twice
    leaves two in-flight pieces of index 0, and two calls of
    [checkOutPiece(0)] return the same one of them and leave both in the
    container. *)
Lemma checkOutPiece_twice_keeps_duplicates :
  let cs := [MarkPiecesDone 16384; MarkPiecesDone 16384] in
  let s := run cs (new twoPieces) in
  trace_ok call_ok cs (new twoPieces) = true
  ∧ (checkOutPiece 0 s).1 = Some 1
  ∧ (checkOutPiece 0 (checkOutPiece 0 s).2).1 = Some 1
  ∧ entriesOf 0 (checkOutPiece 0 (checkOutPiece 0 s).2).2 = 2.
Proof. cbv zeta. vm_compute. repeat split. Qed.

Lemma getCompletedLength_spec_witness :
  let s := run [CheckOutPiece 0; CompleteBlock 0 0] (new twoPieces) in
  wf s ∧ (inFlightSum s < 2 ^ 31)%Z
  ∧ getCompletedLength s
    = Z.min (getTotalLength s)
            (BitfieldMan.getCompletedLength (_bitfieldMan s) + inFlightSum s)
  ∧ getFilteredCompletedLength s
    = (BitfieldMan.getFilteredCompletedLength (_bitfieldMan s) + inFlightSum s)%Z.
Proof.
  cbv zeta.
  assert (wf (run [CheckOutPiece 0; CompleteBlock 0 0] (new twoPieces))) as Hwf.
  { apply wf_run; [by apply wf_new|(vm_compute; reflexivity)]. }
  split; [done|]. split; [(vm_compute; reflexivity)|].
  apply (proj2 (getCompletedLength_spec _) Hwf); (vm_compute; reflexivity).
Defined.



Lemma markPiecesDone_zero_witness :
  let s := run [MarkPiecesDone 16384; CheckOutPiece 1] (new twoPieces) in
  wf s ∧ _usedPieces (markPiecesDone 0 s) = []
  ∧ countInFlightPiece (markPiecesDone 0 s) = 0.
Proof.
  cbv zeta.
  assert (wf (run [MarkPiecesDone 16384; CheckOutPiece 1] (new twoPieces))) as Hwf.
  { apply wf_run; [by apply wf_new|(vm_compute; reflexivity)]. }
  split; [done|].
  destruct (markPiecesDone_zero _ Hwf) as (_ & Hu & Hc & _). by split.
Defined.

Lemma getPiece_spec_witness :
  let s := run [CheckOutPiece 1] (new twoPieces) in
  wf s ∧ (Z.of_nat 0 ≤ BitfieldMan.getMaxIndex (_bitfieldMan s))%Z
  ∧ (getPiece 0 s).1 = Some 1
  ∧ (getPiece 0 s).2 = with_store (λ st, st ++ [Piece.new 0 32768]) s.
Proof.
  cbv zeta.
  assert (wf (run [CheckOutPiece 1] (new twoPieces))) as Hwf.
  { apply wf_run; [by apply wf_new|(vm_compute; reflexivity)]. }
  assert (Z.of_nat 0 ≤ BitfieldMan.getMaxIndex
                         (_bitfieldMan (run [CheckOutPiece 1] (new twoPieces))))%Z
    as Hr by (vm_compute; discriminate).
  split; [done|]. split; [done|].
  exact (proj2 (proj2 (getPiece_spec 0 (run [CheckOutPiece 1] (new twoPieces))))
           Hwf Hr).
Defined.

(** * Further properties of the storage *)

(** ** The in-flight container as an ordered collection *)

Local Open Scope nat_scope.

Section Ordered.
Context `{PieceSelector}.

(** X1: after every call of a sequence with in-range arguments on a new
    storage, the in-flight container is ordered by piece index, holds only
    handles of existing objects, and only pieces whose index is below the
    number of pieces; the have and in-use bitmaps have one bit per piece. *)
Theorem inFlight_ordered_after_every_call (ctx : DownloadContext) (cs : list call) :
  (0 < getPieceLength ctx)%Z → (0 ≤ getTotalLength_ctx ctx)%Z →
  trace_ok call_ok cs (new ctx) = true →
  let s := run cs (new ctx) in
  StronglySorted le (keys s)
  ∧ Forall (λ h, h < length (store s)) (_usedPieces s)
  ∧ Forall (λ k, k < BitfieldMan.blocks (_bitfieldMan s)) (keys s)
  ∧ length (BitfieldMan.bitfield (_bitfieldMan s)) = BitfieldMan.blocks (_bitfieldMan s)
  ∧ length (BitfieldMan.useBitfield (_bitfieldMan s)) = BitfieldMan.blocks (_bitfieldMan s).
Proof.
  intros Hbl Htl Hok s.
  assert (wf s) as Hwf by (apply wf_run; [by apply wf_new|done]).
  destruct Hwf as [[_ _ Hn Hb Hu] Hh Hs Hr _ _].
  repeat split; done.
Qed.

End Ordered.

Lemma inFlight_ordered_after_every_call_witness :
  let cs := [MarkPiecesDone 16384; NewPiece 1 32768; AddInFlightPiece [1];
             CheckOutPiece 0; CancelPiece (Some 0)] in
  trace_ok call_ok cs (new twoPieces) = true
  ∧ StronglySorted le (keys (run cs (new twoPieces))).
Proof.
  cbv zeta. split; [vm_compute; reflexivity|].
  apply (inFlight_ordered_after_every_call twoPieces); [done|done|vm_compute; reflexivity].
Defined.

(** X2: in an ordered container, [findUsedPiece(index)] returns a piece
    exactly when the container holds one of that index; the piece returned
    is in the container, has that index, and is the first of its index. *)
Theorem findUsedPiece_finds (index : nat) (s : DefaultPieceStorage) :
  StronglySorted le (keys s) →
  (is_Some (findUsedPiece index s) ↔ index ∈ keys s)
  ∧ ∀ h, findUsedPiece index s = Some h →
         ∃ l1 l2, _usedPieces s = l1 ++ h :: l2
                  ∧ key (store s) h = index
                  ∧ Forall (λ h', key (store s) h' < index) l1.
Proof.
  intros Hs. split.
  - pose proof (findUsedPiece_spec index s Hs) as Hsp.
    destruct (findUsedPiece index s) as [h|].
    + destruct Hsp as [Hin <-]. split; [intros _; by apply list_elem_of_fmap_2|by eexists].
    + split; [by intros [? ?]|done].
  - intros h. unfold findUsedPiece, keys in *.
    destruct (lower_bound_keys (store s) index _ Hs) as (l1 & l2 & Hl & -> & H1 & H2).
    rewrite Hl. rewrite lookup_app_r, Nat.sub_diag by done.
    destruct l2 as [|h' l2]; simpl; [done|].
    unfold handle_eq, Piece.eq. simpl. case_bool_decide as Heq; [|done].
    intros [= ->]. by exists l1, l2.
Qed.

Lemma findUsedPiece_finds_witness :
  let s := run [CheckOutPiece 1; CheckOutPiece 0] (new twoPieces) in
  StronglySorted le (keys s)
  ∧ (is_Some (findUsedPiece 1 s) ↔ 1 ∈ keys s).
Proof.
  cbv zeta.
  assert (StronglySorted le (keys (run [CheckOutPiece 1; CheckOutPiece 0] (new twoPieces))))
    as Hs by (vm_compute; repeat constructor).
  split; [done|]. apply (findUsedPiece_finds 1 _ Hs).
Defined.

(** X3: [deleteUsedPiece] undoes [addUsedPiece]: in an ordered container,
    a piece just added is the one that is erased, also when the container
    already held pieces of the same index. *)
Theorem deleteUsedPiece_addUsedPiece (piece : handle) (s : DefaultPieceStorage) :
  StronglySorted le (keys s) →
  deleteUsedPiece (Some piece) (addUsedPiece piece s) = s
  ∧ StronglySorted le (keys (addUsedPiece piece s))
  ∧ countInFlightPiece (addUsedPiece piece s) = S (countInFlightPiece s).
Proof.
  intros Hs.
  destruct (addUsedPiece_split piece s Hs) as (l1 & l2 & Hu & Hadd & H1 & H2).
  assert (StronglySorted le (keys (addUsedPiece piece s))) as Hs'.
  { rewrite Hadd, keys_with_usedPieces. cbv beta. rewrite fmap_app, fmap_cons.
    unfold keys in Hs. rewrite Hu, fmap_app in Hs.
    apply sorted_insert; [apply _|done| |].
    - rewrite Forall_fmap. eapply Forall_impl; [exact H1|]. simpl. intros; lia.
    - by rewrite Forall_fmap. }
  split; [|split; [done|apply addUsedPiece_count]].
  rewrite deleteUsedPiece_used by done. rewrite Hadd.
  unfold with_usedPieces. simpl.
  rewrite eraseKey_below by done. simpl.
  rewrite bool_decide_eq_true_2 by done.
  destruct s; simpl in *. by rewrite Hu.
Qed.

Lemma deleteUsedPiece_addUsedPiece_witness :
  let s := run [MarkPiecesDone 16384; NewPiece 0 32768] (new twoPieces) in
  StronglySorted le (keys s) ∧ deleteUsedPiece (Some 1) (addUsedPiece 1 s) = s.
Proof.
  cbv zeta.
  assert (StronglySorted le
            (keys (run [MarkPiecesDone 16384; NewPiece 0 32768] (new twoPieces))))
    as Hs by (vm_compute; repeat constructor).
  split; [done|]. apply (deleteUsedPiece_addUsedPiece 1 _ Hs).
Defined.

(** X4: [addInFlightPiece] loses and invents no piece and leaves the
    container ordered: afterwards it is a permutation of the pieces it held
    followed by the pieces given, in ascending order of index, whatever the
    order before. *)
Theorem addInFlightPiece_sorted (pieces : list handle) (s : DefaultPieceStorage) :
  let s' := addInFlightPiece pieces s in
  _usedPieces s' ≡ₚ _usedPieces s ++ pieces
  ∧ StronglySorted le (keys s')
  ∧ getInFlightPieces [] s' ≡ₚ getInFlightPieces pieces s
  ∧ store s' = store s
  ∧ _bitfieldMan s' = _bitfieldMan s.
Proof.
  intros s'. subst s'. unfold addInFlightPiece, getInFlightPieces, keys. simpl.
  split; [apply sort_Permutation|]. split.
  - apply (StronglySorted_fmap (key (store s)) (handle_le (store s)) le).
    + by intros x y.
    + apply StronglySorted_sort.
  - split; [|done]. rewrite sort_Permutation. apply Permutation_app_comm.
Qed.

(** ** Handing pieces out and taking them back *)

Lemma popcount_replicate_false n : popcount (replicate n false) = 0.
Proof. unfold popcount. induction n as [|n IH]; simpl; [done|exact IH]. Qed.

Lemma getCompletedLength_new index len :
  (0 ≤ len)%Z → Piece.getCompletedLength (Piece.new index len) = 0%Z.
Proof.
  intros Hl. unfold Piece.getCompletedLength, Piece.countCompleteBlock, Piece.new. simpl.
  rewrite popcount_replicate_false. simpl. lia.
Qed.

Lemma isPieceUsed_lookup index s :
  index < length (BitfieldMan.useBitfield (_bitfieldMan s)) →
  isPieceUsed index s = false →
  BitfieldMan.useBitfield (_bitfieldMan s) !! index = Some false.
Proof.
  unfold isPieceUsed, BitfieldMan.isUseBitSet, bit. intros Hlt Hb.
  destruct (lookup_lt_is_Some_2 _ _ Hlt) as [b Hl]. rewrite Hl in Hb |- *. by subst b.
Qed.

Lemma unsetUseBit_setUseBit i b :
  BitfieldMan.useBitfield b !! i = Some false →
  BitfieldMan.unsetUseBit i (BitfieldMan.setUseBit i b) = b.
Proof.
  intros Hl. destruct b as [bl tl n bf ub fb en]. simpl in Hl.
  unfold BitfieldMan.unsetUseBit, BitfieldMan.setUseBit, BitfieldMan.set_useBitfield.
  simpl. f_equal. rewrite list_insert_insert_eq. by apply list_insert_id.
Qed.

(** X5: [getMissingPiece(index)] hands a piece out at most once: when it
    returns a piece, the piece was neither held nor in use, it has the index
    asked for and is in the in-flight container; a second call right after
    returns the null handle and changes nothing. *)
Theorem getMissingPiece_index_once (index : nat) (s : DefaultPieceStorage) :
  wf s → index < BitfieldMan.blocks (_bitfieldMan s) →
  let r1 := getMissingPiece_index index s in
  let r2 := getMissingPiece_index index r1.2 in
  r2 = (None, r1.2)
  ∧ (r1.1 = None ↔ hasPiece index s || isPieceUsed index s = true)
  ∧ ∀ h, r1.1 = Some h →
         h ∈ _usedPieces r1.2 ∧ key (store r1.2) h = index
         ∧ isPieceUsed index r1.2 = true ∧ hasPiece index r1.2 = false.
Proof.
  intros Hwf Hi r1 r2. subst r1 r2.
  destruct (hasPiece index s || isPieceUsed index s) eqn:Hhu.
  - assert (getMissingPiece_index index s = (None, s)) as Hg
      by (unfold getMissingPiece_index; by rewrite Hhu).
    rewrite !Hg. simpl. rewrite Hg. by repeat split.
  - assert (getMissingPiece_index index s = checkOutPiece index s) as Hg
      by (unfold getMissingPiece_index; by rewrite Hhu).
    rewrite !Hg.
    destruct (checkOutPiece_result index s Hwf Hi) as (h & Hr & Hin & Hkey & Hused).
    apply orb_false_iff in Hhu as [Hh Hu].
    assert (hasPiece index (checkOutPiece index s).2 = false) as Hh'.
    { unfold hasPiece. by rewrite (proj1 (checkOutPiece_keys index s Hwf)). }
    split; [|split].
    + unfold getMissingPiece_index. by rewrite Hused, orb_true_r.
    + rewrite Hr. split; intros; discriminate.
    + intros h' Hh2. rewrite Hr in Hh2. simplify_eq. repeat split; assumption.
Qed.

Lemma getMissingPiece_index_once_witness :
  wf (new twoPieces) ∧ 1 < BitfieldMan.blocks (_bitfieldMan (new twoPieces))
  ∧ getMissingPiece_index 1 (getMissingPiece_index 1 (new twoPieces)).2
    = (None, (getMissingPiece_index 1 (new twoPieces)).2).
Proof.
  assert (wf (new twoPieces)) as Hwf by by apply wf_new.
  assert (1 < BitfieldMan.blocks (_bitfieldMan (new twoPieces))) as Hi
    by (vm_compute; lia).
  split; [done|]. split; [done|].
  apply (getMissingPiece_index_once 1 _ Hwf Hi).
Defined.

(** X6: outside end-game, [cancelPiece] undoes [getMissingPiece(index)]:
    when the piece was missing, not in use and had no in-flight object, the
    cancel of the piece handed out puts the bitmaps and the in-flight
    container back as they were.  The object created stays in memory, in
    nobody's container. *)
Theorem cancelPiece_getMissingPiece_index (index : nat) (s : DefaultPieceStorage) :
  wf s → index < BitfieldMan.blocks (_bitfieldMan s) →
  isEndGame s = false → hasPiece index s = false → isPieceUsed index s = false →
  index ∉ keys s →
  let r := getMissingPiece_index index s in
  r.1 = Some (length (store s))
  ∧ _bitfieldMan (cancelPiece r.1 r.2) = _bitfieldMan s
  ∧ _usedPieces (cancelPiece r.1 r.2) = _usedPieces s
  ∧ _pieceStatMan (cancelPiece r.1 r.2) = _pieceStatMan s
  ∧ store (cancelPiece r.1 r.2)
    = store s ++ [Piece.new index (BitfieldMan.getBlockLengthAt index (_bitfieldMan s))].
Proof.
  intros Hwf Hi Heg Hh Hu Hnin r. subst r. unfold getMissingPiece_index.
  rewrite Hh, Hu. simpl.
  pose proof (findUsedPiece_spec index s (wf_sorted _ Hwf)) as Hsp.
  destruct (findUsedPiece index s) as [h|] eqn:Hf.
  { exfalso. apply Hnin. destruct Hsp as [? <-]. by apply list_elem_of_fmap_2. }
  pose proof (wf_checkOutPiece index s Hwf Hi) as Hwf1.
  pose proof (checkOutPiece_keys index s Hwf) as [Hbm Hk].
  rewrite bool_decide_eq_false_2 in Hk by done.
  destruct Hk as (l1 & l2 & Hus & Hus' & _ & H1 & H2).
  rewrite (checkOutPiece_fresh _ _ Hf) in Hwf1, Hbm, Hus' |- *.
  set (p := Piece.new index (BitfieldMan.getBlockLengthAt index (_bitfieldMan s))) in *.
  set (s1 := addUsedPiece _ _) in *. cbn [fst snd] in *.
  assert (store s1 = store s ++ [p]) as Hst by done.
  assert (key (store s1) (length (store s)) = index) as Hkey
    by (rewrite Hst; apply key_alloc_new).
  assert (deref (store s1) (length (store s)) = p) as Hderef.
  { rewrite Hst. unfold deref. by rewrite lookup_app_r, Nat.sub_diag. }
  assert (_endGamePieceNum s1 = _endGamePieceNum s) as Hen by done.
  assert (_pieceStatMan s1 = _pieceStatMan s) as Hps by done.
  clearbody s1. split; [done|].
  rewrite cancelPiece_shape by done. cbv zeta. rewrite Hkey, Hderef.
  assert (isEndGame s1 = false) as ->.
  { rewrite <- Heg. unfold isEndGame. by rewrite Hbm, Hen. }
  rewrite (bool_decide_eq_true_2 (Piece.getCompletedLength p = 0%Z));
    [|apply getCompletedLength_new, getBlockLengthAt_nonneg, Hwf].
  simpl. rewrite Hbm, Hus', Hst, Hps.
  pose proof (wf_handles _ Hwf) as Hh'. rewrite Hus in Hh'.
  apply Forall_app in Hh' as [Hh1 Hh2].
  split; [|split; [|done]].
  - apply unsetUseBit_setUseBit, isPieceUsed_lookup; [|done].
    destruct Hwf as [[_ _ _ _ Hlen] _ _ _ _ _]. lia.
  - rewrite Hus. rewrite eraseKey_below.
    + simpl. rewrite <- Hst, Hkey. by rewrite bool_decide_eq_true_2.
    + rewrite Forall_forall in H1, Hh1 |- *. intros h' Hin.
      rewrite key_alloc by auto. auto.
Qed.

Lemma cancelPiece_getMissingPiece_index_witness :
  let s := new manyPieces in
  wf s ∧ isEndGame s = false
  ∧ _bitfieldMan (cancelPiece (getMissingPiece_index 3 s).1 (getMissingPiece_index 3 s).2)
    = _bitfieldMan s
  ∧ _usedPieces (cancelPiece (getMissingPiece_index 3 s).1 (getMissingPiece_index 3 s).2)
    = _usedPieces s.
Proof.
  cbv zeta.
  assert (wf (new manyPieces)) as Hwf by by apply wf_new.
  split; [done|]. split; [vm_compute; reflexivity|].
  destruct (cancelPiece_getMissingPiece_index 3 (new manyPieces) Hwf)
    as (_ & Hb & Hu & _); try (vm_compute; reflexivity).
  - vm_compute. lia.
  - vm_compute. by intros ?%elem_of_nil.
  - by split.
Defined.

(** ** Completing a piece *)

Lemma completePiece_bitfieldMan ph s :
  let index := key (store s) ph in
  let s' := completePiece (Some ph) s in
  _bitfieldMan s'
  = (if allDownloadFinished s then _bitfieldMan s
     else BitfieldMan.unsetUseBit index (BitfieldMan.setBit index (_bitfieldMan s)))
  ∧ _pieceStatMan s'
    = (if allDownloadFinished s then _pieceStatMan s
       else PieceStatMan.addPieceStatsAt index (_pieceStatMan s))
  ∧ _endGamePieceNum s' = _endGamePieceNum s
  ∧ _usedPieces s' = _usedPieces (deleteUsedPiece (Some ph) s)
  ∧ store s' = store s.
Proof.
  intros index s'. subst s'. unfold completePiece.
  destruct (deleteUsedPiece_shape (Some ph) s) as [l ->].
  change (allDownloadFinished (with_usedPieces _ s)) with (allDownloadFinished s).
  destruct (allDownloadFinished s); [done|]. cbv zeta.
  set (s4 := addPieceStatsAt _ _).
  by destruct (downloadFinished s4).
Qed.






(** ** End-game *)

Lemma length_filter_le {A} (f g : A → bool) (l : list A) :
  (∀ x, f x = true → g x = true) →
  length (List.filter f l) ≤ length (List.filter g l).
Proof.
  intros Hfg. induction l as [|x l IH]; simpl; [done|].
  specialize (Hfg x).
  destruct (f x), (g x); simpl; first [lia | by specialize (Hfg eq_refl)].
Qed.

Lemma countMissingBlock_setBit index b :
  BitfieldMan.countMissingBlock
    (BitfieldMan.unsetUseBit index (BitfieldMan.setBit index b))
  ≤ BitfieldMan.countMissingBlock b.
Proof.
  unfold BitfieldMan.countMissingBlock. apply length_filter_le. intros i.
  unfold BitfieldMan.isBitSet, BitfieldMan.interesting. simpl.
  destruct (decide (i = index)) as [->|Hne].
  - destruct (decide (index < length (BitfieldMan.bitfield b))).
    + by rewrite bit_insert_eq.
    + by rewrite list_insert_ge by lia.
  - by rewrite bit_insert_ne.
Qed.

(** X9: completing or cancelling a piece never takes the storage out of
    end-game. *)
Theorem isEndGame_stays (piece : SharedHandle) (s : DefaultPieceStorage) :
  isEndGame s = true →
  isEndGame (completePiece piece s) = true ∧ isEndGame (cancelPiece piece s) = true.
Proof.
  intros Heg. destruct piece as [ph|]; [|done]. split.
  - pose proof (completePiece_bitfieldMan ph s) as (Hb & _ & He & _). cbv zeta in Hb, He.
    unfold isEndGame in *. rewrite Hb, He.
    destruct (allDownloadFinished s); [done|].
    apply bool_decide_eq_true in Heg. apply bool_decide_eq_true.
    etransitivity; [apply countMissingBlock_setBit|done].
  - unfold cancelPiece. cbv zeta. rewrite isEndGame_unsetUseBit, Heg. done.
Qed.

Lemma isEndGame_stays_witness :
  let s := run [CheckOutPiece 0; CompleteBlock 0 0] (new twoPieces) in
  isEndGame s = true ∧ isEndGame (completePiece (Some 0) s) = true.
Proof.
  cbv zeta.
  assert (isEndGame (run [CheckOutPiece 0; CompleteBlock 0 0] (new twoPieces)) = true)
    as Heg by (vm_compute; reflexivity).
  split; [exact Heg|]. exact (proj1 (isEndGame_stays (Some 0) _ Heg)).
Defined.

(** ** The advert queue *)

Lemma haves_checkOutPiece index s :
  _haves (checkOutPiece index s).2 = _haves s
  ∧ wallclock (checkOutPiece index s).2 = wallclock s.
Proof. unfold checkOutPiece. cbv zeta. by destruct (findUsedPiece _ _). Qed.

Section Adverts.
Context `{PieceSelector}.

Lemma haves_getMissingPiece rnd bf s :
  _haves (getMissingPiece rnd bf s).2 = _haves s
  ∧ wallclock (getMissingPiece rnd bf s).2 = wallclock s.
Proof.
  unfold getMissingPiece.
  destruct (getMissingPieceIndex rnd bf s); [apply haves_checkOutPiece|done].
Qed.

(** Only [advertisePiece] and [removeAdvertisedPiece] touch the advert
    queue, and no call of the storage moves the clock. *)
Lemma haves_exec c s :
  match c with
  | AdvertisePiece _ _ | RemoveAdvertisedPiece _ => wallclock (exec c s) = wallclock s
  | Tick _ => _haves (exec c s) = _haves s
  | _ => _haves (exec c s) = _haves s ∧ wallclock (exec c s) = wallclock s
  end.
Proof.
  destruct c; simpl; try done;
    try apply haves_getMissingPiece; try apply haves_checkOutPiece.
  - unfold getMissingFastPiece. destruct (_ && _); [apply haves_getMissingPiece|done].
  - unfold getMissingFastPiece_excluded.
    destruct (_ && _); [apply haves_getMissingPiece|done].
  - unfold getSparseMissingUnusedPiece.
    destruct (BitfieldMan.getSparseMissingUnusedIndex _ _);
      [apply haves_checkOutPiece|done].
  - unfold getMissingPiece_index. destruct (_ || _); [done|apply haves_checkOutPiece].
  - unfold getPiece. case_bool_decide; [|done]. by destruct (findUsedPiece _ _).
  - by destruct (deleteUsedPiece_shape piece s) as [l ->].
  - destruct piece as [ph|]; [|done]. unfold completePiece.
    destruct (deleteUsedPiece_shape (Some ph) s) as [l ->].
    destruct (allDownloadFinished _); [done|]. cbv zeta.
    set (s4 := addPieceStatsAt _ _). by destruct (downloadFinished s4).
  - destruct piece as [ph|]; [|done]. unfold cancelPiece. cbv zeta.
    destruct (negb _); [|done]. case_bool_decide; [|done].
    by destruct (deleteUsedPiece_shape (Some ph)
                   (with_bitfieldMan
                      (BitfieldMan.unsetUseBit (Piece.getIndex (deref (store s) ph))) s))
      as [l ->].
  - unfold setupFileFilter. cbv zeta. destruct (forallb _ _); [done|].
    cbn [with_bitfieldMan _haves wallclock].
    induction (getFileEntries (_downloadContext s)) as [|e l IH] using rev_ind; [done|].
    rewrite foldl_app. cbn [foldl]. by destruct (isRequested e).
  - unfold markPiecesDone. repeat case_bool_decide; try done.
    unfold markPrefixDone. cbv zeta. repeat case_bool_decide; done.
Qed.

End Adverts.

Lemma eraseFromFirst_prefix {A} (f : A → bool) (l : list A) :
  ∃ k, l = eraseFromFirst f l ++ k.
Proof.
  induction l as [|x l [k IH]]; simpl; [by exists []|].
  destruct (f x); [by eexists|]. exists k. simpl. by f_equal.
Qed.

Lemma eraseFromFirst_Forall {A} (f : A → bool) (l : list A) :
  Forall (λ x, f x = false) (eraseFromFirst f l).
Proof.
  induction l as [|x l IH]; simpl; [constructor|].
  destruct (f x) eqn:Hx; [constructor|by constructor].
Qed.

Lemma eraseFromFirst_id {A} (f : A → bool) (l : list A) :
  Forall (λ x, f x = false) l → eraseFromFirst f l = l.
Proof. induction 1 as [|x l Hx _ IH]; simpl; [done|]. by rewrite Hx, IH. Qed.

Lemma filter_none {A} (f : A → bool) (l : list A) :
  Forall (λ x, f x = false) l → List.filter f l = [].
Proof. induction 1 as [|x l Hx _ IH]; simpl; [done|]. by rewrite Hx. Qed.

Lemma newestFirst_filter f haves :
  newestFirst haves → newestFirst (List.filter f haves).
Proof.
  unfold newestFirst. induction 1 as [|have rest _ IH Hall]; simpl; [constructor|].
  destruct (f have); [|done]. constructor; [done|].
  apply Forall_forall. intros x [Hx _]%list_elem_of_In%filter_In.
  rewrite Forall_forall in Hall. apply Hall. by apply list_elem_of_In.
Qed.

Lemma notBefore_newestFirst lastCheckTime haves :
  newestFirst haves →
  notBefore lastCheckTime haves
  = List.filter (λ have, bool_decide (lastCheckTime ≤ getRegisteredTime have)%Z) haves.
Proof.
  unfold newestFirst. induction 1 as [|have rest _ IH Hall]; simpl; [done|].
  case_bool_decide as Hold.
  - rewrite bool_decide_eq_false_2 by lia. symmetry. apply filter_none.
    eapply Forall_impl; [exact Hall|]. intros x Hx. simpl in Hx.
    apply bool_decide_eq_false_2. lia.
  - rewrite bool_decide_eq_true_2 by lia. by rewrite IH.
Qed.

(** X10: while the adverts stand newest first, the early [break] of
    [getAdvertisedPieceIndexes] loses nothing: the call appends the indexes
    of all adverts of other owners registered at [lastCheckTime] or later,
    in queue order. *)
Theorem getAdvertisedPieceIndexes_complete (indexes : list nat) (myCuid lastCheckTime : Z)
    (s : DefaultPieceStorage) :
  newestFirst (_haves s) →
  getAdvertisedPieceIndexes indexes myCuid lastCheckTime s
  = indexes
    ++ (getIndex <$>
          List.filter (λ have, bool_decide (lastCheckTime ≤ getRegisteredTime have)%Z)
            (List.filter (λ have, negb (bool_decide (getCuid have = myCuid))) (_haves s))).
Proof.
  intros Hnf. unfold getAdvertisedPieceIndexes. rewrite collectHaves_closed.
  f_equal. f_equal. apply notBefore_newestFirst. by apply newestFirst_filter.
Qed.

Lemma getAdvertisedPieceIndexes_complete_witness :
  let s := advertisePiece 2 1 (with_wallclock 20
             (advertisePiece 1 0 (with_wallclock 10 (new twoPieces)))) in
  newestFirst (_haves s)
  ∧ getAdvertisedPieceIndexes [] 3 15 s = [1].
Proof.
  cbv zeta.
  assert (newestFirst (_haves (advertisePiece 2 1 (with_wallclock 20
             (advertisePiece 1 0 (with_wallclock 10 (new twoPieces))))))) as Hnf.
  { repeat constructor. simpl. lia. }
  split; [exact Hnf|].
  rewrite (getAdvertisedPieceIndexes_complete [] 3 15 _ Hnf). reflexivity.
Defined.

(** X11: [removeAdvertisedPiece elapsed] keeps a prefix of the queue, in
    which every advert is younger than [elapsed]; nothing else of the
    storage changes, and a second call at the same time removes nothing
    more. *)
Theorem removeAdvertisedPiece_keeps_young (elapsed : Z) (s : DefaultPieceStorage) :
  let s' := removeAdvertisedPiece elapsed s in
  _haves s' `prefix_of` _haves s
  ∧ Forall (λ have, (age (wallclock s) have < elapsed)%Z) (_haves s')
  ∧ with_haves (λ _, _haves s) s' = s
  ∧ removeAdvertisedPiece elapsed s' = s'.
Proof.
  cbv zeta. unfold removeAdvertisedPiece, with_haves. cbn [_haves wallclock].
  pose proof (eraseFromFirst_Forall (findElapsedHave (wallclock s) elapsed) (_haves s))
    as Hyoung.
  split; [apply eraseFromFirst_prefix|]. split; [|split].
  - eapply Forall_impl; [exact Hyoung|]. intros have Hf. simpl in Hf.
    apply bool_decide_eq_false in Hf. unfold age. lia.
  - by destruct s.
  - cbn. by rewrite eraseFromFirst_id.
Qed.

(** X12: while the adverts stand newest first, [removeAdvertisedPiece
    elapsed] removes exactly the adverts of age [elapsed] or more: the
    queue that is left is the queue filtered by age. *)
Theorem removeAdvertisedPiece_drops_old (elapsed : Z) (s : DefaultPieceStorage) :
  newestFirst (_haves s) →
  _haves (removeAdvertisedPiece elapsed s)
  = List.filter (λ have, bool_decide (age (wallclock s) have < elapsed)%Z) (_haves s).
Proof.
  unfold removeAdvertisedPiece, with_haves, newestFirst. cbn [_haves].
  generalize (wallclock s). intros now.
  induction 1 as [|have rest _ IH Hall]; simpl; [done|].
  unfold findElapsedHave at 1, age at 1. case_bool_decide as Hold.
  - rewrite bool_decide_eq_false_2 by lia. symmetry. apply filter_none.
    eapply Forall_impl; [exact Hall|]. intros x Hx. simpl in Hx.
    apply bool_decide_eq_false_2. unfold age. lia.
  - rewrite bool_decide_eq_true_2 by lia. by rewrite IH.
Qed.

Lemma removeAdvertisedPiece_drops_old_witness :
  let s := with_wallclock 30 (advertisePiece 2 1 (with_wallclock 20
             (advertisePiece 1 0 (with_wallclock 10 (new twoPieces))))) in
  newestFirst (_haves s)
  ∧ _haves (removeAdvertisedPiece 15 s) = [mkHaveEntry 2 1 20].
Proof.
  cbv zeta.
  assert (newestFirst (_haves (with_wallclock 30 (advertisePiece 2 1 (with_wallclock 20
             (advertisePiece 1 0 (with_wallclock 10 (new twoPieces)))))))) as Hnf.
  { repeat constructor. simpl. lia. }
  split; [exact Hnf|].
  rewrite (removeAdvertisedPiece_drops_old 15 _ Hnf). reflexivity.
Defined.

Section AdvertOrder.
Context `{PieceSelector}.

Lemma adverts_exec c s :
  clock_ok s c = true →
  newestFirst (_haves s) ∧ Forall (λ have, getRegisteredTime have ≤ wallclock s)%Z (_haves s) →
  newestFirst (_haves (exec c s))
  ∧ Forall (λ have, getRegisteredTime have ≤ wallclock (exec c s))%Z (_haves (exec c s)).
Proof.
  intros Hok [Hnf Hle]. pose proof (haves_exec c s) as Hfr.
  destruct c;
    try (rewrite (proj1 Hfr), (proj2 Hfr); by split).
  - simpl in *. split.
    + constructor; [done|]. eapply Forall_impl; [exact Hle|]. by intros.
    + constructor; [simpl; lia|done].
  - simpl in *.
    destruct (eraseFromFirst_prefix (findElapsedHave (wallclock s) elapsed) (_haves s))
      as [k Hk].
    rewrite Hk in Hnf, Hle. split.
    + by eapply StronglySorted_app_1_l.
    + by apply Forall_app in Hle as [? _].
  - simpl in *. apply bool_decide_eq_true in Hok. split; [done|].
    eapply Forall_impl; [exact Hle|]. intros have Hh. simpl in Hh. lia.
Qed.

(** X13: the adverts stand newest first, none of them registered after the
    current time, after every sequence of calls on a new storage during
    which the wall clock does not run backwards. *)
Theorem adverts_newestFirst_after_every_call (ctx : DownloadContext) (cs : list call) :
  trace_ok clock_ok cs (new ctx) = true →
  let s := run cs (new ctx) in
  newestFirst (_haves s)
  ∧ Forall (λ have, getRegisteredTime have ≤ wallclock s)%Z (_haves s).
Proof.
  intros Hok. cbv zeta.
  assert (newestFirst (_haves (new ctx))
          ∧ Forall (λ have, getRegisteredTime have ≤ wallclock (new ctx))%Z
                   (_haves (new ctx))) as Hinit by (split; constructor).
  revert Hok Hinit. generalize (new ctx). unfold run.
  induction cs as [|c cs IH]; intros s Hok Hinv; simpl in *; [done|].
  apply andb_true_iff in Hok as [Hc Hcs]. apply IH; [done|]. by apply adverts_exec.
Qed.

End AdvertOrder.

Lemma adverts_newestFirst_after_every_call_witness :
  let cs := [Tick 10; AdvertisePiece 1 0; CheckOutPiece 0; Tick 20;
             AdvertisePiece 2 1; RemoveAdvertisedPiece 5] in
  trace_ok clock_ok cs (new twoPieces) = true
  ∧ newestFirst (_haves (run cs (new twoPieces))).
Proof.
  cbv zeta. split; [vm_compute; reflexivity|].
  apply (adverts_newestFirst_after_every_call twoPieces
           [Tick 10; AdvertisePiece 1 0; CheckOutPiece 0; Tick 20;
            AdvertisePiece 2 1; RemoveAdvertisedPiece 5]).
  vm_compute. reflexivity.
Defined.

(** ** Selection for a peer *)

Lemma unsetExcludedIndexes_bit excludedIndexes : ∀ b i,
  bit (BitfieldMan.bitfield (unsetExcludedIndexes b excludedIndexes)) i = true →
  (i ∉ excludedIndexes) ∧ bit (BitfieldMan.bitfield b) i = true.
Proof.
  unfold unsetExcludedIndexes.
  induction excludedIndexes as [|e ex IH]; intros b i Hb; simpl in *.
  - split; [apply not_elem_of_nil|done].
  - apply IH in Hb as [Hnin Hb]. simpl in Hb.
    destruct (decide (e = i)) as [->|Hne]; [by rewrite bit_insert_false in Hb|].
    rewrite bit_insert_ne in Hb by done. split; [|done].
    apply not_elem_of_cons. split; [congruence|done].
Qed.

Lemma createFastIndexBitfield_bit peer s i : ∀ b,
  bit (BitfieldMan.bitfield (createFastIndexBitfield b peer s)) i = true →
  bit (BitfieldMan.bitfield b) i = true
  ∨ (i ∈ getPeerAllowedIndexSet peer ∧ hasPiece i s = false
     ∧ hasPiece_peer peer i = true).
Proof.
  unfold createFastIndexBitfield.
  induction (getPeerAllowedIndexSet peer) as [|itr l IH]; intros b Hb; simpl in *.
  - by left.
  - apply IH in Hb as [Hb|(Hin & ?)]; [|right; split; [by apply list_elem_of_further|done]].
    destruct (negb _ && _) eqn:Hc; [|by left].
    apply andb_true_iff in Hc as [Hmiss%negb_true_iff Hpeer]. simpl in Hb.
    destruct (decide (itr = i)) as [->|Hne].
    + right. split; [apply list_elem_of_here|done].
    + rewrite bit_insert_ne in Hb by done. by left.
Qed.

Lemma tempBitfield_bit s i : bit (BitfieldMan.bitfield (tempBitfield s)) i = false.
Proof. unfold tempBitfield, BitfieldMan.new. simpl. apply bit_replicate_false. Qed.

Lemma setBitfield_tempBitfield_bit peer s i :
  bit (BitfieldMan.bitfield
         (BitfieldMan.setBitfield (getBitfield peer) (tempBitfield s))) i = true →
  hasPiece_peer peer i = true.
Proof.
  unfold BitfieldMan.setBitfield. case_bool_decide; [done|].
  by rewrite tempBitfield_bit.
Qed.

Section SelectionVariants.
Context `{PieceSelector}.

Lemma getMissingPiece_Some rnd bf s h :
  wf s → (getMissingPiece rnd bf s).1 = Some h →
  let r := getMissingPiece rnd bf s in
  let index := key (store r.2) h in
  bit bf index = true
  ∧ index < BitfieldMan.blocks (_bitfieldMan s)
  ∧ hasPiece index s = false
  ∧ BitfieldMan.interesting (_bitfieldMan s) index = true
  ∧ (isEndGame s = false → isPieceUsed index s = false)
  ∧ h ∈ _usedPieces r.2
  ∧ isPieceUsed index r.2 = true.
Proof.
  intros Hwf. cbv zeta. unfold getMissingPiece.
  destruct (getMissingPieceIndex rnd bf s) as [index|] eqn:Hsel; [|done].
  pose proof (getMissingPieceIndex_Some _ _ _ _ Hsel) as (Hi & Hb & Hh & Hint & Hu).
  destruct (checkOutPiece_result index s Hwf Hi) as (h' & Hr & Hin & Hkey & Hused).
  rewrite Hr. intros [= <-]. rewrite Hkey. done.
Qed.

(** X14: the piece that [getMissingPiece(peer, excludedIndexes)] returns is
    of an index that is not excluded, that the peer has and that the
    storage does not hold; it is checked out. *)
Theorem getMissingPiece_excluded_avoids (rnd : nat) (peer : Peer)
    (excludedIndexes : list nat) (s : DefaultPieceStorage) (h : handle) :
  wf s → (getMissingPiece_excluded rnd peer excludedIndexes s).1 = Some h →
  let r := getMissingPiece_excluded rnd peer excludedIndexes s in
  let index := key (store r.2) h in
  (index ∉ excludedIndexes)
  ∧ hasPiece_peer peer index = true
  ∧ hasPiece index s = false
  ∧ h ∈ _usedPieces r.2
  ∧ isPieceUsed index r.2 = true.
Proof.
  intros Hwf Hr. cbv zeta. unfold getMissingPiece_excluded in *. cbv zeta in *.
  unfold getMissingPiece_bitfieldMan, BitfieldMan.getBitfield in *.
  destruct (getMissingPiece_Some _ _ _ _ Hwf Hr) as (Hb & _ & Hh & _ & _ & Hin & Hu).
  apply unsetExcludedIndexes_bit in Hb as [Hnin Hb].
  apply setBitfield_tempBitfield_bit in Hb. repeat split; done.
Qed.

(** X15: [getMissingFastPiece(peer, excludedIndexes)] returns a piece only
    to a peer with the fast extension, and only of an index from the peer's
    allowed set that is not excluded, that the peer has and that the
    storage does not hold.  Without excluded indexes it is
    [getMissingFastPiece(peer)]. *)
Theorem getMissingFastPiece_allowed (rnd : nat) (peer : Peer)
    (excludedIndexes : list nat) (s : DefaultPieceStorage) (h : handle) :
  wf s → (getMissingFastPiece_excluded rnd peer excludedIndexes s).1 = Some h →
  let r := getMissingFastPiece_excluded rnd peer excludedIndexes s in
  let index := key (store r.2) h in
  isFastExtensionEnabled peer = true
  ∧ index ∈ getPeerAllowedIndexSet peer
  ∧ (index ∉ excludedIndexes)
  ∧ hasPiece_peer peer index = true
  ∧ hasPiece index s = false
  ∧ h ∈ _usedPieces r.2
  ∧ isPieceUsed index r.2 = true
  ∧ getMissingFastPiece rnd peer s = getMissingFastPiece_excluded rnd peer [] s.
Proof.
  intros Hwf Hr. cbv zeta.
  assert (getMissingFastPiece rnd peer s = getMissingFastPiece_excluded rnd peer [] s)
    as Heq by done.
  unfold getMissingFastPiece_excluded in *. cbv zeta in *.
  destruct (isFastExtensionEnabled peer); [|done].
  destruct (bool_decide _); [|done]. simpl andb in *. cbv iota in *.
  unfold getMissingPiece_bitfieldMan, BitfieldMan.getBitfield in *.
  destruct (getMissingPiece_Some _ _ _ _ Hwf Hr) as (Hb & _ & Hh & _ & _ & Hin & Hu).
  apply unsetExcludedIndexes_bit in Hb as [Hnin Hb].
  apply createFastIndexBitfield_bit in Hb as [Hb|(Hall & _ & Hpeer)];
    [by rewrite tempBitfield_bit in Hb|].
  repeat split; done.
Qed.

(** X16: [getMissingFastPiece] returns no piece and leaves the storage as
    it is for a peer without the fast extension or with an empty allowed
    set, with or without excluded indexes. *)
Theorem getMissingFastPiece_none (rnd : nat) (peer : Peer)
    (excludedIndexes : list nat) (s : DefaultPieceStorage) :
  isFastExtensionEnabled peer = false ∨ getPeerAllowedIndexSet peer = [] →
  getMissingFastPiece rnd peer s = (None, s)
  ∧ getMissingFastPiece_excluded rnd peer excludedIndexes s = (None, s).
Proof.
  unfold getMissingFastPiece, getMissingFastPiece_excluded, countPeerAllowedIndexSet.
  intros [->| ->]; [done|]. simpl. by rewrite andb_false_r.
Qed.

End SelectionVariants.

Lemma getMissingPiece_excluded_avoids_witness :
  let peer := mkPeer (replicate 21 true) false [] in
  let ex := seq 0 20 in
  wf (new manyPieces)
  ∧ (getMissingPiece_excluded 5 peer ex (new manyPieces)).1 = Some 0
  ∧ key (store (getMissingPiece_excluded 5 peer ex (new manyPieces)).2) 0 ∉ ex.
Proof.
  cbv zeta.
  assert (wf (new manyPieces)) as Hwf by by apply wf_new.
  assert ((getMissingPiece_excluded 5 (mkPeer (replicate 21 true) false []) (seq 0 20)
             (new manyPieces)).1 = Some 0) as Hr by (vm_compute; reflexivity).
  split; [done|]. split; [done|].
  exact (proj1 (getMissingPiece_excluded_avoids 5 _ _ _ 0 Hwf Hr)).
Defined.

Lemma getMissingFastPiece_allowed_witness :
  let peer := mkPeer (replicate 21 true) true [7; 3] in
  wf (new manyPieces)
  ∧ (getMissingFastPiece_excluded 5 peer [3] (new manyPieces)).1 = Some 0
  ∧ key (store (getMissingFastPiece_excluded 5 peer [3] (new manyPieces)).2) 0
    ∈ getPeerAllowedIndexSet peer.
Proof.
  cbv zeta.
  assert (wf (new manyPieces)) as Hwf by by apply wf_new.
  assert ((getMissingFastPiece_excluded 5 (mkPeer (replicate 21 true) true [7; 3]) [3]
             (new manyPieces)).1 = Some 0) as Hr by (vm_compute; reflexivity).
  split; [done|]. split; [done|].
  exact (proj1 (proj2 (getMissingFastPiece_allowed 5 _ _ _ 0 Hwf Hr))).
Defined.

Lemma getMissingFastPiece_none_witness :
  getMissingFastPiece 5 (mkPeer (replicate 21 true) true []) (new manyPieces)
  = (None, new manyPieces).
Proof.
  apply (getMissingFastPiece_none 5 (mkPeer (replicate 21 true) true []) []).
  by right.
Defined.

(** ** Selection without a peer *)

Lemma foldl_longestRun_Some cand l : ∀ best,
  is_Some best →
  is_Some (foldl (λ best i,
                    let len := BitfieldMan.runLength (drop i cand) in
                    match best with
                    | Some (_, blen) =>
                        if bool_decide (blen < len) then Some (i, len) else best
                    | None => Some (i, len)
                    end) best l).
Proof.
  induction l as [|i l IH]; intros best Hbest; simpl; [done|].
  apply IH. destruct best as [[bi bn]|]; [|done]. by case_bool_decide.
Qed.

Lemma longestRun_None cand :
  BitfieldMan.longestRun cand = None → BitfieldMan.runStarts cand = [].
Proof.
  unfold BitfieldMan.longestRun. destruct (BitfieldMan.runStarts cand) as [|i l]; [done|].
  cbn [foldl]. intros Hnone. exfalso. eapply is_Some_None. rewrite <- Hnone.
  by apply foldl_longestRun_Some.
Qed.

(** Below every set bit a run starts. *)
Lemma runStarts_below cand i :
  bit cand i = true → ∃ j, j ∈ BitfieldMan.runStarts cand.
Proof.
  induction i as [|i IH]; intros Hb.
  - exists 0. unfold BitfieldMan.runStarts.
    apply list_elem_of_In, filter_In. rewrite Hb. split; [|done].
    apply list_elem_of_In, elem_of_seq. apply bit_true_lt in Hb. lia.
  - destruct (bit cand i) eqn:Hi; [by apply IH|].
    exists (S i). unfold BitfieldMan.runStarts.
    apply list_elem_of_In, filter_In. rewrite Hb, Hi. split; [|done].
    apply list_elem_of_In, elem_of_seq. apply bit_true_lt in Hb. lia.
Qed.

Lemma getSparseMissingUnusedIndex_None b ignore i :
  BitfieldMan.getSparseMissingUnusedIndex b ignore = None →
  bit (BitfieldMan.sparseCandidates b ignore) i = false.
Proof.
  unfold BitfieldMan.getSparseMissingUnusedIndex.
  destruct (BitfieldMan.longestRun _) as [[start len]|] eqn:Hrun; [done|]. intros _.
  apply longestRun_None in Hrun.
  destruct (bit _ i) eqn:Hb; [|done].
  apply runStarts_below in Hb as [j Hj]. rewrite Hrun in Hj. by apply elem_of_nil in Hj.
Qed.

Lemma hasMissingUnusedPiece_true s i :
  i < BitfieldMan.blocks (_bitfieldMan s) →
  hasPiece i s = false → isPieceUsed i s = false →
  BitfieldMan.interesting (_bitfieldMan s) i = true →
  hasMissingUnusedPiece s = true.
Proof.
  intros Hi Hh Hu Hint. unfold hasMissingUnusedPiece, BitfieldMan.getFirstMissingUnusedIndex.
  apply bool_decide_eq_true.
  destruct (List.find _ _) eqn:Hf; [done|].
  eapply find_none in Hf; [|apply list_elem_of_In, elem_of_seq; split; [lia|exact Hi]].
  unfold hasPiece, isPieceUsed in *. simpl in Hf. by rewrite Hh, Hu, Hint in Hf.
Qed.

(** X17: [getSparseMissingUnusedPiece] checks out a piece that was missing,
    not in use, of interest and not ignored, and can do so only while
    [hasMissingUnusedPiece()] holds; it returns no piece, and changes
    nothing, exactly when every piece is held, in use, filtered out or
    ignored. *)
Theorem getSparseMissingUnusedPiece_spec (ignoreBitfield : list bool)
    (s : DefaultPieceStorage) :
  wf s →
  let r := getSparseMissingUnusedPiece ignoreBitfield s in
  match r.1 with
  | Some h =>
      let index := key (store r.2) h in
      hasPiece index s = false
      ∧ isPieceUsed index s = false
      ∧ BitfieldMan.interesting (_bitfieldMan s) index = true
      ∧ bit ignoreBitfield index = false
      ∧ hasMissingUnusedPiece s = true
      ∧ h ∈ _usedPieces r.2
      ∧ isPieceUsed index r.2 = true
  | None =>
      r.2 = s
      ∧ ∀ i, i < BitfieldMan.blocks (_bitfieldMan s) →
             hasPiece i s = true ∨ isPieceUsed i s = true
             ∨ BitfieldMan.interesting (_bitfieldMan s) i = false
             ∨ bit ignoreBitfield i = true
  end.
Proof.
  intros Hwf. cbv zeta. unfold getSparseMissingUnusedPiece.
  destruct (BitfieldMan.getSparseMissingUnusedIndex _ _) as [index|] eqn:Hsel.
  - apply getSparseMissingUnusedIndex_Some in Hsel as (Hi & Hh & Hu & Hint & Hig).
    destruct (checkOutPiece_result index s Hwf Hi) as (h & Hr & Hin & Hkey & Hused).
    rewrite Hr, Hkey. repeat split; try done.
    by apply (hasMissingUnusedPiece_true s index).
  - simpl. split; [done|]. intros i Hi.
    pose proof (getSparseMissingUnusedIndex_None _ _ i Hsel) as Hb.
    unfold BitfieldMan.sparseCandidates, BitfieldMan.indexes in Hb.
    unfold hasPiece, isPieceUsed.
    destruct (BitfieldMan.isBitSet i _) eqn:E1; [by left|].
    destruct (BitfieldMan.isUseBitSet i _) eqn:E2; [by right; left|].
    destruct (BitfieldMan.interesting _ i) eqn:E3; [|by right; right; left].
    destruct (bit ignoreBitfield i) eqn:E4; [by right; right; right|].
    assert (bit ((λ i, negb (BitfieldMan.isBitSet i (_bitfieldMan s))
                       && negb (BitfieldMan.isUseBitSet i (_bitfieldMan s))
                       && BitfieldMan.interesting (_bitfieldMan s) i
                       && negb (bit ignoreBitfield i))
                 <$> seq 0 (BitfieldMan.blocks (_bitfieldMan s))) i = true) as Ht.
    { apply bit_fmap_indexes. split; [done|]. by rewrite E1, E2, E3, E4. }
    congruence.
Qed.

Lemma getSparseMissingUnusedPiece_spec_witness :
  wf (new manyPieces)
  ∧ (getSparseMissingUnusedPiece [] (new manyPieces)).1 = Some 0
  ∧ hasMissingUnusedPiece (new manyPieces) = true.
Proof.
  assert (wf (new manyPieces)) as Hwf by by apply wf_new.
  split; [done|].
  pose proof (getSparseMissingUnusedPiece_spec [] (new manyPieces) Hwf) as Hsp.
  cbv zeta in Hsp.
  assert ((getSparseMissingUnusedPiece [] (new manyPieces)).1 = Some 0) as Hr
    by (vm_compute; reflexivity).
  rewrite Hr in Hsp. split; [exact Hr|apply Hsp].
Defined.

Section HasMissingPiece.
Context `{PieceSelector}.

(** X18: [hasMissingPiece(peer)] tells whether [getMissingPiece(peer)] can
    return a piece: when it is false the call returns none and changes
    nothing, and in end-game, when it is true, the call returns a piece. *)
Theorem hasMissingPiece_getMissingPiece (rnd : nat) (peer : Peer)
    (s : DefaultPieceStorage) :
  (hasMissingPiece peer s = false → getMissingPiece_peer rnd peer s = (None, s))
  ∧ (hasMissingPiece peer s = true → isEndGame s = true →
     is_Some (getMissingPiece_peer rnd peer s).1).
Proof.
  unfold hasMissingPiece, BitfieldMan.hasMissingPiece, getMissingPiece_peer,
    getMissingPiece.
  split.
  - intros Hnone.
    destruct (getMissingPieceIndex rnd (getBitfield peer) s) as [index|] eqn:Hsel; [|done].
    apply getMissingPieceIndex_Some in Hsel as (Hi & Hb & Hh & Hint & _).
    apply (existsb_false_bits _ index) in Hnone.
    assert (bit (BitfieldMan.missingIndexes (_bitfieldMan s) (getBitfield peer)) index
            = true) as Ht.
    { apply bit_fmap_indexes. split; [done|]. unfold hasPiece in Hh.
      by rewrite Hb, Hh, Hint. }
    congruence.
  - intros Hsome Heg.
    destruct (getMissingPieceIndex rnd (getBitfield peer) s) as [index|] eqn:Hsel.
    + unfold checkOutPiece. cbv zeta. by destruct (findUsedPiece _ _).
    + exfalso. unfold getMissingPieceIndex, BitfieldMan.getAllMissingIndexes in Hsel.
      rewrite Heg, Hsome in Hsel.
      apply existsb_exists in Hsome as (b & Hin & ->).
      apply list_elem_of_In, list_elem_of_lookup in Hin as [i Hi].
      assert (bit (BitfieldMan.missingIndexes (_bitfieldMan s) (getBitfield peer)) i
              = true) as Ht by (unfold bit; by rewrite Hi).
      assert (i < BitfieldMan.blocks (_bitfieldMan s)) as Hlt.
      { apply lookup_lt_Some in Hi. unfold BitfieldMan.missingIndexes,
          BitfieldMan.indexes in Hi. by rewrite length_fmap, length_seq in Hi. }
      apply (select_exhausted _ _ _ _ i) in Hsel; [congruence|done].
Qed.

End HasMissingPiece.

(** ** All pieces done *)

Lemma bit_replicate_true n i : i < n → bit (replicate n true) i = true.
Proof. intros. unfold bit. by rewrite lookup_replicate_2. Qed.

Lemma sumZ_app (l k : list Z) : sumZ (l ++ k) = (sumZ l + sumZ k)%Z.
Proof. induction l as [|x l IH]; simpl; lia. Qed.

Lemma sumLengths_ext b (sel1 sel2 : nat → bool) :
  (∀ i, i < BitfieldMan.blocks b → sel1 i = sel2 i) →
  BitfieldMan.sumLengths b sel1 = BitfieldMan.sumLengths b sel2.
Proof.
  intros Hsel. unfold BitfieldMan.sumLengths, BitfieldMan.indexes. f_equal.
  apply list_eq. intros i. rewrite !list_lookup_fmap.
  destruct (decide (i < BitfieldMan.blocks b)) as [Hi|Hi].
  - rewrite lookup_seq_lt by done. simpl. by rewrite Hsel.
  - by rewrite lookup_seq_ge by lia.
Qed.

Lemma sumLengths_prefix b n :
  n < BitfieldMan.blocks b →
  sumZ ((λ i, BitfieldMan.getBlockLengthAt i b) <$> seq 0 n)
  = (Z.of_nat n * BitfieldMan.blockLength b)%Z.
Proof.
  induction n as [|n IH]; intros Hn; [simpl; lia|].
  rewrite seq_S, fmap_app, sumZ_app, IH by lia. simpl.
  unfold BitfieldMan.getBlockLengthAt.
  rewrite bool_decide_eq_false_2, bool_decide_eq_true_2 by lia. lia.
Qed.

(** The lengths of the pieces add up to the total length. *)
Lemma sumLengths_all b :
  wf_bitfieldMan b →
  BitfieldMan.sumLengths b (λ _, true) = BitfieldMan.totalLength b.
Proof.
  intros Hwf. unfold BitfieldMan.sumLengths, BitfieldMan.indexes.
  destruct (BitfieldMan.blocks b) as [|m] eqn:Hn.
  - simpl. destruct Hwf as [Hbl Htl Hb _ _]. rewrite Hn in Hb.
    destruct (decide (BitfieldMan.totalLength b = 0)%Z) as [?|Hne]; [lia|].
    assert (0 < (BitfieldMan.totalLength b + BitfieldMan.blockLength b - 1)
                / BitfieldMan.blockLength b)%Z by (apply Z.div_str_pos; lia).
    lia.
  - rewrite seq_S, fmap_app, sumZ_app.
    rewrite (sumLengths_prefix b m) by lia. simpl.
    unfold BitfieldMan.getBlockLengthAt. rewrite bool_decide_eq_true_2 by done. lia.
Qed.

(** X19: after [markAllPiecesDone] every piece is held, both
    [allDownloadFinished] and [downloadFinished] hold, and the storage is in
    end-game; the in-flight container, the in-use bits and the counts are
    not touched.  [markPiecesDone] with the total length does the same. *)
Theorem markAllPiecesDone_finishes (s : DefaultPieceStorage) :
  let s' := markAllPiecesDone s in
  (∀ i, i < BitfieldMan.blocks (_bitfieldMan s) → hasPiece i s' = true)
  ∧ allDownloadFinished s' = true
  ∧ downloadFinished s' = true
  ∧ isEndGame s' = true
  ∧ hasMissingUnusedPiece s' = false
  ∧ (∀ i, isPieceUsed i s' = isPieceUsed i s)
  ∧ _usedPieces s' = _usedPieces s
  ∧ _pieceStatMan s' = _pieceStatMan s
  ∧ markPiecesDone (getTotalLength s) s = s'.
Proof.
  cbv zeta.
  assert (∀ i, i < BitfieldMan.blocks (_bitfieldMan s) →
               hasPiece i (markAllPiecesDone s) = true) as Hall.
  { intros i Hi. unfold hasPiece, BitfieldMan.isBitSet. simpl.
    by apply bit_replicate_true. }
  assert (∀ f, List.filter
                 (λ i, negb (BitfieldMan.isBitSet i (_bitfieldMan (markAllPiecesDone s)))
                       && f i)
                 (seq 0 (BitfieldMan.blocks (_bitfieldMan s))) = []) as Hnone.
  { intros f. apply filter_none, Forall_forall. intros i [_ Hi]%elem_of_seq.
    unfold hasPiece in Hall. rewrite Hall by lia. done. }
  split; [done|]. split; [|split; [|split; [|split]]].
  - unfold allDownloadFinished, BitfieldMan.isAllBitSet. apply forallb_forall.
    intros i [_ Hi]%list_elem_of_In%elem_of_seq. apply Hall. simpl in Hi. lia.
  - unfold downloadFinished, BitfieldMan.isFilteredAllBitSet. apply forallb_forall.
    intros i [_ Hi]%list_elem_of_In%elem_of_seq. simpl in Hi.
    unfold hasPiece in Hall. rewrite Hall by lia. done.
  - unfold isEndGame, BitfieldMan.countMissingBlock, BitfieldMan.indexes.
    apply bool_decide_eq_true.
    change (BitfieldMan.blocks (_bitfieldMan (markAllPiecesDone s)))
      with (BitfieldMan.blocks (_bitfieldMan s)).
    rewrite (Hnone (BitfieldMan.interesting (_bitfieldMan (markAllPiecesDone s)))).
    simpl. lia.
  - unfold hasMissingUnusedPiece, BitfieldMan.getFirstMissingUnusedIndex.
    apply bool_decide_eq_false. intros [i Hf].
    apply find_some in Hf as [[_ Hi]%list_elem_of_In%elem_of_seq Hf].
    simpl in Hi. unfold hasPiece in Hall. rewrite Hall in Hf by lia. done.
  - repeat split. unfold markPiecesDone, getTotalLength, BitfieldMan.getTotalLength.
    by rewrite bool_decide_eq_true_2.
Qed.

(** X20: once all pieces are marked done, [getCompletedLength()] is the
    total length, while [getFilteredCompletedLength()] is the filtered total
    length plus the completed lengths of the pieces still in flight. *)
Theorem getCompletedLength_markAllPiecesDone (s : DefaultPieceStorage) :
  wf s → (inFlightSum s < 2 ^ 31)%Z → (getTotalLength s + inFlightSum s < 2 ^ 64)%Z →
  let s' := markAllPiecesDone s in
  getCompletedLength s' = getTotalLength s
  ∧ getFilteredCompletedLength s' = (getFilteredTotalLength s + inFlightSum s)%Z.
Proof.
  intros Hwf Hint Hu64. cbv zeta.
  pose proof (inFlightSum_nonneg s Hwf) as Hnn.
  assert (wf (markAllPiecesDone s)) as Hwf'.
  { apply (wf_markPiecesDone (getTotalLength s)) in Hwf as Hwf'.
    - unfold markPiecesDone, getTotalLength, BitfieldMan.getTotalLength in Hwf'.
      by rewrite bool_decide_eq_true_2 in Hwf'.
    - unfold getTotalLength, BitfieldMan.getTotalLength.
      pose proof (wf_totalLength _ (wf_bm _ Hwf)). lia. }
  assert (∀ sel, BitfieldMan.sumLengths (_bitfieldMan (markAllPiecesDone s))
                   (λ i, BitfieldMan.isBitSet i (_bitfieldMan (markAllPiecesDone s))
                         && sel i)
                 = BitfieldMan.sumLengths (_bitfieldMan s) sel) as Hsum.
  { intros sel.
    rewrite (sumLengths_ext _ _ sel).
    - done.
    - intros i Hi. unfold BitfieldMan.isBitSet. simpl in *.
      by rewrite bit_replicate_true. }
  assert (BitfieldMan.getCompletedLength (_bitfieldMan (markAllPiecesDone s))
          = getTotalLength s) as Hc.
  { unfold BitfieldMan.getCompletedLength.
    rewrite (sumLengths_ext _ _ (λ i, BitfieldMan.isBitSet i
                                        (_bitfieldMan (markAllPiecesDone s)) && true))
      by (intros; by rewrite andb_true_r).
    rewrite (Hsum (λ _, true)). apply sumLengths_all, Hwf. }
  assert (BitfieldMan.getFilteredCompletedLength (_bitfieldMan (markAllPiecesDone s))
          = getFilteredTotalLength s) as Hfc.
  { unfold BitfieldMan.getFilteredCompletedLength.
    apply (Hsum (BitfieldMan.interesting (_bitfieldMan s))). }
  assert (BitfieldMan.sumLengths (_bitfieldMan s) (BitfieldMan.interesting (_bitfieldMan s))
          ≤ getTotalLength s)%Z as Hle.
  { unfold getTotalLength, BitfieldMan.getTotalLength.
    rewrite <- (sumLengths_all _ (wf_bm _ Hwf)).
    by apply sumLengths_mono; [apply Hwf|]. }
  pose proof (sumLengths_mono (_bitfieldMan s) (λ _, false)
                (BitfieldMan.interesting (_bitfieldMan s)) (wf_bm _ Hwf)) as [H0 Hf0];
    [done|].
  unfold getCompletedLength, getFilteredCompletedLength. cbv zeta.
  assert (inFlightSum (markAllPiecesDone s) = inFlightSum s) as Hin by done.
  rewrite getInFlightPieceCompletedLength_exact by (rewrite ?Hin; done).
  rewrite Hc, Hfc, Hin.
  change (getTotalLength (markAllPiecesDone s)) with (getTotalLength s).
  unfold getFilteredTotalLength, BitfieldMan.getFilteredTotalLength in *.
  rewrite !to_u64_small by (unfold getTotalLength, BitfieldMan.getTotalLength in *; lia).
  split; [|done]. case_bool_decide; lia.
Qed.

Lemma getCompletedLength_markAllPiecesDone_witness :
  let s := run [CheckOutPiece 0; CompleteBlock 0 0] (new twoPieces) in
  wf s ∧ (inFlightSum s < 2 ^ 31)%Z ∧ (getTotalLength s + inFlightSum s < 2 ^ 64)%Z
  ∧ getCompletedLength (markAllPiecesDone s) = getTotalLength s.
Proof.
  cbv zeta.
  assert (wf (run [CheckOutPiece 0; CompleteBlock 0 0] (new twoPieces))) as Hwf.
  { apply wf_run; [by apply wf_new|(vm_compute; reflexivity)]. }
  split; [done|]. split; [vm_compute; reflexivity|]. split; [vm_compute; reflexivity|].
  apply (getCompletedLength_markAllPiecesDone _ Hwf); vm_compute; reflexivity.
Defined.
